(** * Symphony: task routing, capability matching and consensus

    A shallow embedding of the decentralized task-routing core of the
    Symphony network (agents/agent.py, agents/user.py, core/capability.py,
    protocol/*.py, agent_register.py, user_register.py) together with the
    properties its specification states about it.

    Python values are embedded as follows: [str] as [string], [int] as [Z],
    lists as [list], dictionaries with string keys as [gmap string _],
    exceptions as the left summand of a sum type.  Calls into the language
    model and into the clock / uuid generator are explicit arguments. *)

From Stdlib Require Import QArith Qcanon Qround Ascii.
From stdpp Require Import gmap strings list fin_maps pretty numbers sorting.

Local Open Scope Z_scope.

(** ** Python primitives *)

Module Py.

(** Exceptions raised by the embedded code. *)
Inductive exn :=
| KeyError (key : string)
| AttributeError (msg : string)
| ValueError (msg : string)
| TypeError (msg : string)
| RuntimeError (msg : string)
| IOError (msg : string)
| OSError (msg : string)
| IndexError (msg : string).

Definition result (A : Type) := (exn + A)%type.

(** [str(n)] for an [int]. *)
Definition str (n : Z) : string := pretty n.

(** [x or d] on strings, lists, integers and dictionaries. *)
Definition or_str (x : option string) (d : string) : string :=
  match x with
  | Some s => if decide (s = "") then d else s
  | None => d
  end.

Definition or_list {A} (x : option (list A)) (d : list A) : list A :=
  match x with
  | Some (y :: l) => y :: l
  | _ => d
  end.

Definition or_int (x : option Z) (d : Z) : Z :=
  match x with
  | Some n => if decide (n = 0) then d else n
  | None => d
  end.

Definition or_dict {V} (x : option (gmap string V)) (d : gmap string V)
  : gmap string V :=
  match x with
  | Some m => if decide (m = ∅) then d else m
  | None => d
  end.

(** [enumerate(l)] *)
Definition enumerate {A} (l : list A) : list (nat * A) :=
  zip (seq 0 (length l)) l.

(** [l[:n]] *)
Definition slice_to {A} (n : Z) (l : list A) : list A :=
  if decide (0 <= n) then take (Z.to_nat n) l
  else take (length l - Z.to_nat (- n)) l.

(** A finite float is embedded as the rational it denotes.  [min(a, b)] and
    [max(a, b)] return their first argument unless the
    second is strictly better. *)
Definition min_ (a b : Qc) : Qc := if decide (b < a)%Qc then b else a.
Definition max_ (a b : Qc) : Qc := if decide (a < b)%Qc then b else a.

(** Rounding to the nearest integer, ties to the even one. *)
Definition round_half_even (q : Q) : Z :=
  let f := Qfloor q in
  match (q - inject_Z f ?= 1 # 2)%Q with
  | Lt => f
  | Gt => f + 1
  | Eq => if Z.even f then f else f + 1
  end.

(** [round(x, 3)]: the number with three decimals nearest to [x]. *)
Definition round3 (x : Qc) : Qc :=
  Q2Qc (inject_Z (round_half_even (x * inject_Z 1000)%Q) / inject_Z 1000).

(** [s.lower()], on the ASCII letters. *)
Definition lower_ascii (c : ascii) : ascii :=
  let n := nat_of_ascii c in
  if bool_decide (65 <= n <= 90)%nat then ascii_of_nat (n + 32) else c.

Definition lower (s : string) : string :=
  String.string_of_list_ascii (map lower_ascii (String.list_ascii_of_string s)).

(** The double quote and the newline, for f-strings. *)
Definition dquote : string := String "034"%char "".
Definition newline : string := String "010"%char "".

End Py.

Import Py.

(** ** protocol/task_contract.py *)

Module TaskContract.

Inductive api_mode := high_level | legacy.

(** A step is the two-element list [[instruction, requirement]]. *)
Abbreviation step := (string * string)%type.

Record Task := mkTask {
  task_id : string;
  description : string;
  requirements : list string;
  context : gmap string string;
  subtask_id : Z;
  steps : gmap string step;
  previous_results : list string;
  original_problem : string;
  final_result : string;
  user_id : string;
  _api_mode : api_mode
}.

(** The keys [to_dict] adds for the new API. *)
Record NewKeys := mkNewKeys {
  k_task_id : string;
  k_description : string;
  k_requirements : list string;
  k_context : gmap string string;
  k_api_mode : api_mode
}.

(** The dictionary form of a task, as [to_dict] builds it and as the
    transport delivers it: the six legacy keys, and the new-API keys when
    present. *)
Record TaskDict := mkTaskDict {
  d_subtask_id : Z;
  d_steps : gmap string step;
  d_previous_results : list string;
  d_original_problem : string;
  d_final_result : string;
  d_user_id : string;
  d_new : option NewKeys
}.

(** [Task.__init__]; [fresh] is the value of [str(uuid.uuid4())]. *)
Definition Task_init (fresh : string)
    (description : option string)
    (requirements : option (list string))
    (context : option (gmap string string))
    (task_id : option string)
    (subtask_id : option Z)
    (steps : option (gmap string step))
    (previous_results : option (list string))
    (original_problem : option string)
    (final_result : option string)
    (user_id : option string) : Task :=
  if bool_decide (is_Some description ∨ is_Some requirements) then
    {| task_id := or_str task_id fresh;
       description := or_str description "";
       requirements := or_list requirements [];
       context := or_dict context ∅;
       subtask_id := or_int subtask_id 0;
       steps := or_dict steps ∅;
       previous_results := or_list previous_results [];
       original_problem :=
         or_str original_problem (or_str description "");
       final_result := or_str final_result "";
       user_id := or_str user_id "symphony_user";
       _api_mode := high_level |}
  else
    {| subtask_id := or_int subtask_id 0;
       steps := or_dict steps ∅;
       previous_results := or_list previous_results [];
       original_problem := or_str original_problem "";
       final_result := or_str final_result "";
       user_id := or_str user_id "symphony_user";
       task_id := fresh;
       description := or_str original_problem "";
       requirements :=
         match steps with
         | Some m => (map_to_list m).*1
         | None => []
         end;
       context := {[ "mode" := "legacy" ]};
       _api_mode := legacy |}.

(** [Task.to_dict] *)
Definition to_dict (self : Task) : TaskDict :=
  {| d_subtask_id := subtask_id self;
     d_steps := steps self;
     d_previous_results := previous_results self;
     d_original_problem := original_problem self;
     d_final_result := final_result self;
     d_user_id := user_id self;
     d_new := Some {| k_task_id := task_id self;
                      k_description := description self;
                      k_requirements := requirements self;
                      k_context := context self;
                      k_api_mode := _api_mode self |} |}.

(** [Task.from_dict] *)
Definition from_dict (fresh : string) (data : TaskDict) : Task :=
  match d_new data with
  | Some n =>
      Task_init fresh
        (Some (k_description n))
        (Some (k_requirements n))
        (Some (k_context n))
        (Some (k_task_id n))
        (Some (d_subtask_id data))
        (Some (d_steps data))
        (Some (d_previous_results data))
        (Some (d_original_problem data))
        (Some (d_final_result data))
        (Some (d_user_id data))
  | None =>
      Task_init fresh None None None None
        (Some (d_subtask_id data))
        (Some (d_steps data))
        (Some (d_previous_results data))
        (Some (d_original_problem data))
        (Some (d_final_result data))
        (Some (d_user_id data))
  end.

(** Item assignment on the dictionary form. *)
Definition set_subtask_id (v : Z) (d : TaskDict) : TaskDict :=
  mkTaskDict v (d_steps d) (d_previous_results d) (d_original_problem d)
             (d_final_result d) (d_user_id d) (d_new d).

Definition set_steps (v : gmap string step) (d : TaskDict) : TaskDict :=
  mkTaskDict (d_subtask_id d) v (d_previous_results d)
             (d_original_problem d) (d_final_result d) (d_user_id d)
             (d_new d).

Definition append_previous_result (v : string) (d : TaskDict) : TaskDict :=
  mkTaskDict (d_subtask_id d) (d_steps d) (d_previous_results d ++ [v])
             (d_original_problem d) (d_final_result d) (d_user_id d)
             (d_new d).

Definition set_final_result (v : string) (d : TaskDict) : TaskDict :=
  mkTaskDict (d_subtask_id d) (d_steps d) (d_previous_results d)
             (d_original_problem d) v (d_user_id d) (d_new d).

End TaskContract.

Import TaskContract.

(** ** protocol/beacon.py and protocol/response.py *)

Module Protocol.

(** A JSON value held by a message field.  Python's [==] identifies [1]
    and [1.0]: both are the number [VNum 1]. *)
Inductive value :=
| VNone
| VStr (s : string)
| VNum (q : Qc).

Global Instance value_eq_dec : EqDecision value.
Proof. solve_decision. Defined.

(** Truth value of an object, as [or] tests it. *)
Definition truthy (v : value) : bool :=
  match v with
  | VNone => false
  | VStr s => bool_decide (s ≠ "")
  | VNum q => bool_decide (q ≠ 0%Qc)
  end.

Definition or_value (x d : value) : value := if truthy x then x else d.

(** [data.get(key, default)] *)
Definition get (data : gmap string value) (key : string) (default : value)
  : value :=
  match data !! key with
  | Some v => v
  | None => default
  end.

Module Beacon.

Record Beacon := mkBeacon {
  beacon_id : value;
  sender : value;
  task_id : value;
  requirement : value;
  ttl : value;
  timestamp : value
}.

(** [Beacon.__init__]; [fresh] is [str(uuid.uuid4())] and [now] is
    [int(time.time())]. *)
Definition __init__ (fresh : string) (now : Z)
    (sender requirement task_id ttl : value) : Beacon :=
  {| beacon_id := VStr fresh;
     sender := sender;
     task_id := or_value task_id (VStr fresh);
     requirement := requirement;
     ttl := ttl;
     timestamp := VNum (Qc_of_Z now) |}.

(** [Beacon.to_dict] *)
Definition to_dict (self : Beacon) : gmap string value :=
  <[ "beacon_id" := beacon_id self ]>
  (<[ "sender" := sender self ]>
  (<[ "task_id" := task_id self ]>
  (<[ "requirement" := requirement self ]>
  (<[ "ttl" := ttl self ]>
  (<[ "timestamp" := timestamp self ]> ∅))))).

(** [Beacon.from_dict]; the constructor draws a uuid and reads the clock
    ([fresh], [now]), and so do the defaults of [beacon_id] and
    [timestamp] ([fresh'], [now']). *)
Definition from_dict (fresh fresh' : string) (now now' : Z)
    (data : gmap string value) : Beacon :=
  let beacon :=
    __init__ fresh now
      (get data "sender" (VStr "unknown"))
      (get data "requirement" (VStr ""))
      (get data "task_id" VNone)
      (get data "ttl" (VNum (Qc_of_Z 2))) in
  {| beacon_id := get data "beacon_id" (VStr fresh');
     sender := sender beacon;
     task_id := task_id beacon;
     requirement := requirement beacon;
     ttl := ttl beacon;
     timestamp := get data "timestamp" (VNum (Qc_of_Z now')) |}.

(** The Beacon objects the program builds: by the constructor or by
    [from_dict]; a uuid is never the empty string. *)
Inductive constructed : Beacon -> Prop :=
| by_init fresh now sender requirement task_id ttl :
    fresh ≠ "" ->
    constructed (__init__ fresh now sender requirement task_id ttl)
| by_from_dict fresh fresh' now now' data :
    fresh ≠ "" ->
    constructed (from_dict fresh fresh' now now' data).

End Beacon.

Module BeaconResponse.

Record BeaconResponse := mkBeaconResponse {
  response_id : value;
  responder_id : value;
  task_id : value;
  match_score : value;
  estimate_cost : value;
  timestamp : value
}.

Definition not_a_number : exn :=
  TypeError "'<' not supported between instances".

(** [BeaconResponse.__init__]; comparing anything but a number with a
    float raises [TypeError]. *)
Definition __init__ (fresh : string) (now : Z)
    (responder_id task_id match_score estimate_cost : value)
  : result BeaconResponse :=
  match match_score with
  | VNum ms =>
      match estimate_cost with
      | VNum ec =>
          inr {| response_id := VStr fresh;
                 responder_id := responder_id;
                 task_id := task_id;
                 match_score := VNum (round3 (max_ 0 (min_ 1 ms)));
                 estimate_cost := VNum (round3 (max_ 0 ec));
                 timestamp := VNum (Qc_of_Z now) |}
      | _ => inl not_a_number
      end
  | _ => inl not_a_number
  end.

(** [BeaconResponse.to_dict] *)
Definition to_dict (self : BeaconResponse) : gmap string value :=
  <[ "response_id" := response_id self ]>
  (<[ "responder_id" := responder_id self ]>
  (<[ "task_id" := task_id self ]>
  (<[ "match_score" := match_score self ]>
  (<[ "estimate_cost" := estimate_cost self ]>
  (<[ "timestamp" := timestamp self ]> ∅))))).

(** [BeaconResponse.from_dict] *)
Definition from_dict (fresh fresh' : string) (now now' : Z)
    (data : gmap string value) : result BeaconResponse :=
  match
    __init__ fresh now
      (get data "responder_id" (VStr "unknown"))
      (get data "task_id" (VStr ""))
      (get data "match_score" (VNum 1))
      (get data "estimate_cost" (VNum 1))
  with
  | inl e => inl e
  | inr resp =>
      inr {| response_id := get data "response_id" (VStr fresh');
             responder_id := responder_id resp;
             task_id := task_id resp;
             match_score := match_score resp;
             estimate_cost := estimate_cost resp;
             timestamp := get data "timestamp" (VNum (Qc_of_Z now')) |}
  end.

(** The BeaconResponse objects the program builds. *)
Inductive constructed : BeaconResponse -> Prop :=
| by_init fresh now responder_id task_id match_score estimate_cost r :
    __init__ fresh now responder_id task_id match_score estimate_cost
      = inr r ->
    constructed r
| by_from_dict fresh fresh' now now' data r :
    from_dict fresh fresh' now now' data = inr r ->
    constructed r.

End BeaconResponse.

End Protocol.

Import Protocol.

(** ** difflib.SequenceMatcher, as [CapabilityManager.match] calls it *)

Module Difflib.

Section SequenceMatcher.

(** [SequenceMatcher(None, a, b)]: no junk predicate, [autojunk] on. *)
Variables a b : list ascii.

(** [__chain_b]: with 200 elements or more in [b], an element that occurs
    more than [len(b) // 100 + 1] times is popular and leaves [b2j]. *)
Definition popular (elt : ascii) : bool :=
  bool_decide (200 <= length b)%nat
  && bool_decide (length b / 100 + 1 < length (filter (eq elt) b))%nat.

(** [b2j.get(elt, nothing)]: the indices of [elt] in [b], ascending. *)
Definition b2j_get (elt : ascii) : list nat :=
  if popular elt then []
  else filter (fun j => b !! j = Some elt) (seq 0 (length b)).

(** [j2len.get(j - 1, 0)] *)
Definition j2lenget (j2len : gmap nat nat) (j : nat) : nat :=
  match j with
  | O => 0%nat
  | S j' => default 0%nat (j2len !! j')
  end.

(** The loop [for j in b2j.get(a[i], nothing)] of [find_longest_match],
    with its [continue] and [break]. *)
Fixpoint scan_row (blo bhi i : nat) (j2len : gmap nat nat) (js : list nat)
    (newj2len : gmap nat nat) (best : nat * nat * nat)
  : gmap nat nat * (nat * nat * nat) :=
  match js with
  | [] => (newj2len, best)
  | j :: js =>
      if decide (j < blo)%nat
      then scan_row blo bhi i j2len js newj2len best
      else if decide (bhi <= j)%nat then (newj2len, best)
      else
        let k := S (j2lenget j2len j) in
        let newj2len := <[ j := k ]> newj2len in
        let best :=
          if decide (best.2 < k)%nat
          then ((i + 1 - k)%nat, (j + 1 - k)%nat, k) else best in
        scan_row blo bhi i j2len js newj2len best
  end.

(** The loop [for i in range(alo, ahi)]: the longest match free of popular
    elements, the first one met among the longest. *)
Definition scan (alo ahi blo bhi : nat) : nat * nat * nat :=
  (fold_left
     (fun '(j2len, best) i =>
        scan_row blo bhi i j2len
                 (match a !! i with Some elt => b2j_get elt | None => [] end)
                 ∅ best)
     (seq alo (ahi - alo)) (∅, (alo, blo, 0%nat))).2.

(** [while besti > alo and bestj > blo and a[besti-1] == b[bestj-1]] *)
Fixpoint extend_back (alo blo besti bestj bestsize : nat)
  : nat * nat * nat :=
  match besti, bestj with
  | S i', S j' =>
      if decide ((alo < besti)%nat /\ (blo < bestj)%nat
                 /\ is_Some (a !! i') /\ a !! i' = b !! j')
      then extend_back alo blo i' j' (S bestsize)
      else (besti, bestj, bestsize)
  | _, _ => (besti, bestj, bestsize)
  end.

(** [while besti+bestsize < ahi and bestj+bestsize < bhi and
    a[besti+bestsize] == b[bestj+bestsize]]; [n] is [ahi - (besti +
    bestsize)], so the loop condition is false when [n] reaches 0. *)
Fixpoint extend_fwd (ahi bhi besti bestj n bestsize : nat) : nat :=
  match n with
  | O => bestsize
  | S n =>
      if decide ((besti + bestsize < ahi)%nat /\ (bestj + bestsize < bhi)%nat
                 /\ is_Some (a !! (besti + bestsize)%nat)
                 /\ a !! (besti + bestsize)%nat = b !! (bestj + bestsize)%nat)
      then extend_fwd ahi bhi besti bestj n (S bestsize)
      else bestsize
  end.

(** [find_longest_match(alo, ahi, blo, bhi)].  No element is junk, so the
    two loops that extend the match by junk do nothing. *)
Definition find_longest_match (alo ahi blo bhi : nat) : nat * nat * nat :=
  let '(besti, bestj, bestsize) := scan alo ahi blo bhi in
  let '(besti, bestj, bestsize) :=
    extend_back alo blo besti bestj bestsize in
  let bestsize :=
    extend_fwd ahi bhi besti bestj (ahi - (besti + bestsize)) bestsize in
  (besti, bestj, bestsize).

(** The total size of the blocks of [get_matching_blocks] between
    [a[alo:ahi]] and [b[blo:bhi]].  Sorting the blocks and collapsing the
    adjacent ones leave the total unchanged.  [fuel] bounds the depth of
    the queue; [S (ahi - alo)] is enough. *)
Fixpoint matches (fuel alo ahi blo bhi : nat) : nat :=
  match fuel with
  | O => 0%nat
  | S fuel =>
      let '(i, j, k) := find_longest_match alo ahi blo bhi in
      if decide (k = 0%nat) then 0%nat
      else
        (k
         + (if decide ((alo < i)%nat /\ (blo < j)%nat)
            then matches fuel alo i blo j else 0)
         + (if decide ((i + k < ahi)%nat /\ (j + k < bhi)%nat)
            then matches fuel (i + k) ahi (j + k) bhi else 0))%nat
  end.

(** The invariant of the scan.  [run_length alo blo bhi i j] is the length
    that [j2len] holds for [j] after row [i]: the length of the longest
    match without popular elements that ends with [a[i]] and [b[j]] and
    stays within the ranges. *)
Definition matchable (alo blo bhi i j : nat) : bool :=
  bool_decide (alo <= i)%nat
  && bool_decide (blo <= j < bhi)%nat
  && match a !! i, b !! j with
     | Some x, Some y => bool_decide (x = y) && negb (popular y)
     | _, _ => false
     end.

Fixpoint run_length (alo blo bhi i j : nat) : nat :=
  if matchable alo blo bhi i j then
    S (match i, j with
       | S i', S j' => run_length alo blo bhi i' j'
       | _, _ => 0%nat
       end)
  else 0%nat.

(** The length that [j2len] holds for [j - 1] when row [i] starts. *)
Definition previous_row (alo blo bhi i j : nat) : nat :=
  match i with
  | O => 0%nat
  | S i' => run_length alo blo bhi i' j
  end.

(** The order in which the scan meets the pairs [(i, j)]. *)
Definition before (p q : nat * nat) : Prop :=
  (p.1 < q.1)%nat \/ (p.1 = q.1 /\ (p.2 < q.2)%nat).

(** [best] is the first longest run among the pairs met before [pos]. *)
Definition first_longest (alo blo bhi : nat) (pos : nat * nat)
    (best : nat * nat * nat) : Prop :=
  let '(besti, bestj, bestsize) := best in
  (forall i j, (alo <= i)%nat -> before (i, j) pos ->
               (run_length alo blo bhi i j <= bestsize)%nat)
  /\ ((bestsize = 0%nat /\ besti = alo /\ bestj = blo)
      \/ exists i j,
           (alo <= i)%nat /\ before (i, j) pos
           /\ bestsize = run_length alo blo bhi i j
           /\ (0 < bestsize)%nat
           /\ besti = (i + 1 - bestsize)%nat
           /\ bestj = (j + 1 - bestsize)%nat
           /\ forall i' j', (alo <= i')%nat -> before (i', j') (i, j) ->
                            (run_length alo blo bhi i' j' < bestsize)%nat).

(** [_calculate_ratio(matches, length)] *)
Definition _calculate_ratio (matches length : nat) : Qc :=
  if decide (length = 0%nat) then 1%Qc
  else Q2Qc (Z.of_nat (2 * matches) # Pos.of_nat length).

(** [ratio()] *)
Definition ratio : Qc :=
  _calculate_ratio
    (matches (S (length a)) 0 (length a) 0 (length b))
    (length a + length b).

End SequenceMatcher.

End Difflib.

(** ** core/capability.py *)

Module Capability.

Record CapabilityManager := mkCapabilityManager {
  capabilities : list string
}.

(** The first occurrence of each element of a list. *)
Fixpoint unique (seen l : list string) : list string :=
  match l with
  | [] => []
  | x :: l =>
      if decide (x ∈ seen) then unique seen l else x :: unique (x :: seen) l
  end.

(** [CapabilityManager.__init__].  [list(set(...))] lists the distinct
    tags in an order Python does not fix; they are listed here in the order
    they are first met. *)
Definition __init__ (capability_tags : list string) : CapabilityManager :=
  mkCapabilityManager (unique [] (map lower capability_tags)).

(** [CapabilityManager.add_capability] *)
Definition add_capability (self : CapabilityManager) (tag : string)
  : CapabilityManager :=
  let tag := lower tag in
  if decide (tag ∈ capabilities self) then self
  else mkCapabilityManager (capabilities self ++ [tag]).

(** [list.remove(x)]: the first occurrence of [x] goes. *)
Fixpoint list_remove (x : string) (l : list string) : list string :=
  match l with
  | [] => []
  | y :: l => if decide (y = x) then l else y :: list_remove x l
  end.

(** [CapabilityManager.remove_capability] *)
Definition remove_capability (self : CapabilityManager) (tag : string)
  : CapabilityManager :=
  let tag := lower tag in
  if decide (tag ∈ capabilities self)
  then mkCapabilityManager (list_remove tag (capabilities self))
  else self.

(** [CapabilityManager.list_capabilities] *)
Definition list_capabilities (self : CapabilityManager) : list string :=
  capabilities self.

(** [difflib.SequenceMatcher(None, tag, requirement).ratio()] *)
Definition ratio (tag requirement : string) : Qc :=
  Difflib.ratio (String.list_ascii_of_string tag)
                (String.list_ascii_of_string requirement).

(** [CapabilityManager.match]; the [threshold] argument is not read. *)
Definition match_ (self : CapabilityManager) (requirement : string) : Qc :=
  let requirement := lower requirement in
  let best_score :=
    fold_left (fun best_score tag => max_ best_score (ratio tag requirement))
              (capabilities self) 0%Qc in
  round3 best_score.

(** [CapabilityManager.match_and_filter] *)
Definition match_and_filter (self : CapabilityManager)
    (requirement : string) (threshold : Qc) : bool :=
  bool_decide (threshold <= match_ self requirement)%Qc.

End Capability.

(** ** models/base_loader.py: the language-model collaborator *)

Module BaseLoader.

(** The model is an oracle.  [generate] is the stripped completion of a
    prompt; [extract_task] is the outcome of the extraction prompt and of
    its JSON decoding and repair; [dag_subtasks] is the decoded
    ["subtasks"] array of the decomposition prompt, [None] when decoding
    and repair both fail. *)
Record BaseModel := mkBaseModel {
  generate : string -> string;
  extract_task : string -> string * string * bool;
  dag_subtasks : string -> string -> string -> string -> option (list string)
}.

(** The loop [for index, s in enumerate(subtasks): steps[str(index + 1)] =
    [s, requirement]] of [generate_task_dag]. *)
Definition build_steps (subtasks : list string) (requirement : string)
  : gmap string step :=
  fold_left
    (fun steps '(index, s) =>
       <[ str (Z.of_nat index + 1) := (s, requirement) ]> steps)
    (enumerate subtasks) ∅.

(** [BaseModel.generate_task_dag] *)
Definition generate_task_dag (self : BaseModel)
    (task_background task_question user_input requirement : string)
  : gmap string step * bool :=
  match dag_subtasks self task_background task_question user_input
                     requirement with
  | Some subtasks => (build_steps subtasks requirement, true)
  | None => (∅, false)
  end.

End BaseLoader.

Import BaseLoader.

(** ** agents/agent.py *)

Module Agent.

(** A match score is a finite float; it is embedded as the rational it
    denotes. *)
Definition score : Type := Qc.

(** The ISEP client, as far as the coordinator uses it.  The network is
    outside the embedding: the outcome of each call is given by the
    client. *)
Record ISEPClient := mkISEPClient {
  broadcast_and_collect :
    Beacon.Beacon -> result (list (string * score));
  delegate_task : string -> Task -> result unit;
  submit_result : string -> string -> list string -> result unit
}.

Record Agent := mkAgent {
  agent_id : string;
  gpu_id : Z;
  system_prompt : string;
  base_model : option BaseModel;
  capabilities : list string;
  isep_client : option ISEPClient
}.

(** A task as the coordinator holds it: the dictionary taken from the
    task queue, or a [Task] object. *)
Inductive task_value :=
| TaskDictV (d : TaskDict)
| TaskObj (t : Task).

(** [Agent._build_task_description] *)
Definition _build_task_description (self : Agent)
    (instruction context : string) : string :=
  system_prompt self +:+ newline
  +:+ "Background information include: " +:+ dquote +:+ context
  +:+ dquote +:+ ". "
  +:+ "Based on the background information, solve the sub-task: "
  +:+ dquote +:+ instruction +:+ dquote +:+ ". "
  +:+ "Provide the final answer formatted as $\boxed{<Answer>}$. "
  +:+ "Do not provide additional explanations or code. Output: ".

(** Raised by an attribute access on [None]: an agent without a base
    model or without an ISEP client. *)
Definition no_model : exn :=
  AttributeError "'NoneType' object has no attribute".

(** [Agent._decompose_task] *)
Definition _decompose_task (self : Agent) (fresh : string)
    (task : TaskDict) : result Task :=
  let user_input := d_original_problem task in
  match base_model self with
  | None => inl no_model
  | Some m =>
      let '(task_background, task_question, success) :=
        extract_task m user_input in
      let task :=
        if success then
          let task := append_previous_result task_background task in
          let '(steps, dag_success) :=
            generate_task_dag m task_background task_question user_input
                              "math" in
          if dag_success then set_steps steps task else task
        else task in
      let task := set_subtask_id (d_subtask_id task + 1) task in
      inr (from_dict fresh task)
  end.

(** [Agent._execute_subtask] *)
Definition _execute_subtask (self : Agent) (fresh : string)
    (task : TaskDict) : result Task :=
  let current_subtask_id := str (d_subtask_id task) in
  match d_steps task !! current_subtask_id with
  | None => inl (KeyError current_subtask_id)
  | Some (instruction, _) =>
      let previous_results := d_previous_results task in
      let previous_context := String.concat " " previous_results in
      let task_description :=
        _build_task_description self instruction previous_context in
      match base_model self with
      | None => inl no_model
      | Some m =>
          let result := generate m task_description in
          let task :=
            append_previous_result
              (instruction +:+ " Answer: " +:+ result) task in
          let task :=
            if decide (d_subtask_id task = Z.of_nat (size (d_steps task)))
            then set_final_result result task else task in
          let task := set_subtask_id (d_subtask_id task + 1) task in
          inr (from_dict fresh task)
      end
  end.

(** [Agent.execute_task] *)
Definition execute_task (self : Agent) (fresh : string) (task : TaskDict)
  : result Task :=
  if decide (d_subtask_id task = 0) then _decompose_task self fresh task
  else _execute_subtask self fresh task.

(** [sorted(candidates, key=lambda x: x[1], reverse=True)]: a stable sort,
    so candidates with equal scores keep their order. *)
Fixpoint insert_desc (x : string * score) (l : list (string * score))
  : list (string * score) :=
  match l with
  | [] => [x]
  | y :: l' =>
      if decide (x.2 < y.2)%Qc then y :: insert_desc x l' else x :: y :: l'
  end.

Definition sorted_desc (candidates : list (string * score))
  : list (string * score) :=
  foldr insert_desc [] candidates.

(** Descending order of the scores. *)
Definition score_ge (x y : string * score) : Prop := (y.2 <= x.2)%Qc.

(** The index at which the loop of [_prioritize_self_execution] breaks. *)
Fixpoint find_self (agent_id : string) (best_score : score) (i : nat)
    (candidates : list (string * score)) : option (nat * (string * score)) :=
  match candidates with
  | [] => None
  | (candidate_id, score) :: rest =>
      if decide (candidate_id = agent_id ∧ score = best_score)
      then Some (i, (candidate_id, score))
      else find_self agent_id best_score (S i) rest
  end.

(** [Agent._prioritize_self_execution]; the list is updated in place. *)
Definition _prioritize_self_execution (self : Agent)
    (candidates : list (string * score)) : list (string * score) :=
  match candidates with
  | [] => candidates
  | first :: _ =>
      let best_score := first.2 in
      match find_self (agent_id self) best_score 0 candidates with
      | Some (i, c) => <[ 0%nat := c ]> (<[ i := first ]> candidates)
      | None => candidates
      end
  end.

(** [Agent._select_best_executors] *)
Definition _select_best_executors (self : Agent)
    (candidates : list (string * score)) (num_executors : Z)
  : list (string * score) :=
  let sorted_candidates := sorted_desc candidates in
  let sorted_candidates :=
    _prioritize_self_execution self sorted_candidates in
  slice_to num_executors sorted_candidates.

(** The loop [for executor_id, score in best_matches:
    self.isep_client.delegate_task(executor_id, task)]. *)
Fixpoint delegate_all (isep : ISEPClient)
    (best_matches : list (string * score)) (task : Task) : result unit :=
  match best_matches with
  | [] => inr tt
  | (executor_id, _) :: rest =>
      match delegate_task isep executor_id task with
      | inl e => inl e
      | inr _ => delegate_all isep rest task
      end
  end.

(** [Agent.assign_task].  It reads [task.subtask_id] and [task.steps] as
    attributes, which a dictionary does not have. *)
Definition assign_task (self : Agent) (fresh : string) (now : Z)
    (task : task_value) : result unit :=
  match task with
  | TaskDictV _ =>
      inl (AttributeError "'dict' object has no attribute 'subtask_id'")
  | TaskObj task =>
      match steps task !! str (subtask_id task) with
      | None => inl (KeyError (str (subtask_id task)))
      | Some (_, requirement) =>
          let beacon :=
            Beacon.__init__ fresh now
              (VStr (agent_id self)) (VStr requirement)
              (VStr (str (subtask_id task))) (VNum (Qc_of_Z 2)) in
          match isep_client self with
          | None => inl no_model
          | Some isep =>
              match broadcast_and_collect isep beacon with
              | inl e => inl e
              | inr candidates =>
                  let best_matches :=
                    _select_best_executors self candidates 1 in
                  delegate_all isep best_matches task
              end
          end
      end
  end.

End Agent.

Import Agent.

(** ** agents/user.py *)

Module User.

(** An entry of [config["neighbours"]]: a triple whose port [int()]
    accepts, or anything else (wrong arity, a port that is no integer). *)
Inductive neighbour :=
| Neighbour (node_id address : string) (port : Z)
| Malformed.

(** The configuration dictionary, as far as the constructor reads it. *)
Record Config := mkConfig {
  cfg_node_id : option string;
  cfg_network : option (string * Z);
  cfg_neighbours : option (list neighbour)
}.

(** [NetworkAdapter]: the address it listens on and its neighbor table. *)
Record NetworkAdapter := mkNetworkAdapter {
  na_node_id : string;
  host : string;
  port : Z;
  neighbors : gmap string (string * Z)
}.

Record User := mkUser {
  user_id : string;
  network : NetworkAdapter;
  isep_client : ISEPClient;
  consensus_count : Z
}.

(** The network and client state a constructor creates, in order. *)
Inductive effect :=
| StartServer (node_id host : string) (port : Z)
| CreateClient (node_id : string)
| AddNeighbor (node_id host : string) (port : Z).

Definition add_neighbor (node_id host : string) (port : Z)
    (self : NetworkAdapter) : NetworkAdapter :=
  {| na_node_id := na_node_id self;
     host := User.host self;
     port := User.port self;
     neighbors := <[ node_id := (host, port) ]> (neighbors self) |}.

(** [User._initialize_neighbors] *)
Fixpoint _initialize_neighbors (neighbors : list neighbour)
    (net : NetworkAdapter) : list effect * result NetworkAdapter :=
  match neighbors with
  | [] => ([], inr net)
  | Neighbour node_id address port :: rest =>
      let '(effects, r) :=
        _initialize_neighbors rest (add_neighbor node_id address port net) in
      (AddNeighbor node_id address port :: effects, r)
  | Malformed :: _ =>
      ([], inl (ValueError "Invalid neighbor configuration"))
  end.

Definition not_positive : exn :=
  ValueError "Consensus count must be positive".

(** [User.__init__].  [bind_ok] tells whether the server socket can be
    bound; [isep] is the client that [ISEPClient(...)] builds. *)
Definition __init__ (bind_ok : bool) (isep : ISEPClient)
    (config : Config) (consensus_count : Z) : list effect * result User :=
  if decide (consensus_count <= 0) then ([], inl not_positive)
  else
    match cfg_node_id config with
    | None => ([], inl (KeyError "node_id"))
    | Some user_id =>
        match cfg_network config with
        | None => ([], inl (KeyError "network"))
        | Some (host, port) =>
            if bind_ok then
              let network := mkNetworkAdapter user_id host port ∅ in
              let created :=
                [StartServer user_id host port; CreateClient user_id] in
              match cfg_neighbours config with
              | None => (created, inl (KeyError "neighbours"))
              | Some neighbours =>
                  let '(added, r) :=
                    _initialize_neighbors neighbours network in
                  (created ++ added,
                   match r with
                   | inl e => inl e
                   | inr network =>
                       inr (mkUser user_id network isep consensus_count)
                   end)
              end
            else ([], inl (OSError "Address already in use"))
        end
    end.

(** [User._create_initial_task] *)
Definition _create_initial_task (user_id fresh user_input : string)
  : Task :=
  Task_init fresh None None None None
    (Some 0) (Some ∅) (Some []) (Some user_input) (Some "") (Some user_id).

(** [User._discover_executors] *)
Definition _discover_executors (self : User) (fresh : string) (now : Z)
    (task : Task) : result (list (string * score)) :=
  broadcast_and_collect (isep_client self)
    (Beacon.__init__ fresh now (VStr (user_id self)) (VStr "Plan")
                     (VStr (str (subtask_id task))) (VNum (Qc_of_Z 2))).

(** [User._select_executors] *)
Definition _select_executors (candidates : list (string * score))
    (num_executors : Z) : list (string * score) :=
  slice_to num_executors (sorted_desc candidates).

(** [not user_input or not user_input.strip()] *)
Definition blank (user_input : string) : bool :=
  forallb Ascii.is_space (String.list_ascii_of_string user_input).

(** [User.initiate_task]; [fresh] and [fresh'] are the uuids of the task
    and of the discovery beacon. *)
Definition initiate_task (self : User) (fresh fresh' : string) (now : Z)
    (user_input : string) : result unit :=
  if blank user_input then inl (ValueError "User input cannot be empty")
  else
    let task := _create_initial_task (user_id self) fresh user_input in
    match _discover_executors self fresh' now task with
    | inl e => inl e
    | inr executor_candidates =>
        match _select_executors executor_candidates
                                (consensus_count self) with
        | [] => inl (RuntimeError "No suitable executors found for the task")
        | selected_executors =>
            delegate_all (isep_client self) selected_executors task
        end
    end.

End User.

(** ** user_register.py *)

Module UserRunner.

(** A [TaskResult] as it arrives on the result queue. *)
Record TaskResult := mkTaskResult {
  target_id : string;
  executer_id : string;
  result_ : string;
  previous_results : list string
}.

Record UserRunner := mkUserRunner {
  user : User.User;
  cot_num : Z;
  running : bool;
  answers : list string;
  current_answers : list string;
  full_answers : list (list string);
  result_event : bool;
  final_result : string
}.

Definition too_few : exn :=
  ValueError "Chain of Thought number must be at least 1".

(** [UserRunner.__init__]; [load_config_from_file] is given. *)
Definition __init__ (load_config_from_file : string -> User.Config)
    (bind_ok : bool) (isep : ISEPClient)
    (config_path : string) (cot_num : Z)
  : list User.effect * result UserRunner :=
  if decide (cot_num < 1) then ([], inl too_few)
  else
    let config := load_config_from_file config_path in
    let '(effects, r) := User.__init__ bind_ok isep config cot_num in
    (effects,
     match r with
     | inl e => inl e
     | inr user => inr (mkUserRunner user cot_num false [] [] [] false "")
     end).

(** [Counter(l)]: the distinct elements in the order they are first met,
    each with its number of occurrences. *)
Fixpoint counter_add (elem : string) (count : list (string * nat))
  : list (string * nat) :=
  match count with
  | [] => [(elem, 1%nat)]
  | (key, n) :: rest =>
      if decide (key = elem) then (key, S n) :: rest
      else (key, n) :: counter_add elem rest
  end.

Definition Counter (l : list string) : list (string * nat) :=
  fold_left (fun count elem => counter_add elem count) l [].

(** [max(items, key=itemgetter(1))]: the first item of greatest count. *)
Fixpoint max_by_count (best : string * nat) (items : list (string * nat))
  : string * nat :=
  match items with
  | [] => best
  | item :: rest =>
      max_by_count (if decide (best.2 < item.2)%nat then item else best)
                   rest
  end.

(** [count.most_common(1)] *)
Definition most_common_1 (count : list (string * nat))
  : list (string * nat) :=
  match count with
  | [] => []
  | item :: rest => [max_by_count item rest]
  end.

(** [UserRunner._vote_results] *)
Definition _vote_results (self : UserRunner) : result string :=
  match current_answers self with
  | [] => inr "[NO_ANSWERS]"
  | _ =>
      let count := Counter (current_answers self) in
      match most_common_1 count with
      | most_common :: _ => inr most_common.1
      | [] => inl (IndexError "list index out of range")
      end
  end.

(** The body of the loop of [_listen_results]; [received] is the outcome
    of [receive_result(timeout=1)].  An exception is printed and the loop
    goes on with what was updated before it. *)
Definition _listen_results_body (self : UserRunner)
    (received : option (string * string * TaskResult)) : UserRunner :=
  match received with
  | None => self
  | Some (sender_id, msg_type, result) =>
      if decide (msg_type = "task_result") then
        let answer := result_ result in
        let self :=
          mkUserRunner (user self) (cot_num self) (running self)
            (answers self) (current_answers self ++ [answer])
            (full_answers self ++ [previous_results result])
            (result_event self) (final_result self) in
        if decide (cot_num self <= Z.of_nat (length (current_answers self)))
        then
          match _vote_results self with
          | inl _ => self
          | inr final_result =>
              mkUserRunner (user self) (cot_num self) (running self)
                (answers self ++ [final_result]) (current_answers self)
                (full_answers self) true final_result
          end
        else self
      else self
  end.

(** [_listen_results] over the results that arrive. *)
Definition _listen_results (self : UserRunner)
    (arrivals : list (option (string * string * TaskResult)))
  : UserRunner :=
  fold_left _listen_results_body arrivals self.

(** The number of votes of an answer. *)
Definition occurrences (answer : string) (l : list string) : nat :=
  length (filter (eq answer) l).

(** The distinct answers, in the order they are first received. *)
Definition firsts (l : list string) : list string :=
  fold_left (fun seen x => if decide (x ∈ seen) then seen else seen ++ [x])
            l [].

(** The message a result arrives in. *)
Definition task_result_message (arrival : string * TaskResult)
  : option (string * string * TaskResult) :=
  Some (arrival.1, "task_result", arrival.2).

(** A client whose calls all succeed and find no candidate, a user and a
    runner that waits for [cot_num] answers. *)
Definition quiet_client : ISEPClient :=
  mkISEPClient (fun _ => inr []) (fun _ _ => inr tt) (fun _ _ _ => inr tt).

Definition fresh_runner (cot_num : Z) : UserRunner :=
  mkUserRunner
    (User.mkUser "user-001"
       (User.mkNetworkAdapter "user-001" "127.0.0.1" 8000 ∅)
       quiet_client cot_num)
    cot_num true [] [] [] false "".

Definition answer_from (sender answer : string) : string * TaskResult :=
  (sender, mkTaskResult "user-001" sender answer []).

(** A line of the JSONL output. *)
Record ResultItem := mkResultItem {
  unique_id : string;
  final_answer : string;
  item_full_answers : list (list string)
}.

(** An element of the batch: the ['problem'] and ['unique_id'] fields. *)
Record TaskItem := mkTaskItem {
  problem : string;
  item_unique_id : string
}.

(** What the batch driver does not decide: the uuids and the clock, what
    the listener thread has published when [result_event.wait()] returns
    (the vote or ["[TIMEOUT]"], and the traces), and whether a write to the
    output file succeeds. *)
Record World := mkWorld {
  fresh : string;
  fresh' : string;
  now : Z;
  published : string -> string * list (list string);
  write_ok : list ResultItem -> bool
}.

(** [str(e)] *)
Definition exn_str (e : exn) : string :=
  match e with
  | KeyError k => "'" +:+ k +:+ "'"
  | AttributeError m | ValueError m | TypeError m | RuntimeError m
  | IOError m | OSError m | IndexError m => m
  end.

(** [UserRunner.process_task] *)
Definition process_task (w : World) (self : UserRunner)
    (task_description : string)
  : result (string * list (list string)) :=
  match User.initiate_task (user self) (fresh w) (fresh' w) (now w)
                           task_description with
  | inl e => inl e
  | inr _ => inr (published w task_description)
  end.

(** [UserRunner._save_batch_results]: the lines are appended, or
    [IOError] is raised. *)
Definition _save_batch_results (w : World) (results : list ResultItem)
    (file : list ResultItem) : result (list ResultItem) :=
  if write_ok w results then inr (file ++ results)
  else inl (IOError "write failed").

(** The local variables of [process_task_batch], the output file, and the
    arguments of every call of [_save_batch_results]. *)
Record Batch := mkBatch {
  tasks_to_save : list ResultItem;
  processed_count : Z;
  file : list ResultItem;
  save_calls : list (list ResultItem)
}.

(** One pass of the [for] loop, after the [break] test. *)
Definition batch_step (w : World) (self : UserRunner) (st : Batch)
    (task_item : TaskItem) : Batch :=
  let task_description := problem task_item in
  let on_error (st : Batch) (e : exn) : Batch :=
    let error_result :=
      mkResultItem (item_unique_id task_item)
                   ("[ERROR] " +:+ exn_str e) [] in
    mkBatch (tasks_to_save st ++ [error_result]) (processed_count st + 1)
            (file st) (save_calls st) in
  match process_task w self task_description with
  | inl e => on_error st e
  | inr (final_answer, full_answers) =>
      let result_item :=
        mkResultItem (item_unique_id task_item) final_answer full_answers in
      let st :=
        mkBatch (tasks_to_save st ++ [result_item]) (processed_count st + 1)
                (file st) (save_calls st) in
      if decide (processed_count st mod 5 = 0) then
        let st :=
          mkBatch (tasks_to_save st) (processed_count st) (file st)
                  (save_calls st ++ [tasks_to_save st]) in
        match _save_batch_results w (tasks_to_save st) (file st) with
        | inl e => on_error st e
        | inr file =>
            mkBatch [] (processed_count st) file (save_calls st)
        end
      else st
  end.

(** The [for] loop with its [break]. *)
Fixpoint batch_loop (w : World) (self : UserRunner) (max_process : Z)
    (st : Batch) (tasks : list TaskItem) : Batch :=
  match tasks with
  | [] => st
  | task_item :: rest =>
      if decide (max_process <= processed_count st) then st
      else batch_loop w self max_process (batch_step w self st task_item)
                      rest
  end.

(** [UserRunner.process_task_batch]: the final state, or the [IOError] of
    the last save. *)
Definition process_task_batch (w : World) (self : UserRunner)
    (tasks : list TaskItem) (output : list ResultItem)
    (max_tasks : option Z) : result Batch :=
  let max_process := or_int max_tasks (Z.of_nat (length tasks)) in
  let st := batch_loop w self max_process (mkBatch [] 0 output []) tasks in
  match tasks_to_save st with
  | [] => inr st
  | _ =>
      let st :=
        mkBatch (tasks_to_save st) (processed_count st) (file st)
                (save_calls st ++ [tasks_to_save st]) in
      match _save_batch_results w (tasks_to_save st) (file st) with
      | inl e => inl e
      | inr file =>
          inr (mkBatch (tasks_to_save st) (processed_count st) file
                       (save_calls st))
      end
  end.

(** A client that always finds one executor, a runner that waits for one
    answer, and a world in which every task that is delegated is answered
    ["42"] and every write succeeds. *)
Definition helpful_client : ISEPClient :=
  mkISEPClient (fun _ => inr [("agent-001", 1%Qc)]) (fun _ _ => inr tt)
               (fun _ _ _ => inr tt).

Definition batch_runner : UserRunner :=
  mkUserRunner
    (User.mkUser "user-001"
       (User.mkNetworkAdapter "user-001" "127.0.0.1" 8000 ∅)
       helpful_client 1)
    1 true [] [] [] false "".

Definition batch_world : World :=
  mkWorld "uuid-1" "uuid-2" 0 (fun _ => ("42", [])) (fun _ => true).

(** Twelve problems. *)
Definition twelve_problems : list TaskItem :=
  (fun n : nat => mkTaskItem "What is 6 times 7?" (pretty n)) <$> seq 1 12.

(** Twelve problems, the text of the fifth being empty. *)
Definition twelve_problems_fifth_empty : list TaskItem :=
  (fun n : nat =>
     mkTaskItem (if decide (n = 5%nat) then "" else "What is 6 times 7?")
                (pretty n))
    <$> seq 1 12.

End UserRunner.

(** ** agent_register.py *)

Module AgentRunner.

Record AgentRunner := mkAgentRunner {
  agent : Agent;
  running : bool;
  beacon_enabled : bool;
  first_task_received : bool
}.

(** What one pass of the task loop meets: the outcome of
    [receive_task(timeout=1)] ([None] is the [(None, None, None)] sentinel),
    the uuids drawn for the task and for the beacon, the clock, and whether
    the main thread cleared [running] while the pass was under way. *)
Record Env := mkEnv {
  received : result (option (string * string * TaskDict));
  fresh : string;
  fresh' : string;
  now : Z;
  stopped : bool
}.

(** The calls a pass makes, in order. *)
Inductive event :=
| ExecuteBegin (task : TaskDict)
| ExecuteEnd (outcome : result Task)
| Submit (user_id final_result : string) (previous_results : list string)
| Assign (task : task_value).

Definition set_gate (busy : bool) (self : AgentRunner) : AgentRunner :=
  {| agent := agent self;
     running := running self;
     beacon_enabled := negb busy;
     first_task_received := busy |}.

Definition set_running (v : bool) (self : AgentRunner) : AgentRunner :=
  {| agent := agent self;
     running := v;
     beacon_enabled := beacon_enabled self;
     first_task_received := first_task_received self |}.

(** The [running] flag as the pass leaves it. *)
Definition observe_stop (env : Env) (self : AgentRunner) : AgentRunner :=
  if stopped env then set_running false self else self.

(** The handler [except Exception as e: if self.running: ...]. *)
Definition on_error (env : Env) (self : AgentRunner) : AgentRunner :=
  let self := observe_stop env self in
  if running self then set_gate false self else self.

(** [self.agent.isep_client.submit_result(...)] *)
Definition submit (self : AgentRunner)
    (user_id final_result : string) (previous_results : list string)
  : result unit :=
  match isep_client (agent self) with
  | None => inl no_model
  | Some isep => submit_result isep user_id final_result previous_results
  end.

(** The [try] block of the loop of [_listen_tasks]: the runner as the
    block leaves it, the calls it made, and the exception that ended it, if
    any. *)
Definition _listen_tasks_try (self : AgentRunner) (env : Env)
  : AgentRunner * list event * option exn :=
  match received env with
  | inl e => (self, [], Some e)
  | inr None => (self, [], None)
  | inr (Some (sender_id, msg_type, task)) =>
      if decide (msg_type = "task") then
        if negb (first_task_received self) then
          let self := set_gate true self in
          match execute_task (agent self) (fresh env) task with
          | inl e => (self, [ExecuteBegin task; ExecuteEnd (inl e)], Some e)
          | inr new_task =>
              let trace := [ExecuteBegin task; ExecuteEnd (inr new_task)] in
              if decide (subtask_id new_task
                         = Z.of_nat (size (steps new_task)) + 1) then
                let final_result := final_result new_task in
                let previous_results := previous_results new_task in
                let trace :=
                  trace ++ [Submit (user_id new_task) final_result
                                   previous_results] in
                match submit self (user_id new_task) final_result
                             previous_results with
                | inl e => (self, trace, Some e)
                | inr _ => (set_gate false self, trace, None)
                end
              else
                let self := set_gate false self in
                let trace := trace ++ [Assign (TaskObj new_task)] in
                match assign_task (agent self) (fresh' env) (now env)
                                  (TaskObj new_task) with
                | inl e => (self, trace, Some e)
                | inr _ => (self, trace, None)
                end
          end
        else
          let trace := [Assign (TaskDictV task)] in
          match assign_task (agent self) (fresh' env) (now env)
                            (TaskDictV task) with
          | inl e => (self, trace, Some e)
          | inr _ => (self, trace, None)
          end
      else (self, [], None)
  end.

(** The body of the [while self.running] loop of [_listen_tasks]: the
    [try] block, then the handler when it raised. *)
Definition _listen_tasks_body (self : AgentRunner) (env : Env)
  : AgentRunner * list event :=
  let '(self, trace, raised) := _listen_tasks_try self env in
  match raised with
  | Some _ => (on_error env self, trace)
  | None => (observe_stop env self, trace)
  end.

(** [_listen_tasks]: one pass per element of [envs] while [running]. *)
Fixpoint _listen_tasks (envs : list Env) (self : AgentRunner)
  : AgentRunner * list event :=
  match envs with
  | [] => (self, [])
  | env :: envs =>
      if running self then
        let '(self, trace) := _listen_tasks_body self env in
        let '(self, trace') := _listen_tasks envs self in
        (self, trace ++ trace')
      else (self, [])
  end.

(** The number of local executions under way after a trace. *)
Definition active (trace : list event) : Z :=
  fold_left
    (fun n ev =>
       match ev with
       | ExecuteBegin _ => n + 1
       | ExecuteEnd _ => n - 1
       | _ => n
       end)
    trace 0.

(** A trace in which local executions never overlap. *)
Definition exclusive (trace : list event) : Prop :=
  forall p, p `prefix_of` trace -> 0 <= active p <= 1.

(** An agent without a base model, idle and running; a pass that
    receives the dictionary of a fresh task, without and with a stop
    command arriving meanwhile. *)
Definition idle_runner : AgentRunner :=
  mkAgentRunner (mkAgent "agent-001" 0 "" None [] None) true true false.

Definition fresh_task_dict : TaskDict :=
  to_dict (User._create_initial_task "user-001" "uuid-0" "What is 6 times 7?").

Definition pass (stopped : bool) : Env :=
  mkEnv (inr (Some ("user-001", "task", fresh_task_dict)))
        "uuid-1" "uuid-2" 0 stopped.

End AgentRunner.

(** ** The life of a task across the nodes that advance it *)

Module Lifecycle.

(** A node that takes a turn on the task: the agent and the uuid its
    [Task.from_dict] draws. *)
Definition node : Type := Agent * string.

(** The tasks a chain of nodes produces: every node applies [execute_task]
    to the dictionary form of the task the node before it returned; the
    chain stops at the first exception. *)
Fixpoint transitions (nodes : list node) (task : TaskDict)
  : list (result Task) :=
  match nodes with
  | [] => []
  | (agent, fresh) :: rest =>
      match execute_task agent fresh task with
      | inl e => [inl e]
      | inr new_task => inr new_task :: transitions rest (to_dict new_task)
      end
  end.

(** The tasks that come out of [User._create_initial_task] by a chain of
    [execute_task] calls. *)
Inductive reachable (user_id user_input : string) : Task -> Prop :=
| reach_initial fresh :
    reachable user_id user_input
      (User._create_initial_task user_id fresh user_input)
| reach_step task agent fresh new_task :
    reachable user_id user_input task ->
    execute_task agent fresh (to_dict task) = inr new_task ->
    reachable user_id user_input new_task.

(** The result the generator of [agent] gives for [instruction] after
    [previous_results]. *)
Definition generated (agent : Agent) (model : BaseModel)
    (instruction : string) (previous_results : list string) : string :=
  generate model
    (_build_task_description agent instruction
       (String.concat " " previous_results)).

(** "Execute step k": what a node does to a task whose counter is at a
    step: the generator answers the instruction of the step after the
    previous results, the answer is appended to them, it becomes the final
    result when the step is the last one, and the counter moves on. *)
Definition executed (n : node) (before after : Task) : Prop :=
  exists model instruction requirement,
    base_model n.1 = Some model
    /\ steps before !! str (subtask_id before)
       = Some (instruction, requirement)
    /\ steps after = steps before
    /\ subtask_id after = subtask_id before + 1
    /\ previous_results after
       = previous_results before
         ++ [instruction +:+ " Answer: "
             +:+ generated n.1 model instruction (previous_results before)]
    /\ final_result after
       = if decide (subtask_id before = Z.of_nat (size (steps before)))
         then generated n.1 model instruction (previous_results before)
         else final_result before.

(** The shape of the tasks of a life: the steps are those of a
    decomposition, the counter is within them or one past them, and the
    final result is set only by the last step. *)
Definition well_formed (task : Task) : Prop :=
  exists subtasks : list string,
    steps task = build_steps subtasks "math"
    /\ 0 <= subtask_id task <= Z.of_nat (length subtasks) + 1
    /\ (subtask_id task = 0 -> subtasks = [])
    /\ (subtask_id task <= Z.of_nat (length subtasks) ->
        final_result task = "")
    /\ (subtasks = [] -> final_result task = "").

(** Concrete collaborators and agents. *)
Definition model_ok : BaseModel :=
  mkBaseModel (fun _ => "42") (fun _ => ("background", "question", true))
              (fun _ _ _ _ => Some ["Q1: first"; "Q2: second"]).

(** The decomposer reports a failure. *)
Definition model_failing : BaseModel :=
  mkBaseModel (fun _ => "42") (fun _ => ("", "", false))
              (fun _ _ _ _ => None).

(** The decomposition succeeds with no subtask. *)
Definition model_no_subtask : BaseModel :=
  mkBaseModel (fun _ => "42") (fun _ => ("background", "question", true))
              (fun _ _ _ _ => Some []).

(** The generator returns the empty string. *)
Definition model_silent : BaseModel :=
  mkBaseModel (fun _ => "") (fun _ => ("background", "question", true))
              (fun _ _ _ _ => Some ["Q1: only"]).

Definition agent_with (model : BaseModel) : Agent :=
  mkAgent "agent-001" 0 "You are a helpful AI assistant." (Some model)
          ["math"] None.

Definition initial_task : Task :=
  User._create_initial_task "user-001" "uuid-0" "What is 6 times 7?".

End Lifecycle.

(** ** core/capability.py: the shape the methods keep *)

Module CapabilityShape.

Import Capability.

(** The tag list of a manager that was built by the constructor and
    changed by [add_capability] and [remove_capability] only: no tag twice,
    every tag in lower case. *)
Definition canonical (self : CapabilityManager) : Prop :=
  NoDup (capabilities self)
  /\ Forall (fun tag => lower tag = tag) (capabilities self).

End CapabilityShape.

(** ** core/memory.py *)

Module Memory.

(** [collections.deque(maxlen=...)]: [None] is no bound; a negative bound
    is refused by the constructor. *)
Definition deque_init (maxlen : option Z) : result (option nat) :=
  match maxlen with
  | None => inr None
  | Some n =>
      if decide (n < 0) then inl (ValueError "maxlen must be non-negative")
      else inr (Some (Z.to_nat n))
  end.

(** [d.append(x)]: the element is added on the right and, when the bound
    is exceeded, one element is dropped on the left. *)
Definition deque_append {A} (maxlen : option nat) (x : A) (d : list A)
  : list A :=
  let d := d ++ [x] in
  match maxlen with
  | Some n => if decide (n < length d)%nat then drop 1 d else d
  | None => d
  end.

(** [l[-n:]] *)
Definition slice_last {A} (n : Z) (l : list A) : list A :=
  if decide (0 < n) then drop (length l - Z.to_nat n) l
  else drop (Z.to_nat (- n)) l.

(** The value of [neighbor_data[node_id]]. *)
Record Meta := mkMeta {
  meta_capabilities : list string;
  last_seen : Z;
  meta_score : Qc
}.

(** [d[key] = v] on a dictionary that keeps the order of insertion. *)
Fixpoint dict_set {V} (key : string) (v : V) (d : list (string * V))
  : list (string * V) :=
  match d with
  | [] => [(key, v)]
  | (k, w) :: rest =>
      if decide (k = key) then (k, v) :: rest
      else (k, w) :: dict_set key v rest
  end.

Fixpoint dict_get {V} (key : string) (d : list (string * V)) : option V :=
  match d with
  | [] => None
  | (k, w) :: rest => if decide (k = key) then Some w else dict_get key rest
  end.

(** [1.0 if success else 0.0] *)
Definition mark (success : bool) : Qc := if success then 1%Qc else 0%Qc.

Section LocalMemory.

(** The values cached entries hold, with the integers and strings among
    them. *)
Context {V : Type} (of_int : Z -> V) (of_str : string -> V).

Record LocalMemory := mkLocalMemory {
  task_limit : option nat;
  task_cache : list (gmap string V);
  neighbor_data : list (string * Meta);
  neighbor_scores : gmap string (list Qc)
}.

(** [LocalMemory.__init__] *)
Definition __init__ (task_limit : option Z) : result LocalMemory :=
  match deque_init task_limit with
  | inl e => inl e
  | inr maxlen => inr (mkLocalMemory maxlen [] [] ∅)
  end.

(** [LocalMemory.store_result]; [now] is [int(time.time())].  In
    [{"timestamp": ..., **result}] the keys of [result] win. *)
Definition store_result (now : Z) (result : gmap string V)
    (self : LocalMemory) : LocalMemory :=
  mkLocalMemory (task_limit self)
    (deque_append (task_limit self)
                  (result ∪ {[ "timestamp" := of_int now ]})
                  (task_cache self))
    (neighbor_data self) (neighbor_scores self).

(** [LocalMemory.cache_task] *)
Definition cache_task (task_id : string) (task_data : gmap string V)
    (self : LocalMemory) : LocalMemory :=
  mkLocalMemory (task_limit self)
    (deque_append (task_limit self)
                  (task_data ∪ {[ "task_id" := of_str task_id ]})
                  (task_cache self))
    (neighbor_data self) (neighbor_scores self).

(** [LocalMemory.get_recent_tasks] *)
Definition get_recent_tasks (n : Z) (self : LocalMemory)
  : list (gmap string V) :=
  slice_last n (task_cache self).

(** [LocalMemory.update_neighbor]; [now] is [int(time.time())].  The
    history of a node is a [deque(maxlen=20)]. *)
Definition update_neighbor (now : Z) (node_id : string)
    (capabilities : list string) (success : bool) (self : LocalMemory)
  : LocalMemory :=
  let neighbor_data :=
    match dict_get node_id (neighbor_data self) with
    | None =>
        dict_set node_id (mkMeta capabilities now (Q2Qc (1 # 2)))
                 (neighbor_data self)
    | Some meta =>
        dict_set node_id (mkMeta capabilities now (meta_score meta))
                 (neighbor_data self)
    end in
  let history := default [] (neighbor_scores self !! node_id) in
  mkLocalMemory (task_limit self) (task_cache self) neighbor_data
    (<[ node_id :=
          deque_append (Some 20%nat) (mark success) history ]>
       (neighbor_scores self)).

(** [LocalMemory.get_neighbors] *)
Definition get_neighbors (self : LocalMemory) : list string :=
  (neighbor_data self).*1.

(** [sum(scores)] *)
Definition sum_ (scores : list Qc) : Qc := foldr Qcplus 0%Qc scores.

(** [LocalMemory.get_neighbor_score].  Reading [neighbor_scores[node_id]]
    creates the empty history of a node that has none. *)
Definition get_neighbor_score (node_id : string) (self : LocalMemory)
  : Qc * LocalMemory :=
  let scores := default [] (neighbor_scores self !! node_id) in
  let self :=
    mkLocalMemory (task_limit self) (task_cache self) (neighbor_data self)
                  (<[ node_id := scores ]> (neighbor_scores self)) in
  (match scores with
   | [] => Q2Qc (1 # 2)
   | _ => round3 (sum_ scores / Q2Qc (Z.of_nat (length scores) # 1))%Qc
   end, self).

(** The calls that change a memory. *)
Inductive call :=
| StoreResult (now : Z) (result : gmap string V)
| CacheTask (task_id : string) (task_data : gmap string V)
| UpdateNeighbor (now : Z) (node_id : string) (capabilities : list string)
                 (success : bool)
| GetNeighborScore (node_id : string).

Definition apply_call (self : LocalMemory) (c : call) : LocalMemory :=
  match c with
  | StoreResult now result => store_result now result self
  | CacheTask task_id task_data => cache_task task_id task_data self
  | UpdateNeighbor now node_id capabilities success =>
      update_neighbor now node_id capabilities success self
  | GetNeighborScore node_id => (get_neighbor_score node_id self).2
  end.

(** A memory after a sequence of calls. *)
Definition run (calls : list call) (self : LocalMemory) : LocalMemory :=
  fold_left apply_call calls self.

(** The entry a call appends to the cache, if it appends one. *)
Definition cached (c : call) : option (gmap string V) :=
  match c with
  | StoreResult now result => Some (result ∪ {[ "timestamp" := of_int now ]})
  | CacheTask task_id task_data =>
      Some (task_data ∪ {[ "task_id" := of_str task_id ]})
  | _ => None
  end.

(** The outcome a call records for a node, if it records one. *)
Definition outcome (node_id : string) (c : call) : option bool :=
  match c with
  | UpdateNeighbor _ n _ success =>
      if decide (n = node_id) then Some success else None
  | _ => None
  end.

(** The time and the capabilities a call records for a node. *)
Definition updated (node_id : string) (c : call)
  : option (Z * list string) :=
  match c with
  | UpdateNeighbor now n capabilities _ =>
      if decide (n = node_id) then Some (now, capabilities) else None
  | _ => None
  end.

(** The node a call updates. *)
Definition updated_node (c : call) : option string :=
  match c with
  | UpdateNeighbor _ n _ _ => Some n
  | _ => None
  end.

End LocalMemory.

(** The last [n] elements. *)
Definition last_n {A} (n : nat) (l : list A) : list A :=
  drop (length l - n) l.

End Memory.

(** ** protocol/task_contract.py: [TaskResult] *)

Module TaskResultContract.

Section TaskResult.

(** The objects a result holds; the constructor does not inspect them. *)
Context {V : Type}.

Record TaskResult := mkTaskResult {
  target_id : V;
  executer_id : V;
  result_ : V;
  previous_results : V
}.

(** [TaskResult.to_dict] *)
Definition to_dict (self : TaskResult) : gmap string V :=
  <[ "target_id" := target_id self ]>
  (<[ "executer_id" := executer_id self ]>
  (<[ "result" := result_ self ]>
  (<[ "previous_results" := previous_results self ]> ∅))).

(** [data[key]] *)
Definition getitem (data : gmap string V) (key : string) : result V :=
  match data !! key with
  | Some v => inr v
  | None => inl (KeyError key)
  end.

(** [TaskResult.from_dict]: the four keys are read in the order of the
    keyword arguments. *)
Definition from_dict (data : gmap string V) : result TaskResult :=
  match getitem data "target_id" with
  | inl e => inl e
  | inr target_id =>
      match getitem data "executer_id" with
      | inl e => inl e
      | inr executer_id =>
          match getitem data "result" with
          | inl e => inl e
          | inr result =>
              match getitem data "previous_results" with
              | inl e => inl e
              | inr previous_results =>
                  inr (mkTaskResult target_id executer_id result
                                    previous_results)
              end
          end
      end
  end.

End TaskResult.

End TaskResultContract.

(** ** infra/network_adapter.py *)

Module Network.

(** *** The length-prefixed frames of [send] and [_receive_loop] *)

(** [n.to_bytes(4, 'big')]; [None] stands for [OverflowError]. *)
Definition to_bytes4 (n : N) : option (list Byte.byte) :=
  if decide (n < 2 ^ 32)%N then
    Some ((fun k : N =>
             default Byte.x00 (Byte.of_N ((n / 256 ^ k) mod 256)%N))
            <$> [3; 2; 1; 0]%N)
  else None.

(** [int.from_bytes(b, 'big')] *)
Definition from_bytes (b : list Byte.byte) : N :=
  fold_left (fun n byte => (n * 256 + Byte.to_N byte)%N) b 0%N.

(** What [s.sendall(len(msg_bytes).to_bytes(4, 'big'))] and
    [s.sendall(msg_bytes)] put on the connection. *)
Definition frame (msg_bytes : list Byte.byte) : option (list Byte.byte) :=
  match to_bytes4 (N.of_nat (length msg_bytes)) with
  | Some prefix => Some (prefix ++ msg_bytes)
  | None => None
  end.

(** A connection, seen from the reader: the bytes the peer has written,
    and how many bytes the transport hands over at each call of [recv]
    (no entry left, or [0]: the peer has closed). *)
Record Socket := mkSocket {
  stream : list Byte.byte;
  chunks : list nat
}.

(** [conn.recv(n)] *)
Definition recv (n : nat) (s : Socket) : list Byte.byte * Socket :=
  match chunks s with
  | [] => ([], s)
  | c :: cs =>
      let k := (n `min` c)%nat in
      (take k (stream s), mkSocket (drop k (stream s)) cs)
  end.

(** The loop [while len(msg_bytes) < msg_length] with its [break];
    every pass that goes on adds a byte, so [msg_length] passes are
    enough. *)
Fixpoint read_body (fuel msg_length : nat) (msg_bytes : list Byte.byte)
    (s : Socket) : list Byte.byte * Socket :=
  match fuel with
  | O => (msg_bytes, s)
  | S fuel =>
      if decide (length msg_bytes < msg_length)%nat then
        let '(chunk, s') :=
          recv (4096 `min` (msg_length - length msg_bytes))%nat s in
        match chunk with
        | [] => (msg_bytes, s')
        | _ => read_body fuel msg_length (msg_bytes ++ chunk) s'
        end
      else (msg_bytes, s)
  end.

(** One message read by [_receive_loop] (and one response read by
    [_receive_response]): the bytes to decode, or [None] when the pass is
    given up. *)
Definition receive_frame (s : Socket)
  : option (list Byte.byte) * Socket :=
  let '(len_bytes, s) := recv 4 s in
  match len_bytes with
  | [] => (None, s)
  | _ =>
      let msg_length := N.to_nat (from_bytes len_bytes) in
      let '(msg_bytes, s) := read_body msg_length msg_length [] s in
      if decide (length msg_bytes = msg_length) then (Some msg_bytes, s)
      else (None, s)
  end.

(** *** Neighbors and dispatch *)

Record NetworkAdapter := mkNetworkAdapter {
  node_id : string;
  host : string;
  port : Z;
  neighbors : list (string * (string * Z))
}.

(** [NetworkAdapter.add_neighbor] *)
Definition add_neighbor (node_id host : string) (port : Z)
    (self : NetworkAdapter) : NetworkAdapter :=
  mkNetworkAdapter (Network.node_id self) (Network.host self)
    (Network.port self)
    (Memory.dict_set node_id (host, port) (neighbors self)).

Section Messages.

(** [D]: the objects that are sent; [P]: their dictionary form, which is
    also what arrives. *)
Context {D P : Type} (to_dict : D -> P).

(** A connection that [send] opens, with the message it writes. *)
Record Attempt := mkAttempt {
  to_host : string;
  to_port : Z;
  sender_id : string;
  target_id : string;
  msg_type : string;
  data : P
}.

(** [NetworkAdapter.send]; [link] tells whether the connection is made
    and acknowledged with ["status": "success"]. *)
Definition send (link : Attempt -> bool) (self : NetworkAdapter)
    (target_id msg_type : string) (data : D) : bool * list Attempt :=
  match Memory.dict_get target_id (neighbors self) with
  | None => (false, [])
  | Some (host, port) =>
      let attempt :=
        mkAttempt host port (node_id self) target_id msg_type
                  (to_dict data) in
      (link attempt, [attempt])
  end.

(** [NetworkAdapter.broadcast] *)
Definition broadcast (link : Attempt -> bool) (self : NetworkAdapter)
    (msg_type : string) (data : D) (exclude : option (list string))
  : list Attempt :=
  let exclude := or_list exclude [] in
  flat_map
    (fun neighbor_id =>
       if decide (neighbor_id ∈ exclude) then []
       else (send link self neighbor_id msg_type data).2)
    (neighbors self).*1.

(** A decoded message, as [_handle_message] reads it:
    [message.get("msg_type")], [message.get("sender_id")] and
    [message.get("data")], [None] for a missing or null [data]. *)
Record Received := mkReceived {
  r_msg_type : value;
  r_sender_id : value;
  r_data : option P
}.

(** [NetworkAdapter._handle_message] on the state [S] the handlers
    change; an exception of the handler leaves through it. *)
Definition _handle_message {S}
    (handlers : gmap string (value -> P -> S -> result S))
    (message : Received) (s : S) : result S :=
  match r_data message with
  | Some data =>
      if truthy (r_msg_type message) && truthy (r_sender_id message) then
        match r_msg_type message with
        | VStr msg_type =>
            match handlers !! msg_type with
            | Some handler => handler (r_sender_id message) data s
            | None => inr s
            end
        | _ => inr s
        end
      else inr s
  | None => inr s
  end.

(** One pass of [_receive_loop] on a decoded message: an exception is
    printed and the loop goes on. *)
Definition receive {S}
    (handlers : gmap string (value -> P -> S -> result S))
    (s : S) (message : Received) : S :=
  match _handle_message handlers message s with
  | inr s' => s'
  | inl _ => s
  end.

End Messages.

End Network.

(** ** infra/ISEP.py *)

Module ISEP.

Global Instance value_countable : Countable value :=
  inj_countable'
    (fun v => match v with
              | VNone => None
              | VStr s => Some (inl s)
              | VNum q => Some (inr q)
              end)
    (fun x => match x with
              | None => VNone
              | Some (inl s) => VStr s
              | Some (inr q) => VNum q
              end)
    (fun v => match v with VNone | VStr _ | VNum _ => eq_refl end).

Section Client.

(** The payload of a message and [payload[key]]. *)
Context {P : Type} (getitem : P -> string -> result value).

(** The client state that changes: the responses collected for each task
    id and the three queues. *)
Record ISEPClient := mkISEPClient {
  node_id : string;
  pending_tasks : gmap value (list P);
  beacon_queue : list (value * string * P);
  subtask_queue : list (value * string * P);
  task_result_queue : list (value * string * P)
}.

(** [ISEPClient.__init__] *)
Definition __init__ (node_id : string) : ISEPClient :=
  mkISEPClient node_id ∅ [] [] [].

(** [ISEPClient._handle_beacon] *)
Definition _handle_beacon (sender_id : value) (beacon : P)
    (self : ISEPClient) : result ISEPClient :=
  inr (mkISEPClient (node_id self) (pending_tasks self)
         (beacon_queue self ++ [(sender_id, "beacon", beacon)])
         (subtask_queue self) (task_result_queue self)).

(** [ISEPClient._handle_beacon_response] *)
Definition _handle_beacon_response (sender_id : value) (response : P)
    (self : ISEPClient) : result ISEPClient :=
  match getitem response "task_id" with
  | inl e => inl e
  | inr task_id =>
      match pending_tasks self !! task_id with
      | Some responses =>
          inr (mkISEPClient (node_id self)
                 (<[ task_id := responses ++ [response] ]>
                    (pending_tasks self))
                 (beacon_queue self) (subtask_queue self)
                 (task_result_queue self))
      | None => inr self
      end
  end.

(** [ISEPClient._handle_task] *)
Definition _handle_task (sender_id : value) (task : P)
    (self : ISEPClient) : result ISEPClient :=
  inr (mkISEPClient (node_id self) (pending_tasks self)
         (beacon_queue self)
         (subtask_queue self ++ [(sender_id, "task", task)])
         (task_result_queue self)).

(** [ISEPClient._handle_task_result] *)
Definition _handle_task_result (sender_id : value) (result : P)
    (self : ISEPClient) : Py.result ISEPClient :=
  inr (mkISEPClient (node_id self) (pending_tasks self)
         (beacon_queue self) (subtask_queue self)
         (task_result_queue self ++ [(sender_id, "task_result", result)])).

(** The handlers the constructor registers with the network adapter. *)
Definition handlers
  : gmap string (value -> P -> ISEPClient -> result ISEPClient) :=
  <[ "beacon" := _handle_beacon ]>
  (<[ "beacon_response" := _handle_beacon_response ]>
  (<[ "task" := _handle_task ]>
  (<[ "task_result" := _handle_task_result ]> ∅))).

(** The receiving thread on the messages that arrive. *)
Definition receive_all (arrivals : list (@Network.Received P))
    (self : ISEPClient) : ISEPClient :=
  fold_left (Network.receive handlers) arrivals self.

(** [ISEPClient.receive_beacon], [receive_task] and [receive_result]:
    [queue.get(timeout=...)] gives the oldest entry, and
    [(None, None, None)] stands for an empty queue ([None] here). *)
Definition receive_beacon (self : ISEPClient)
  : option (value * string * P) * ISEPClient :=
  match beacon_queue self with
  | [] => (None, self)
  | item :: rest =>
      (Some item,
       mkISEPClient (node_id self) (pending_tasks self) rest
                    (subtask_queue self) (task_result_queue self))
  end.

Definition receive_task (self : ISEPClient)
  : option (value * string * P) * ISEPClient :=
  match subtask_queue self with
  | [] => (None, self)
  | item :: rest =>
      (Some item,
       mkISEPClient (node_id self) (pending_tasks self) (beacon_queue self)
                    rest (task_result_queue self))
  end.

Definition receive_result (self : ISEPClient)
  : option (value * string * P) * ISEPClient :=
  match task_result_queue self with
  | [] => (None, self)
  | item :: rest =>
      (Some item,
       mkISEPClient (node_id self) (pending_tasks self) (beacon_queue self)
                    (subtask_queue self) rest)
  end.

(** The loop [for response in responses: candidates.append(...)]. *)
Fixpoint candidates_of (responses : list P)
  : result (list (value * value)) :=
  match responses with
  | [] => inr []
  | response :: rest =>
      match getitem response "responder_id" with
      | inl e => inl e
      | inr responder_id =>
          match getitem response "match_score" with
          | inl e => inl e
          | inr match_score =>
              match candidates_of rest with
              | inl e => inl e
              | inr candidates =>
                  inr ((responder_id, match_score) :: candidates)
              end
          end
      end
  end.

(** [ISEPClient.broadcast_and_collect]: the list for the beacon's task id
    is emptied, the beacon is broadcast, and what the receiving thread
    handles ([arrivals]) until the responses are read is collected. *)
Definition broadcast_and_collect (arrivals : list (@Network.Received P))
    (beacon : Beacon.Beacon) (self : ISEPClient)
  : result (list (value * value)) * ISEPClient :=
  let self :=
    mkISEPClient (node_id self)
      (<[ Beacon.task_id beacon := [] ]> (pending_tasks self))
      (beacon_queue self) (subtask_queue self) (task_result_queue self) in
  let self := receive_all arrivals self in
  (match pending_tasks self !! Beacon.task_id beacon with
   | Some responses => candidates_of responses
   | None => inl (KeyError "task_id")
   end, self).

(** The queue entry of a well-formed message of type [msg_type]: the type
    and the sender are not empty and [data] is not null. *)
Definition queued (msg_type : string) (message : @Network.Received P)
  : option (value * string * P) :=
  match Network.r_data message with
  | Some data =>
      if truthy (Network.r_msg_type message)
         && truthy (Network.r_sender_id message)
         && bool_decide (Network.r_msg_type message = VStr msg_type)
      then Some (Network.r_sender_id message, msg_type, data)
      else None
  | None => None
  end.

(** The messages that fill the list of a task id: well-formed
    ["beacon_response"] messages whose payload carries that id. *)
Definition response_for (task_id : value)
    (message : @Network.Received P) : option P :=
  match Network.r_data message with
  | Some response =>
      if truthy (Network.r_msg_type message)
         && truthy (Network.r_sender_id message)
         && bool_decide (Network.r_msg_type message
                         = VStr "beacon_response")
         && match getitem response "task_id" with
            | inr t => bool_decide (t = task_id)
            | inl _ => false
            end
      then Some response else None
  | None => None
  end.

End Client.

(** [payload[key]] on a dictionary. *)
Definition dict_getitem (payload : gmap string value) (key : string)
  : result value :=
  match payload !! key with
  | Some v => inr v
  | None => inl (KeyError key)
  end.

End ISEP.

(** ** agents/agent.py: answering a beacon *)

Module Responder.

(** [self.capability_manager]: the constructors build it from
    [self.capabilities], and nothing changes it afterwards. *)
Definition capability_manager (self : Agent)
  : Capability.CapabilityManager :=
  Capability.__init__ (capabilities self).

(** [Agent.handle_beacon]: the arguments it passes to
    [isep_client.send_response].  [fresh] and [now] are the uuid and the
    time of the response. *)
Definition handle_beacon (self : Agent) (fresh : string) (now : Z)
    (sender_id : value) (beacon : gmap string value)
  : result (value * string * BeaconResponse.BeaconResponse) :=
  match ISEP.dict_getitem beacon "requirement" with
  | inl e => inl e
  | inr (VStr requirement) =>
      let match_score :=
        Capability.match_ (capability_manager self) requirement in
      match ISEP.dict_getitem beacon "task_id" with
      | inl e => inl e
      | inr task_id =>
          match
            BeaconResponse.__init__ fresh now (VStr (agent_id self))
              task_id (VNum match_score) (VNum 1)
          with
          | inl e => inl e
          | inr response =>
              match isep_client self with
              | None => inl no_model
              | Some _ => inr (sender_id, "beacon_response", response)
              end
          end
      end
  | inr VNone =>
      inl (AttributeError "'NoneType' object has no attribute 'lower'")
  | inr (VNum _) =>
      inl (AttributeError "'float' object has no attribute 'lower'")
  end.

(** The message a response arrives in at the node that sent the
    beacon. *)
Definition response_message (self : Agent)
    (response : BeaconResponse.BeaconResponse)
  : @Network.Received (gmap string value) :=
  Network.mkReceived (VStr "beacon_response") (VStr (agent_id self))
                     (Some (BeaconResponse.to_dict response)).

(** A node that listens, with the given tags. *)
Definition listening_agent (agent_id : string) (capabilities : list string)
  : Agent :=
  mkAgent agent_id 0 "" None capabilities (Some UserRunner.quiet_client).

End Responder.

(** ** user_register.py: the records of a batch *)

Module BatchRecords.

Import UserRunner.

(** The record one pass of the loop of [process_task_batch] appends for a
    task: the voted answer, or the error record of the [except] branch. *)
Definition record_of (w : World) (self : UserRunner)
    (task_item : TaskItem) : ResultItem :=
  match process_task w self (problem task_item) with
  | inl e =>
      mkResultItem (item_unique_id task_item) ("[ERROR] " +:+ exn_str e) []
  | inr (final_answer, full_answers) =>
      mkResultItem (item_unique_id task_item) final_answer full_answers
  end.

(** The number of tasks the loop takes: [max_tasks or len(tasks)], and no
    more than there are. *)
Definition taken (tasks : list TaskItem) (max_tasks : option Z) : nat :=
  (Z.to_nat (or_int max_tasks (Z.of_nat (length tasks)))
   `min` length tasks)%nat.

End BatchRecords.

(** ** agents/user.py: consensus over collected results *)

Module Consensus.

Section Consensus.

(** The results, and [str(result)]. *)
Context {A : Type} (str : A -> string).

(** The loop [for result in results: if str(result) == most_common:
    return result]. *)
Fixpoint first_with (most_common : string) (results : list A) : option A :=
  match results with
  | [] => None
  | result :: rest =>
      if decide (str result = most_common) then Some result
      else first_with most_common rest
  end.

(** [User._majority_consensus] *)
Definition _majority_consensus (results : list A) : result A :=
  let result_counts := UserRunner.Counter (str <$> results) in
  match UserRunner.most_common_1 result_counts with
  | [] => inl (IndexError "list index out of range")
  | (most_common, _) :: _ =>
      match first_with most_common results with
      | Some result => inr result
      | None =>
          match results with
          | first :: _ => inr first
          | [] => inl (IndexError "list index out of range")
          end
      end
  end.

(** [User._average_consensus] and [User._best_result_consensus]:
    [results[0] if results else None]. *)
Definition _average_consensus (results : list A) : option A :=
  head results.

Definition _best_result_consensus (results : list A) : option A :=
  head results.

(** [User.build_consensus] *)
Definition build_consensus (results : list A) (consensus_method : string)
  : result (option A) :=
  match results with
  | [] => inl (RuntimeError "Cannot build consensus from empty results")
  | _ =>
      if decide (consensus_method = "majority") then
        match _majority_consensus results with
        | inl e => inl e
        | inr result => inr (Some result)
        end
      else if decide (consensus_method = "average") then
        inr (_average_consensus results)
      else if decide (consensus_method = "best") then
        inr (_best_result_consensus results)
      else
        inl (ValueError
               ("Unsupported consensus method: " +:+ consensus_method))
  end.

End Consensus.

(** A runner that has collected the given answers. *)
Definition runner_with (answers : list string) : UserRunner.UserRunner :=
  UserRunner.mkUserRunner
    (UserRunner.user (UserRunner.fresh_runner 1)) 1 true []
    answers [] false "".

End Consensus.

(** ** symphony.py *)

Module Symphony.

(** A sub-task dictionary of [_decompose_task]. *)
Record Subtask := mkSubtask {
  id : string;
  requirement : string;
  description : string;
  context : gmap string string;
  original_task : string
}.

(** [SymphonyOrchestrator._decompose_task] *)
Definition _decompose_task (task : Task) : list Subtask :=
  (fun '(i, requirement) =>
     mkSubtask
       (task_id task +:+ "_sub_" +:+ str (Z.of_nat i + 1))
       requirement
       ("Handle " +:+ requirement +:+ " for: " +:+ TaskContract.description task)
       (TaskContract.context task)
       (TaskContract.description task))
    <$> enumerate (requirements task).

(** [suitable_agents.sort(key=lambda x: x[1], reverse=True)]: a stable
    sort. *)
Fixpoint insert_by_score {A} (x : A * score) (l : list (A * score))
  : list (A * score) :=
  match l with
  | [] => [x]
  | y :: l' =>
      if decide (x.2 < y.2)%Qc then y :: insert_by_score x l'
      else x :: y :: l'
  end.

Definition sort_by_score {A} (l : list (A * score)) : list (A * score) :=
  foldr insert_by_score [] l.

(** The list [suitable_agents] of [_find_suitable_agents], sorted: the
    agents that score at least 0.3 on the requirement, with their
    scores. *)
Definition suitable_agents (agents : list Agent) (requirement : string)
  : list (Agent * score) :=
  sort_by_score
    (omap (fun agent =>
             let match_score :=
               Capability.match_ (Responder.capability_manager agent)
                                 requirement in
             if decide (Q2Qc (3 # 10) <= match_score)%Qc
             then Some (agent, match_score) else None)
          agents).

(** [SymphonyOrchestrator._find_suitable_agents] *)
Definition _find_suitable_agents (agents : list Agent)
    (subtasks : list Subtask) : gmap string (list Agent) :=
  fold_left
    (fun assignments subtask =>
       <[ id subtask := (suitable_agents agents (requirement subtask)).*1 ]>
         assignments)
    subtasks ∅.

(** The dictionary [agent_task] of [_execute_subtask_on_agent], as
    [Agent.execute_task] reads it.  The only key of its ["steps"] is the
    integer [1]: no string is bound in it. *)
Definition agent_task (subtask : Subtask) : TaskDict :=
  mkTaskDict 1 ∅ [] (original_task subtask) "" "symphony_orchestrator" None.

(** [SymphonyOrchestrator._execute_subtask_on_agent]: the result, or on
    the left the message of the [Exception] it raises.  [fresh] is the
    uuid the agent draws. *)
Definition _execute_subtask_on_agent (fresh : string) (agent : Agent)
    (subtask : Subtask) : string + string :=
  match base_model agent with
  | None =>
      inr ("[SIMULATED] Agent " +:+ agent_id agent +:+ " handling "
           +:+ requirement subtask
           +:+ ": Task analysis completed with focus on "
           +:+ default "general" (context subtask !! "domain")
           +:+ " domain.")
  | Some _ =>
      match execute_task agent fresh (agent_task subtask) with
      | inl e => inl ("Agent execution failed: " +:+ UserRunner.exn_str e)
      | inr result => inr (final_result result)
      end
  end.

(** [r.startswith('[ERROR]') or r.startswith('[AGENT_ERROR]')] *)
Definition is_error (r : string) : bool :=
  String.prefix "[ERROR]" r || String.prefix "[AGENT_ERROR]" r.

(** [max(valid_results, key=len)]: the first of the longest. *)
Fixpoint max_by_len (best : string) (rest : list string) : string :=
  match rest with
  | [] => best
  | r :: rest =>
      max_by_len
        (if decide (String.length best < String.length r)%nat then r
         else best)
        rest
  end.

(** [SymphonyOrchestrator._vote_on_results] *)
Definition _vote_on_results (cot_results : list string) : result string :=
  match cot_results with
  | [only] => inr only
  | _ =>
      let valid_results := filter (fun r => is_error r = false) cot_results in
      match valid_results with
      | [] =>
          match cot_results with
          | first :: _ => inr first
          | [] => inl (IndexError "list index out of range")
          end
      | first :: rest => inr (max_by_len first rest)
      end
  end.

(** The strings the inner loop of [_execute_with_cot_voting] collects
    from the first [min(cot_count, len(available_agents))] agents. *)
Definition cot_results (fresh : string) (available_agents : list Agent)
    (subtask : Subtask) (cot_count : Z) : list string :=
  (fun agent =>
     match _execute_subtask_on_agent fresh agent subtask with
     | inr result => result
     | inl message => "[AGENT_ERROR] " +:+ message
     end)
    <$> take (Z.to_nat (cot_count `min` Z.of_nat (length available_agents)))
             available_agents.

(** One pass of the outer loop of [_execute_with_cot_voting]: the value
    of [results[subtask_id]]. *)
Definition subtask_result (fresh : string)
    (agent_assignments : gmap string (list Agent)) (cot_count : Z)
    (subtask : Subtask) : result string :=
  match default [] (agent_assignments !! id subtask) with
  | [] =>
      inr ("[ERROR] No agents available for subtask: "
           +:+ requirement subtask)
  | available_agents =>
      match cot_results fresh available_agents subtask cot_count with
      | [] =>
          inr ("[ERROR] All agents failed for subtask: "
               +:+ requirement subtask)
      | results => _vote_on_results results
      end
  end.

(** [SymphonyOrchestrator._execute_with_cot_voting]: the dictionary
    [results], in the order of insertion. *)
Fixpoint _execute_with_cot_voting (fresh : string)
    (subtasks : list Subtask)
    (agent_assignments : gmap string (list Agent)) (cot_count : Z)
    (results : list (string * string)) : result (list (string * string)) :=
  match subtasks with
  | [] => inr results
  | subtask :: rest =>
      match subtask_result fresh agent_assignments cot_count subtask with
      | inl e => inl e
      | inr r =>
          _execute_with_cot_voting fresh rest agent_assignments cot_count
            (Memory.dict_set (id subtask) r results)
      end
  end.

(** [s.split(sep)[-1]] for a non-empty [sep]: what follows the last of
    the occurrences of [sep] found from left to right.  [skip] characters
    of an occurrence are still to be passed. *)
Fixpoint last_segment (sep : string) (skip : nat) (segment s : string)
  : string :=
  match s with
  | EmptyString => segment
  | String c rest =>
      match skip with
      | S skip => last_segment sep skip segment rest
      | O =>
          if String.prefix sep s
          then last_segment sep (String.length sep - 1) "" rest
          else last_segment sep 0 (segment +:+ String c "") rest
      end
  end.

(** The lines [f"{i}. **{requirement}**: {result}\n\n"]. *)
Definition result_lines (results : list (string * string)) : string :=
  String.concat ""
    ((fun '(i, (subtask_id, result)) =>
        str (Z.of_nat i + 1) +:+ ". **"
        +:+ last_segment "_sub_" 0 "" subtask_id +:+ "**: " +:+ result
        +:+ newline +:+ newline)
       <$> enumerate results).

(** [SymphonyOrchestrator._aggregate_results] *)
Definition _aggregate_results (results : list (string * string))
    (original_task : Task) : string :=
  "## Symphony Multi-Agent Task Execution Result" +:+ newline +:+ newline
  +:+ "**Original Task**: " +:+ TaskContract.description original_task
  +:+ newline +:+ newline
  +:+ "**Domain**: "
  +:+ default "General" (TaskContract.context original_task !! "domain")
  +:+ newline
  +:+ "**Complexity**: "
  +:+ default "Medium" (TaskContract.context original_task !! "complexity")
  +:+ newline +:+ newline
  +:+ "### Subtask Results:" +:+ newline +:+ newline
  +:+ result_lines results
  +:+ newline +:+ "**Execution Summary**: Successfully coordinated "
  +:+ str (Z.of_nat (length results)) +:+ " specialized agents "
  +:+ "to handle different aspects of the task through beacon-guided "
  +:+ "routing and CoT voting." +:+ newline.

Definition no_suitable_agents : string :=
  "[ERROR] No suitable agents found for task execution".

(** What the loop collects from an agent that has a base model. *)
Definition agent_error : string :=
  "[AGENT_ERROR] Agent execution failed: '1'".

(** [SymphonyOrchestrator.execute_task]; [agents] are the registered
    agents. *)
Definition execute_task (agents : list Agent) (fresh : string)
    (task : Task) (cot_count : Z) : result string :=
  let subtasks := _decompose_task task in
  let agent_assignments := _find_suitable_agents agents subtasks in
  if decide (agent_assignments = ∅) then inr no_suitable_agents
  else
    match
      _execute_with_cot_voting fresh subtasks agent_assignments cot_count []
    with
    | inl e => inl e
    | inr results => inr (_aggregate_results results task)
    end.

End Symphony.

(** ** agent_register.py: a decomposition that yields no step *)

Module Decomposition.

(** The decomposer or the DAG generator reports a failure, or the DAG has
    no sub-task: [steps] stays empty. *)
Definition yields_no_step (model : BaseModel) (user_input : string)
  : Prop :=
  let '(task_background, task_question, success) :=
    extract_task model user_input in
  success = false
  \/ dag_subtasks model task_background task_question user_input "math"
     = None
  \/ dag_subtasks model task_background task_question user_input "math"
     = Some [].

End Decomposition.

(** ** infra/network_adapter.py: the neighbors that were added *)

Module Topology.

Import Network.

(** An adapter after the calls [add_neighbor(node_id, host, port)]. *)
Definition with_neighbors (calls : list (string * string * Z))
    (self : NetworkAdapter) : NetworkAdapter :=
  fold_left (fun self '(node_id, host, port) =>
               add_neighbor node_id host port self)
            calls self.

(** The address a call gives to a node. *)
Definition address_of (node_id : string) (call : string * string * Z)
  : option (string * Z) :=
  if decide (call.1.1 = node_id) then Some (call.1.2, call.2) else None.

End Topology.

(* ================================================================== *)
(** * Properties *)

(** ** Task state machine *)

Module TaskFacts.

Import Lifecycle.

Lemma or_int_self n : or_int (Some n) 0 = n.
Proof. unfold or_int. case_decide; congruence. Qed.

Lemma or_str_self s : or_str (Some s) "" = s.
Proof. unfold or_str. case_decide; congruence. Qed.

Lemma or_list_self {A} (l : list A) : or_list (Some l) [] = l.
Proof. by destruct l. Qed.

Lemma or_dict_self {V} (m : gmap string V) : or_dict (Some m) ∅ = m.
Proof. unfold or_dict. case_decide; congruence. Qed.

Lemma from_dict_subtask_id fresh d :
  subtask_id (from_dict fresh d) = d_subtask_id d.
Proof. unfold from_dict. destruct (d_new d); apply or_int_self. Qed.

Lemma from_dict_steps fresh d : steps (from_dict fresh d) = d_steps d.
Proof. unfold from_dict. destruct (d_new d); apply or_dict_self. Qed.

Lemma from_dict_previous_results fresh d :
  previous_results (from_dict fresh d) = d_previous_results d.
Proof. unfold from_dict. destruct (d_new d); apply or_list_self. Qed.

Lemma from_dict_final_result fresh d :
  final_result (from_dict fresh d) = d_final_result d.
Proof. unfold from_dict. destruct (d_new d); apply or_str_self. Qed.

Lemma enumerate_snoc {A} (l : list A) x :
  enumerate (l ++ [x]) = enumerate l ++ [(length l, x)].
Proof.
  unfold enumerate. rewrite length_app, seq_app. simpl.
  rewrite zip_with_app; [done|]. by rewrite length_seq.
Qed.

Lemma build_steps_snoc subtasks s requirement :
  build_steps (subtasks ++ [s]) requirement
  = <[ str (Z.of_nat (length subtasks) + 1) := (s, requirement) ]>
      (build_steps subtasks requirement).
Proof.
  unfold build_steps. rewrite enumerate_snoc, fold_left_app. done.
Qed.

Lemma str_inj m n : str m = str n -> m = n.
Proof. unfold str. apply (inj pretty). Qed.

Lemma build_steps_lookup subtasks requirement (k : nat) :
  build_steps subtasks requirement !! str (Z.of_nat k + 1)
  = (fun s => (s, requirement)) <$> subtasks !! k.
Proof.
  induction subtasks as [|s subtasks IH] using rev_ind.
  - done.
  - rewrite build_steps_snoc.
    destruct (decide (k = length subtasks)) as [->|Hne].
    + rewrite lookup_insert_eq. rewrite lookup_app_r by lia.
      by rewrite Nat.sub_diag.
    + rewrite lookup_insert_ne.
      2:{ intros H%str_inj. lia. }
      rewrite IH. destruct (decide (k < length subtasks)%nat).
      * by rewrite lookup_app_l.
      * rewrite !lookup_ge_None_2; [done| |]; rewrite ?length_app; simpl; lia.
Qed.

Lemma build_steps_lookup_Z subtasks requirement (n : Z) :
  1 <= n ->
  build_steps subtasks requirement !! str n
  = (fun s => (s, requirement)) <$> subtasks !! Z.to_nat (n - 1).
Proof.
  intros Hn. rewrite <- build_steps_lookup. f_equal. f_equal. lia.
Qed.

Lemma build_steps_size subtasks requirement :
  size (build_steps subtasks requirement) = length subtasks.
Proof.
  induction subtasks as [|s subtasks IH] using rev_ind; [done|].
  rewrite build_steps_snoc, map_size_insert_None, IH, length_app; simpl; [lia|].
  rewrite build_steps_lookup. by rewrite lookup_ge_None_2.
Qed.

Lemma execute_task_increments agent fresh d t :
  execute_task agent fresh d = inr t -> subtask_id t = d_subtask_id d + 1.
Proof.
  unfold execute_task, _decompose_task, _execute_subtask.
  repeat (case_decide || case_match); intros; simplify_eq;
    by rewrite from_dict_subtask_id.
Qed.

(** What the decomposition does to a dictionary. *)
Lemma decompose_spec agent fresh d t :
  d_subtask_id d = 0 ->
  execute_task agent fresh d = inr t ->
  exists model background question ok,
    base_model agent = Some model
    /\ extract_task model (d_original_problem d) = (background, question, ok)
    /\ subtask_id t = 1
    /\ final_result t = d_final_result d
    /\ match dag_subtasks model background question (d_original_problem d)
                          "math" with
       | Some subtasks =>
           if ok
           then steps t = build_steps subtasks "math"
                /\ previous_results t = d_previous_results d ++ [background]
           else steps t = d_steps d
                /\ previous_results t = d_previous_results d
       | None =>
           steps t = d_steps d
           /\ previous_results t
              = if ok then d_previous_results d ++ [background]
                else d_previous_results d
       end.
Proof.
  intros Hz. unfold execute_task. rewrite decide_True by done.
  unfold _decompose_task, generate_task_dag.
  destruct (base_model agent) as [model|]; [|done].
  destruct (extract_task model (d_original_problem d))
    as [[background question] ok] eqn:Hex.
  intros Ht. exists model, background, question, ok.
  split; [done|]. split; [done|].
  destruct ok; simpl in Ht.
  - destruct (dag_subtasks model background question (d_original_problem d)
                "math"); simplify_eq;
      rewrite from_dict_subtask_id, from_dict_final_result,
        from_dict_steps, from_dict_previous_results; simpl;
      rewrite Hz; done.
  - simplify_eq.
    rewrite from_dict_subtask_id, from_dict_final_result,
      from_dict_steps, from_dict_previous_results; simpl.
    rewrite Hz. by destruct (dag_subtasks _ _ _ _ _).
Qed.

(** What the execution of a step does to a dictionary. *)
Lemma execute_spec agent fresh d t :
  d_subtask_id d <> 0 ->
  execute_task agent fresh d = inr t ->
  exists model instruction requirement,
    base_model agent = Some model
    /\ d_steps d !! str (d_subtask_id d) = Some (instruction, requirement)
    /\ steps t = d_steps d
    /\ subtask_id t = d_subtask_id d + 1
    /\ previous_results t
       = d_previous_results d
         ++ [instruction +:+ " Answer: "
             +:+ generated agent model instruction (d_previous_results d)]
    /\ final_result t
       = if decide (d_subtask_id d = Z.of_nat (size (d_steps d)))
         then generated agent model instruction (d_previous_results d)
         else d_final_result d.
Proof.
  intros Hnz. unfold execute_task. rewrite decide_False by done.
  unfold _execute_subtask.
  destruct (d_steps d !! str (d_subtask_id d)) as [[instruction requirement]|];
    [|done].
  destruct (base_model agent) as [model|]; [|done].
  intros Ht. exists model, instruction, requirement.
  simpl in Ht. simplify_eq.
  rewrite from_dict_subtask_id, from_dict_final_result,
    from_dict_steps, from_dict_previous_results.
  case_decide; simpl; done.
Qed.

Lemma initial_well_formed user_id fresh user_input :
  well_formed (User._create_initial_task user_id fresh user_input).
Proof.
  exists []. unfold User._create_initial_task, Task_init. simpl.
  repeat split; try done; lia.
Qed.

Lemma execute_task_well_formed agent fresh task new_task :
  well_formed task ->
  execute_task agent fresh (to_dict task) = inr new_task ->
  well_formed new_task.
Proof.
  intros (subtasks & Hsteps & Hrange & Hzero & Hempty & Hnil) Hexec.
  destruct (decide (subtask_id task = 0)) as [Hz|Hnz].
  - apply decompose_spec in Hexec as
      (model & background & question & ok & _ & _ & Hsid & Hfin & Hcase);
      [|done].
    simpl in *. rewrite Hzero in * by done.
    assert (final_result new_task = "") as Hfin'.
    { rewrite Hfin. by apply Hnil. }
    destruct (dag_subtasks _ _ _ _ _) as [subtasks'|].
    + destruct ok.
      * destruct Hcase as [Hst _]. exists subtasks'.
        rewrite Hsid. repeat split; try done; try lia.
      * destruct Hcase as [Hst _]. exists [].
        rewrite Hsid, Hst, Hsteps. repeat split; try done; simpl; lia.
    + destruct Hcase as [Hst _]. exists [].
      rewrite Hsid, Hst, Hsteps. repeat split; try done; simpl; lia.
  - apply execute_spec in Hexec as
      (model & instruction & requirement & _ & Hlook & Hst & Hsid & _ & Hfin);
      [|done].
    simpl in *.
    rewrite Hsteps, build_steps_lookup_Z in Hlook by lia.
    destruct (subtasks !! Z.to_nat (subtask_id task - 1)) eqn:Hk; [|done].
    apply lookup_lt_Some in Hk.
    exists subtasks. rewrite Hst, Hsid, Hfin, Hsteps, build_steps_size.
    repeat split; try lia.
    + intros Hle. rewrite decide_False by lia. apply Hempty. lia.
    + intros ->. simpl in Hk. lia.
Qed.

Lemma reachable_well_formed user_id user_input task :
  reachable user_id user_input task -> well_formed task.
Proof.
  induction 1; eauto using initial_well_formed, execute_task_well_formed.
Qed.

(** C1 (as amended).  Every decompose or execute transition of a task that
    descends from a fresh one increases [subtask_id] by exactly 1.  A
    non-empty [final_result] implies [subtask_id == len(steps) + 1];
    conversely, when [subtask_id == len(steps) + 1] and [steps] is not
    empty, [final_result] is the result the generator gave for the last
    step, appended to [previous_results] after its instruction.  With
    empty [steps] the counter is 1 and [final_result] is empty; this is what
    a failure reported by the decomposer or the DAG generator leaves. *)
Theorem subtask_id_and_final_result
    user_id user_input task agent fresh new_task :
  reachable user_id user_input task ->
  execute_task agent fresh (to_dict task) = inr new_task ->
  subtask_id new_task = subtask_id task + 1
  /\ (final_result new_task <> "" ->
      subtask_id new_task = Z.of_nat (size (steps new_task)) + 1)
  /\ (subtask_id new_task = Z.of_nat (size (steps new_task)) + 1 ->
      steps new_task <> ∅ ->
      exists model instruction requirement,
        base_model agent = Some model
        /\ steps task !! str (subtask_id task)
           = Some (instruction, requirement)
        /\ final_result new_task
           = generated agent model instruction (previous_results task)
        /\ previous_results new_task
           = previous_results task
             ++ [instruction +:+ " Answer: " +:+ final_result new_task])
  /\ (steps new_task = ∅ ->
      subtask_id new_task = 1 /\ final_result new_task = "")
  /\ (subtask_id task = 0 ->
      forall model, base_model agent = Some model ->
        let '(background, question, ok) :=
          extract_task model (original_problem task) in
        ok = false
        \/ dag_subtasks model background question (original_problem task)
                        "math" = None ->
        steps new_task = ∅).
Proof.
  intros Hreach Hexec.
  pose proof (reachable_well_formed _ _ _ Hreach) as Hwf.
  pose proof (execute_task_well_formed _ _ _ _ Hwf Hexec) as Hwf'.
  destruct Hwf as (subtasks & Hsteps & Hrange & Hzero & Hempty & Hnil).
  destruct Hwf' as (subtasks' & Hsteps' & Hrange' & Hzero' & Hempty' & Hnil').
  pose proof (execute_task_increments _ _ _ _ Hexec) as Hinc. simpl in Hinc.
  split; [done|]. split; [|split; [|split]].
  - intros Hne. rewrite Hsteps', build_steps_size.
    destruct (decide (subtask_id new_task <= Z.of_nat (length subtasks')));
      [|lia].
    by destruct Hne; apply Hempty'.
  - intros Hlast Hne.
    destruct (decide (subtask_id task = 0)) as [Hz|Hnz].
    + rewrite Hinc, Hz in Hlast.
      destruct Hne. apply map_size_empty_iff. lia.
    + apply execute_spec in Hexec as
        (model & instruction & requirement & Hm & Hlook & Hst & _ & Hprev
         & Hfin); [|done].
      simpl in *. exists model, instruction, requirement.
      rewrite Hst, Hinc in Hlast.
      rewrite decide_True in Hfin by lia.
      rewrite Hfin. done.
  - intros Hnone.
    destruct (decide (subtask_id task = 0)) as [Hz|Hnz].
    + split; [lia|].
      apply decompose_spec in Hexec as (? & ? & ? & ? & _ & _ & _ & Hfin & _);
        [|done].
      rewrite Hfin. simpl. apply Hnil. by apply Hzero.
    + apply execute_spec in Hexec as
        (model & instruction & requirement & _ & Hlook & Hst & _); [|done].
      simpl in *. rewrite <- Hst, Hnone in Hlook. done.
  - intros Hz model Hm.
    apply decompose_spec in Hexec as
      (model' & background & question & ok & Hm' & Hex & _ & _ & Hcase);
      [|done].
    simpl in *. simplify_eq. rewrite Hex.
    assert (steps task = ∅) as Hnone.
    { rewrite Hsteps, Hzero by done. done. }
    intros [Hok|Hdag].
    + subst ok. destruct (dag_subtasks _ _ _ _ _);
        destruct Hcase as [-> _]; done.
    + rewrite Hdag in Hcase. destruct Hcase as [-> _]. done.
Qed.

(** The premises hold for the first transition of a concrete task. *)
Lemma subtask_id_and_final_result_witness :
  exists new_task,
    execute_task (agent_with model_ok) "uuid-1" (to_dict initial_task)
    = inr new_task
    /\ subtask_id new_task = subtask_id initial_task + 1.
Proof.
  eexists. split; [vm_compute; reflexivity|].
  refine (proj1 (subtask_id_and_final_result
                   "user-001" "What is 6 times 7?" initial_task
                   (agent_with model_ok) "uuid-1" _
                   (reach_initial _ _ _) _)).
  vm_compute. reflexivity.
Defined.

(** A reported failure: the counter reaches [len(steps) + 1] and the final
    result is empty. *)
Lemma failed_decomposition_looks_complete :
  exists new_task,
    reachable "user-001" "What is 6 times 7?" initial_task
    /\ extract_task model_failing (original_problem initial_task)
       = ("", "", false)
    /\ execute_task (agent_with model_failing) "uuid-1" (to_dict initial_task)
       = inr new_task
    /\ subtask_id new_task = Z.of_nat (size (steps new_task)) + 1
    /\ final_result new_task = "".
Proof.
  eexists. split; [apply reach_initial|].
  split; [reflexivity|]. split; [vm_compute; reflexivity|].
  split; reflexivity.
Qed.

Lemma execute_task_executed agent fresh task :
  subtask_id task <> 0 ->
  is_Some (base_model agent) ->
  is_Some (steps task !! str (subtask_id task)) ->
  exists new_task,
    execute_task agent fresh (to_dict task) = inr new_task
    /\ executed (agent, fresh) task new_task.
Proof.
  intros Hnz [model Hm] [[instruction requirement] Hlook].
  destruct (execute_task agent fresh (to_dict task)) as [e|new_task] eqn:Hexec.
  - exfalso. revert Hexec. unfold execute_task, _execute_subtask. simpl.
    rewrite decide_False by done. rewrite Hlook, Hm. done.
  - exists new_task. split; [done|].
    apply execute_spec in Hexec as
      (model' & instruction' & requirement' & ? & ? & ? & ? & ? & ?); [|done].
    exists model', instruction', requirement'. done.
Qed.

(** A chain of nodes with a model each advances a decomposed task by one
    step per node, up to its last step. *)
Lemma transitions_chain subtasks :
  forall (nodes : list node) task,
    steps task = build_steps subtasks "math" ->
    1 <= subtask_id task ->
    (subtask_id task <= Z.of_nat (length subtasks) -> final_result task = "") ->
    subtask_id task + Z.of_nat (length nodes)
    = Z.of_nat (length subtasks) + 1 ->
    Forall (fun n : node => is_Some (base_model n.1)) nodes ->
    exists tasks,
      transitions nodes (to_dict task) = inr <$> tasks
      /\ length tasks = length nodes
      /\ (forall (i : nat) (t : Task),
           tasks !! i = Some t ->
           subtask_id t = subtask_id task + Z.of_nat i + 1
           /\ steps t = steps task
           /\ (subtask_id t <= Z.of_nat (length subtasks) ->
               final_result t = ""))
      /\ (forall (i : nat) before after n,
           (task :: tasks) !! i = Some before ->
           tasks !! i = Some after ->
           nodes !! i = Some n ->
           executed n before after).
Proof.
  induction nodes as [|[agent fresh] nodes IH];
    intros task Hsteps Hpos Hfin Hlen Hmodels.
  - exists []. split; [done|]. split; [done|].
    split.
    + intros i t Ht. by rewrite lookup_nil in Ht.
    + intros i before after n _ Ha. by rewrite lookup_nil in Ha.
  - inversion_clear Hmodels as [|? ? Hm Hmodels']. simpl in Hm, Hlen.
    destruct (execute_task_executed agent fresh task) as (t1 & Hexec & Hstep);
      [lia|done| |].
    { rewrite Hsteps, build_steps_lookup_Z by lia.
      apply fmap_is_Some, lookup_lt_is_Some. lia. }
    pose proof Hstep as
      (model & instruction & requirement & _ & _ & Hst & Hsid & _ & Hf).
    rewrite Hsteps, build_steps_size in Hf.
    destruct (IH t1) as (tasks & Htr & Hl & Hids & Hsteps'); try done.
    { congruence. }
    { lia. }
    { intros Hle. rewrite Hf, decide_False by lia. apply Hfin. lia. }
    { lia. }
    exists (t1 :: tasks). simpl. rewrite Hexec, Htr.
    split; [done|]. split; [by rewrite Hl|]. split.
    + intros [|i] t Ht; simpl in Ht; simplify_eq.
      * split; [lia|]. split; [done|].
        intros Hle. rewrite Hf, decide_False by lia.
        apply Hfin. lia.
      * destruct (Hids i t Ht) as (? & ? & ?).
        split; [lia|]. split; [congruence|done].
    + intros [|i] before after n Hb Ha Hn; simpl in *; simplify_eq; [done|].
      by eapply Hsteps'.
Qed.

Lemma decompose_returns agent fresh d :
  d_subtask_id d = 0 ->
  is_Some (base_model agent) ->
  exists new_task, execute_task agent fresh d = inr new_task.
Proof.
  intros Hz [model Hm]. unfold execute_task, _decompose_task.
  rewrite decide_True by done. rewrite Hm.
  destruct (extract_task model (d_original_problem d)) as [[? ?] ?].
  eauto.
Qed.

Lemma initial_task_fields user_id fresh user_input :
  let initial := User._create_initial_task user_id fresh user_input in
  subtask_id initial = 0 /\ steps initial = ∅
  /\ previous_results initial = [] /\ original_problem initial = user_input
  /\ final_result initial = "".
Proof.
  simpl. unfold User._create_initial_task, Task_init. simpl.
  repeat split; try done. apply or_str_self.
Qed.

(** C2 (as amended).  From a fresh task whose decomposition succeeds with
    [N >= 1] steps, [N + 1] transitions on nodes that have a model reach
    [subtask_id == N + 1]; the task after transition [k + 1] has counter
    [k + 1] and, for [k < N], an empty [final_result]; every transition
    after the first executes a step; the last one stores the result of the
    generator for step [N] in [final_result] and appends
    ["<instruction> Answer: <result>"] to [previous_results]. *)
Theorem task_lifecycle
    user_id fresh0 user_input agent0 fresh model0 background question
    subtasks (nodes : list node) :
  base_model agent0 = Some model0 ->
  extract_task model0 user_input = (background, question, true) ->
  dag_subtasks model0 background question user_input "math" = Some subtasks ->
  subtasks <> [] ->
  length nodes = length subtasks ->
  Forall (fun n : node => is_Some (base_model n.1)) nodes ->
  exists first rest,
    transitions ((agent0, fresh) :: nodes)
      (to_dict (User._create_initial_task user_id fresh0 user_input))
    = inr <$> (first :: rest)
    /\ length (first :: rest) = S (length subtasks)
    /\ (forall (k : nat) task,
         (first :: rest) !! k = Some task ->
         subtask_id task = Z.of_nat k + 1
         /\ steps task = build_steps subtasks "math"
         /\ ((k < length subtasks)%nat -> final_result task = ""))
    /\ (forall (k : nat) before after n,
         (first :: rest) !! k = Some before ->
         rest !! k = Some after ->
         nodes !! k = Some n ->
         executed n before after)
    /\ (exists before last agent fresh' model instruction,
         (first :: rest) !! (length subtasks - 1)%nat = Some before
         /\ rest !! (length subtasks - 1)%nat = Some last
         /\ nodes !! (length subtasks - 1)%nat = Some (agent, fresh')
         /\ base_model agent = Some model
         /\ subtasks !! (length subtasks - 1)%nat = Some instruction
         /\ subtask_id last = Z.of_nat (length subtasks) + 1
         /\ final_result last
            = generated agent model instruction (previous_results before)
         /\ previous_results last
            = previous_results before
              ++ [instruction +:+ " Answer: " +:+ final_result last]).
Proof.
  intros Hm Hex Hdag Hne Hlen Hmodels.
  set (initial := User._create_initial_task user_id fresh0 user_input).
  destruct (decompose_returns agent0 fresh (to_dict initial))
    as [first Hfirst]; [done|by rewrite Hm|].
  pose proof Hfirst as Hspec.
  apply decompose_spec in Hspec as
    (model & background' & question' & ok & Hm' & Hex' & Hsid & Hfin & Hcase);
    [|done].
  destruct (initial_task_fields user_id fresh0 user_input)
    as (_ & _ & _ & Hin & Hfin0).
  fold initial in Hin, Hfin0.
  change (d_original_problem (to_dict initial))
    with (original_problem initial) in Hex', Hcase.
  change (d_final_result (to_dict initial))
    with (final_result initial) in Hfin.
  rewrite Hin in Hex', Hcase. rewrite Hfin0 in Hfin.
  simplify_eq. rewrite Hex in Hex'. simplify_eq.
  rewrite Hdag in Hcase. destruct Hcase as [Hsteps Hprev].
  assert (length subtasks <> 0)%nat as Hpos by (by destruct subtasks).
  destruct (transitions_chain subtasks nodes first)
    as (rest & Hrest & Hl & Hids & Hexecd); try done; try lia.
  exists first, rest. simpl. rewrite Hfirst, Hrest.
  split; [done|]. split; [simpl; lia|].
  assert (forall (k : nat) task,
             (first :: rest) !! k = Some task ->
             subtask_id task = Z.of_nat k + 1
             /\ steps task = build_steps subtasks "math"
             /\ ((k < length subtasks)%nat -> final_result task = ""))
    as Hall.
  { intros [|k] task Hk; simpl in Hk; simplify_eq.
    - split; [lia|]. split; [done|]. by intros _.
    - destruct (Hids k task Hk) as (Hs & Hst & Hf).
      split; [lia|]. split; [congruence|]. intros ?. apply Hf. lia. }
  split; [done|]. split; [done|].
  destruct (lookup_lt_is_Some_2 (first :: rest) (length subtasks - 1)%nat)
    as [before Hb]; [simpl; lia|].
  destruct (lookup_lt_is_Some_2 rest (length subtasks - 1)%nat)
    as [last Hla]; [lia|].
  destruct (lookup_lt_is_Some_2 nodes (length subtasks - 1)%nat)
    as [[agent fresh'] Hn]; [lia|].
  destruct (Hexecd _ _ _ _ Hb Hla Hn) as
    (model & instruction & requirement & Hmod & Hlook & _ & Hs & Hp & Hf).
  destruct (Hall _ _ Hb) as (Hsb & Hstb & _).
  rewrite Hstb, build_steps_lookup_Z in Hlook by lia.
  rewrite Hstb, build_steps_size, decide_True in Hf by lia.
  exists before, last, agent, fresh', model, instruction.
  repeat (split; [done|]). simpl in *.
  split.
  { replace (Z.to_nat (subtask_id before - 1))
      with (length subtasks - 1)%nat in Hlook by lia.
    destruct (subtasks !! (length subtasks - 1)%nat);
      simpl in Hlook; congruence. }
  split; [lia|]. split; [done|]. by rewrite Hf.
Qed.

(** The premises hold for a decomposition into two steps and three
    nodes. *)
Lemma task_lifecycle_witness :
  exists first rest,
    transitions
      [(agent_with model_ok, "uuid-1"); (agent_with model_ok, "uuid-2");
       (agent_with model_ok, "uuid-3")]
      (to_dict initial_task)
    = inr <$> (first :: rest)
    /\ length (first :: rest) = 3%nat.
Proof.
  destruct (task_lifecycle "user-001" "uuid-0" "What is 6 times 7?"
              (agent_with model_ok) "uuid-1" model_ok
              "background" "question" ["Q1: first"; "Q2: second"]
              [(agent_with model_ok, "uuid-2");
               (agent_with model_ok, "uuid-3")])
    as (first & rest & Htr & Hlen & _).
  - reflexivity.
  - reflexivity.
  - reflexivity.
  - discriminate.
  - reflexivity.
  - repeat constructor; eexists; reflexivity.
  - exists first, rest. split; assumption.
Defined.

(** A life of [N + 1] transitions that ends with an empty final result:
    with one step whose generator returns the empty string, and with a
    decomposition that succeeds with no step at all. *)
Lemma lifecycle_may_end_empty :
  (exists first last,
      transitions
        [(agent_with model_silent, "uuid-1");
         (agent_with model_silent, "uuid-2")]
        (to_dict initial_task)
      = [inr first; inr last]
      /\ size (steps first) = 1%nat
      /\ subtask_id last = 1 + 1
      /\ final_result last = "")
  /\ (exists first,
        transitions [(agent_with model_no_subtask, "uuid-1")]
                    (to_dict initial_task)
        = [inr first]
        /\ dag_subtasks model_no_subtask "background" "question"
                        "What is 6 times 7?" "math" = Some []
        /\ subtask_id first = 0 + 1
        /\ final_result first = "").
Proof.
  split.
  - eexists _, _. split; [vm_compute; reflexivity|].
    repeat split; vm_compute; reflexivity.
  - eexists. split; [vm_compute; reflexivity|].
    repeat split; vm_compute; reflexivity.
Qed.

End TaskFacts.

(** ** Executor selection *)

Module AgentFacts.

Lemma insert_desc_perm x l : insert_desc x l ≡ₚ x :: l.
Proof.
  induction l as [|y l IH]; simpl; [done|].
  case_decide; [|done]. rewrite IH. apply Permutation_swap.
Qed.

Lemma sorted_desc_perm candidates : sorted_desc candidates ≡ₚ candidates.
Proof.
  induction candidates as [|x l IH]; simpl; [done|].
  rewrite insert_desc_perm. by rewrite IH.
Qed.

Lemma insert_desc_sorted x l :
  StronglySorted score_ge l -> StronglySorted score_ge (insert_desc x l).
Proof.
  induction 1 as [|y l Hs IH Hall]; simpl.
  - repeat constructor.
  - case_decide as Hlt.
    + constructor; [done|].
      rewrite insert_desc_perm. constructor; [|done].
      unfold score_ge. by apply Qclt_le_weak.
    + apply Qcnot_lt_le in Hlt. constructor.
      * by constructor.
      * constructor; [done|].
        eapply Forall_impl; [exact Hall|].
        unfold score_ge. intros z Hz. by etrans.
Qed.

Lemma sorted_desc_sorted candidates :
  StronglySorted score_ge (sorted_desc candidates).
Proof.
  induction candidates; simpl; [constructor|by apply insert_desc_sorted].
Qed.

Lemma find_self_Some agent_id best_score k l i c :
  find_self agent_id best_score k l = Some (i, c) ->
  (k <= i)%nat /\ l !! (i - k)%nat = Some c /\ c = (agent_id, best_score).
Proof.
  revert k. induction l as [|[cid s] l IH]; intros k; simpl; [done|].
  case_decide as Hd.
  - intros [= <- <-]. destruct Hd as [-> ->].
    rewrite Nat.sub_diag. done.
  - intros (Hle & Hl & ->)%IH. split; [lia|]. split; [|done].
    replace (i - k)%nat with (S (i - S k)) by lia. done.
Qed.

Lemma find_self_complete agent_id best_score k l :
  (agent_id, best_score) ∈ l ->
  is_Some (find_self agent_id best_score k l).
Proof.
  revert k. induction l as [|[cid s] l IH]; intros k Hin; simpl.
  - by apply elem_of_nil in Hin.
  - case_decide as Hd; [done|].
    apply elem_of_cons in Hin as [[= -> ->]|Hin]; [by destruct Hd|].
    by apply IH.
Qed.

Lemma swap_to_front {A} (l : list A) i c x :
  l !! i = Some c -> c :: <[ i := x ]> l ≡ₚ x :: l.
Proof.
  revert i. induction l as [|y l IH]; intros [|i] Hi; simplify_eq/=.
  - apply Permutation_swap.
  - rewrite Permutation_swap. rewrite (IH i Hi). apply Permutation_swap.
Qed.

Lemma prioritize_perm self l : _prioritize_self_execution self l ≡ₚ l.
Proof.
  unfold _prioritize_self_execution. destruct l as [|first l]; [done|].
  destruct (find_self _ _ _ _) as [[i c]|] eqn:Hf; [|done].
  apply find_self_Some in Hf as (_ & Hi & _). rewrite Nat.sub_0_r in Hi.
  destruct i as [|i]; simpl in *; [by simplify_eq|].
  by apply swap_to_front.
Qed.

Lemma prioritize_scores self l :
  StronglySorted score_ge l ->
  (_prioritize_self_execution self l).*2 = l.*2.
Proof.
  unfold _prioritize_self_execution. destruct l as [|first l]; [done|].
  destruct (find_self _ _ _ _) as [[i c]|] eqn:Hf; [|done].
  apply find_self_Some in Hf as (_ & Hi & ->). rewrite Nat.sub_0_r in Hi.
  intros _. destruct i as [|i]; simpl in *; [done|].
  f_equal. rewrite list_fmap_insert. simpl.
  apply list_insert_id. by rewrite list_lookup_fmap, Hi.
Qed.

Lemma sorted_by_scores (l l' : list (string * score)) :
  l.*2 = l'.*2 -> StronglySorted score_ge l' -> StronglySorted score_ge l.
Proof.
  revert l'. induction l as [|x l IH]; intros [|y l'] Heq Hs;
    try discriminate; [constructor|].
  assert (x.2 = y.2 /\ l.*2 = l'.*2) as [Hxy Htail]
    by (by injection Heq).
  apply StronglySorted_inv in Hs as [Hs Hall]. constructor; [by eapply IH|].
  apply Forall_forall. intros z Hz.
  apply (list_elem_of_fmap_2 snd) in Hz. rewrite Htail in Hz.
  apply list_elem_of_fmap in Hz as (z' & Hzz & Hz').
  rewrite Forall_forall in Hall. specialize (Hall z' Hz').
  unfold score_ge in *. congruence.
Qed.

Lemma sorted_head_max (l : list (string * score)) x c :
  StronglySorted score_ge l -> head l = Some x -> c ∈ l -> (c.2 <= x.2)%Qc.
Proof.
  destruct l as [|y l]; [done|]. intros Hs [= ->] Hin.
  apply StronglySorted_inv in Hs as [_ Hall].
  apply elem_of_cons in Hin as [->|Hin]; [apply Qcle_refl|].
  rewrite Forall_forall in Hall. by apply Hall.
Qed.

(** C4.  Executor selection ranks the candidates by match score, highest
    first, a permutation of the candidates; when the agent's own id is among
    the candidates with the highest score it is at rank 0; the selection is
    the first [K] of the ranking.  For [(A,0.8), (self,0.8), (B,0.6)] and
    [K = 1] the selection is [self]. *)
Theorem select_best_executors_self_first
    (self : Agent) (candidates : list (string * score)) (K : Z) :
  let ranked := _prioritize_self_execution self (sorted_desc candidates) in
  _select_best_executors self candidates K = slice_to K ranked
  /\ ranked ≡ₚ candidates
  /\ StronglySorted score_ge ranked
  /\ (forall s : score,
        (agent_id self, s) ∈ candidates ->
        (forall c, c ∈ candidates -> (c.2 <= s)%Qc) ->
        head ranked = Some (agent_id self, s))
  /\ _select_best_executors
       (mkAgent "self" 0 "" None [] None)
       [("A", Q2Qc (8 # 10)); ("self", Q2Qc (8 # 10)); ("B", Q2Qc (6 # 10))]
       1
     = [("self", Q2Qc (8 # 10))].
Proof.
  intros ranked. split; [done|].
  pose proof (sorted_desc_sorted candidates) as Hs.
  pose proof (sorted_desc_perm candidates) as Hp.
  split; [|split; [|split]].
  - unfold ranked. by rewrite prioritize_perm.
  - eapply sorted_by_scores; [|exact Hs]. by apply prioritize_scores.
  - intros s Hself Hmax. unfold ranked, _prioritize_self_execution.
    destruct (sorted_desc candidates) as [|first l] eqn:Hl.
    { rewrite <- Hp in Hself. by apply elem_of_nil in Hself. }
    assert (first.2 = s) as Hbest.
    { apply Qcle_antisym.
      - apply Hmax. rewrite <- Hp. apply elem_of_cons. by left.
      - apply (sorted_head_max (first :: l) first (agent_id self, s));
          [done|done|by rewrite Hp]. }
    rewrite Hbest.
    destruct (find_self_complete (agent_id self) s 0 (first :: l))
      as [[i c] Hf]; [by rewrite Hp|].
    rewrite Hf. apply find_self_Some in Hf as (_ & _ & ->).
    by destruct i.
  - vm_compute. reflexivity.
Qed.

End AgentFacts.

(** ** Consensus vote *)

Module VoteFacts.

Import UserRunner.

Lemma occurrences_snoc answer l x :
  occurrences answer (l ++ [x])
  = (occurrences answer l + if decide (answer = x) then 1 else 0)%nat.
Proof.
  unfold occurrences. rewrite filter_app, length_app. f_equal.
  rewrite filter_cons, filter_nil. by case_decide.
Qed.

Lemma occurrences_pos answer l :
  answer ∈ l <-> (0 < occurrences answer l)%nat.
Proof.
  unfold occurrences. split.
  - intros Hin. assert (answer ∈ filter (eq answer) l) as Hf
      by (by apply list_elem_of_filter).
    destruct (filter (eq answer) l); [by apply elem_of_nil in Hf|simpl; lia].
  - intros Hpos. destruct (filter (eq answer) l) as [|y f] eqn:Hf;
      [simpl in Hpos; lia|].
    assert (y ∈ filter (eq answer) l) as Hy by (rewrite Hf; left).
    apply list_elem_of_filter in Hy as [-> ?]. done.
Qed.

Lemma firsts_snoc l x :
  firsts (l ++ [x])
  = if decide (x ∈ firsts l) then firsts l else firsts l ++ [x].
Proof. unfold firsts. by rewrite fold_left_app. Qed.

Lemma firsts_elem_of l x : x ∈ firsts l <-> x ∈ l.
Proof.
  induction l as [|y l IH] using rev_ind; [done|].
  rewrite firsts_snoc, elem_of_app, list_elem_of_singleton.
  case_decide as Hd.
  - rewrite IH. split; [by left|]. intros [?| ->]; [done|by apply IH].
  - rewrite elem_of_app, list_elem_of_singleton, IH. done.
Qed.

Lemma firsts_NoDup l : NoDup (firsts l).
Proof.
  induction l as [|y l IH] using rev_ind; [constructor|].
  rewrite firsts_snoc. case_decide as Hd; [done|].
  apply NoDup_app. split; [done|]. split; [|apply NoDup_singleton].
  intros z Hz ->%list_elem_of_singleton. done.
Qed.

Lemma Counter_snoc l x : Counter (l ++ [x]) = counter_add x (Counter l).
Proof. unfold Counter. by rewrite fold_left_app. Qed.

Lemma counter_add_fmap (f g : string -> nat) x keys :
  NoDup keys ->
  (forall k, k <> x -> g k = f k) ->
  g x = S (f x) ->
  (x ∉ keys -> f x = 0%nat) ->
  counter_add x ((fun k => (k, f k)) <$> keys)
  = (fun k => (k, g k))
      <$> (if decide (x ∈ keys) then keys else keys ++ [x]).
Proof.
  intros Hnd Hother Hx Hfresh. induction keys as [|k keys IH].
  - case_decide as Hin; [by apply elem_of_nil in Hin|]. simpl.
    rewrite Hx, Hfresh; [done|apply not_elem_of_nil].
  - apply NoDup_cons in Hnd as [Hk Hnd]. rewrite fmap_cons.
    cbn [counter_add]. destruct (decide (k = x)) as [->|Hkx].
    + rewrite decide_True by left. rewrite fmap_cons, Hx. f_equal.
      apply list_fmap_ext. intros _ k Hin%list_elem_of_lookup_2.
      rewrite Hother; [done|]. by intros ->.
    + rewrite IH; [|done|].
      2:{ intros Hn. apply Hfresh. rewrite not_elem_of_cons. done. }
      destruct (decide (x ∈ keys)) as [Hin|Hin].
      * rewrite decide_True by (by right).
        by rewrite fmap_cons, (Hother k).
      * rewrite decide_False by (rewrite not_elem_of_cons; done).
        by rewrite <- app_comm_cons, fmap_cons, (Hother k).
Qed.

(** [Counter(l)] lists the distinct elements in the order they are first
    met, each with its number of occurrences. *)
Lemma Counter_firsts l :
  Counter l = (fun k => (k, occurrences k l)) <$> firsts l.
Proof.
  induction l as [|x l IH] using rev_ind; [done|].
  rewrite Counter_snoc, IH, firsts_snoc.
  apply counter_add_fmap.
  - apply firsts_NoDup.
  - intros k Hk. rewrite occurrences_snoc, decide_False by done. lia.
  - rewrite occurrences_snoc, decide_True by done. lia.
  - rewrite firsts_elem_of, occurrences_pos. lia.
Qed.

(** [max_by_count] returns the first item of greatest count. *)
Lemma max_by_count_first best items :
  exists before after,
    best :: items = before ++ max_by_count best items :: after
    /\ (forall item, item ∈ before ->
          (item.2 < (max_by_count best items).2)%nat)
    /\ (forall item, item ∈ best :: items ->
          (item.2 <= (max_by_count best items).2)%nat).
Proof.
  revert best. induction items as [|item items IH]; intros best; simpl.
  - exists [], []. split; [done|]. split.
    + intros it Hin. by apply elem_of_nil in Hin.
    + intros it Hin. apply list_elem_of_singleton in Hin. by subst.
  - destruct (decide (best.2 < item.2)%nat) as [Hlt|Hge].
    + destruct (IH item) as (before & after & Heq & Hb & Hall).
      exists (best :: before), after. rewrite Heq. split; [done|].
      assert (item.2 <= (max_by_count item items).2)%nat as Hle
        by (apply Hall; left).
      split; intros it Hin; apply elem_of_cons in Hin as [Hit|Hin].
      * subst it. lia.
      * by apply Hb.
      * subst it. lia.
      * apply Hall. by rewrite Heq.
    + destruct (IH best) as (before & after & Heq & Hb & Hall).
      assert (best.2 <= (max_by_count best items).2)%nat as Hle
        by (apply Hall; left).
      destruct before as [|b before]; simpl in Heq.
      * injection Heq as Hbest Hitems.
        exists [], (item :: after).
        split; [simpl; congruence|]. split; intros it Hin.
        -- by apply elem_of_nil in Hin.
        -- apply elem_of_cons in Hin as [Hit|Hin]; [by subst|].
           apply elem_of_cons in Hin as [Hit|Hin]; [subst; lia|].
           apply Hall. by right.
      * injection Heq as Hbest Hitems. subst b.
        exists (best :: item :: before), after.
        split; [simpl; congruence|]. split; intros it Hin.
        -- apply elem_of_cons in Hin as [Hit|Hin]; [subst; apply Hb; left|].
           apply elem_of_cons in Hin as [Hit|Hin]; [|apply Hb; by right].
           subst it. assert (best.2 < (max_by_count best items).2)%nat
             by (apply Hb; left). lia.
        -- apply elem_of_cons in Hin as [Hit|Hin]; [by subst|].
           apply elem_of_cons in Hin as [Hit|Hin]; [subst; lia|].
           apply Hall. by right.
Qed.

Lemma firsts_split l pre w post :
  firsts l = pre ++ w :: post ->
  exists before after,
    l = before ++ w :: after /\ (forall v, v ∈ before -> v ∈ pre).
Proof.
  revert pre post. induction l as [|x l IH] using rev_ind; intros pre post.
  - intros Heq. by destruct pre.
  - rewrite firsts_snoc. destruct (decide (x ∈ firsts l)) as [Hin|Hnin].
    + intros (before & after & -> & Hb)%IH.
      exists before, (after ++ [x]). split; [|done].
      by rewrite <- app_assoc.
    + destruct post as [|y post _] using rev_ind.
      * intros [Hpre ->]%app_inj_tail.
        exists l, []. split; [done|].
        intros v Hv. rewrite <- Hpre. by apply firsts_elem_of.
      * rewrite app_comm_cons, app_assoc.
        intros [Hpre ->]%app_inj_tail.
        apply IH in Hpre as (before & after & -> & Hb).
        exists before, (after ++ [y]). split; [|done].
        by rewrite <- app_assoc.
Qed.

Lemma counter_items_keys (g : string -> nat) keys :
  ((fun k => (k, g k)) <$> keys).*1 = keys.
Proof. induction keys as [|k keys IH]; [done|]. simpl. by f_equal. Qed.

(** The vote over a non-empty list of answers. *)
Lemma vote_results_plurality self :
  current_answers self <> [] ->
  exists winner,
    _vote_results self = inr winner
    /\ (forall answer,
          (occurrences answer (current_answers self)
           <= occurrences winner (current_answers self))%nat)
    /\ (exists before after,
          current_answers self = before ++ winner :: after
          /\ forall answer, answer ∈ before ->
               (occurrences answer (current_answers self)
                < occurrences winner (current_answers self))%nat).
Proof.
  intros Hne. unfold _vote_results.
  set (l := current_answers self) in *.
  destruct l as [|a0 l0] eqn:Hl; [done|]. rewrite <- Hl. clear Hne.
  assert (l <> []) as Hne by (by rewrite Hl). clearbody l.
  rewrite Counter_firsts.
  set (f := fun k : string => (k, occurrences k l)).
  destruct (firsts l) as [|k ks] eqn:Hf.
  { exfalso. destruct l as [|x l']; [done|].
    assert (x ∈ firsts (x :: l')) as Hx by (apply firsts_elem_of; left).
    rewrite Hf in Hx. by apply elem_of_nil in Hx. }
  rewrite fmap_cons. cbn [most_common_1].
  destruct (max_by_count_first (f k) (f <$> ks))
    as (before & after & Heq & Hb & Hall).
  set (m := max_by_count (f k) (f <$> ks)) in *.
  assert (m ∈ f <$> firsts l) as Hm.
  { rewrite Hf, fmap_cons, Heq. apply elem_of_app. right. left. }
  apply list_elem_of_fmap in Hm as (w & Hmw & Hw).
  exists w. rewrite Hmw. split; [done|].
  assert (forall answer, answer ∈ l -> f answer ∈ f k :: (f <$> ks)) as Hin.
  { intros answer Ha. rewrite <- fmap_cons, <- Hf.
    apply list_elem_of_fmap_2. by apply firsts_elem_of. }
  split.
  - intros answer. destruct (decide (answer ∈ l)) as [Ha|Ha].
    + apply Hin, Hall in Ha. by rewrite Hmw in Ha.
    + assert (occurrences answer l = 0)%nat as ->; [|lia].
      destruct (occurrences answer l) eqn:Hocc; [done|].
      destruct Ha. apply occurrences_pos. lia.
  - assert (firsts l = before.*1 ++ w :: after.*1) as Hsplit.
    { rewrite Hf.
      rewrite <- (counter_items_keys (fun k => occurrences k l) (k :: ks)).
      fold f. rewrite fmap_cons, Heq, fmap_app, fmap_cons.
      by rewrite Hmw. }
    apply firsts_split in Hsplit as (before' & after' & Hl' & Hpre).
    exists before', after'. split; [done|].
    intros answer Ha. apply Hpre in Ha.
    apply list_elem_of_fmap in Ha as ([a n] & -> & Ha). simpl.
    assert ((a, n) ∈ f <$> firsts l) as Hfa.
    { rewrite Hf, fmap_cons, Heq. apply elem_of_app. by left. }
    apply list_elem_of_fmap in Hfa as (a' & [= -> ->] & _).
    apply Hb in Ha. by rewrite Hmw in Ha.
Qed.

(** Below the threshold the listener only collects. *)
Lemma listen_results_collects arrivals :
  forall self,
    Z.of_nat (length (current_answers self) + length arrivals)
    < cot_num self ->
    let self' := _listen_results self (task_result_message <$> arrivals) in
    current_answers self'
    = current_answers self ++ ((fun a => result_ a.2) <$> arrivals)
    /\ final_result self' = final_result self
    /\ cot_num self' = cot_num self
    /\ result_event self' = result_event self.
Proof.
  unfold _listen_results.
  induction arrivals as [|[sender result] arrivals IH]; intros self Hlt.
  - simpl. by rewrite app_nil_r.
  - rewrite fmap_cons. cbn [fold_left].
    set (self1 := _listen_results_body self _).
    assert (self1
            = mkUserRunner (user self) (cot_num self) (running self)
                (answers self) (current_answers self ++ [result_ result])
                (full_answers self ++ [previous_results result])
                (result_event self) (final_result self)) as Hself1.
    { unfold self1, _listen_results_body, task_result_message. simpl.
      rewrite decide_False; [done|].
      rewrite length_app. simpl in *. lia. }
    destruct (IH self1) as (Hc & Hf & Hn & He).
    { rewrite Hself1. simpl. rewrite length_app. simpl in *. lia. }
    rewrite Hc, Hf, Hn, He, Hself1. simpl.
    by rewrite <- app_assoc.
Qed.

(** The arrival that reaches the threshold triggers the vote. *)
Lemma listen_results_votes self arrival :
  cot_num self <= Z.of_nat (length (current_answers self)) + 1 ->
  let self' := _listen_results_body self (task_result_message arrival) in
  current_answers self' = current_answers self ++ [result_ arrival.2]
  /\ _vote_results self' = inr (final_result self')
  /\ result_event self' = true.
Proof.
  intros Hle. destruct arrival as [sender result].
  unfold _listen_results_body, task_result_message. simpl.
  rewrite decide_True by (rewrite length_app; simpl; lia).
  set (self1 := mkUserRunner _ _ _ _ _ _ _ _).
  destruct (vote_results_plurality self1) as (winner & Hvote & _).
  { simpl. by destruct (current_answers self). }
  rewrite Hvote. simpl. split; [done|]. split; [|done].
  unfold _vote_results in *. simpl in *. exact Hvote.
Qed.

(** C3.  When the [cot_num]-th answer arrives the listener publishes the
    vote over the answers collected: an answer with the greatest number of
    occurrences under string equality and, among those, the one received
    first (every answer received before its first occurrence has strictly
    fewer votes); no vote is published before.  ["4","4","5"] with
    [cot_num = 3] gives ["4"]; ["a","b"] with [cot_num = 2] gives ["a"], and
    ["b","a"] gives ["b"]. *)
Theorem vote_is_plurality
    (self : UserRunner) (arrivals : list (string * TaskResult)) :
  arrivals <> [] ->
  current_answers self = [] ->
  cot_num self = Z.of_nat (length arrivals) ->
  let collected := (fun a => result_ a.2) <$> arrivals in
  let self' := _listen_results self (task_result_message <$> arrivals) in
  let winner := final_result self' in
  current_answers self' = collected
  /\ result_event self' = true
  /\ _vote_results self' = inr winner
  /\ (forall n, (n < length arrivals)%nat ->
        final_result
          (_listen_results self (task_result_message <$> take n arrivals))
        = final_result self)
  /\ (forall answer,
        (occurrences answer collected <= occurrences winner collected)%nat)
  /\ (exists before after,
        collected = before ++ winner :: after
        /\ forall answer, answer ∈ before ->
             (occurrences answer collected
              < occurrences winner collected)%nat)
  /\ final_result
       (_listen_results (fresh_runner 3)
          (task_result_message
             <$> [answer_from "agent-001" "4"; answer_from "agent-002" "4";
                  answer_from "agent-003" "5"]))
     = "4"
  /\ final_result
       (_listen_results (fresh_runner 2)
          (task_result_message
             <$> [answer_from "agent-001" "a"; answer_from "agent-002" "b"]))
     = "a"
  /\ final_result
       (_listen_results (fresh_runner 2)
          (task_result_message
             <$> [answer_from "agent-002" "b"; answer_from "agent-001" "a"]))
     = "b".
Proof.
  intros Hne Hempty Hnum collected self' winner.
  assert (forall n, (n < length arrivals)%nat ->
            let early := _listen_results self
                           (task_result_message <$> take n arrivals) in
            current_answers early
            = (fun a => result_ a.2) <$> take n arrivals
            /\ final_result early = final_result self
            /\ cot_num early = cot_num self) as Hearly.
  { intros n Hn.
    destruct (listen_results_collects (take n arrivals) self)
      as (Hc & Hf & Hk & _).
    { rewrite Hempty, length_take. simpl. lia. }
    rewrite Hempty in Hc. done. }
  destruct arrivals as [|last init _] using rev_ind; [done|]. clear Hne.
  rewrite length_app in Hnum, Hearly. simpl in Hnum, Hearly.
  destruct (Hearly (length init)) as (Hc & Hf & Hk); [lia|].
  rewrite take_app_length in Hc, Hf, Hk.
  set (early := _listen_results self (task_result_message <$> init)) in *.
  assert (self' = _listen_results_body early (task_result_message last))
    as Hself'.
  { unfold self', early, _listen_results.
    by rewrite fmap_app, fold_left_app. }
  destruct (listen_results_votes early last) as (Hc' & Hvote & Hev).
  { rewrite Hc, Hk, length_fmap. lia. }
  rewrite <- Hself' in Hc', Hvote, Hev.
  assert (current_answers self' = collected) as Hcol.
  { rewrite Hc', Hc. unfold collected. by rewrite fmap_app. }
  split; [done|]. split; [done|]. split; [done|]. split.
  { intros n Hn. rewrite length_app in Hn. simpl in Hn.
    by destruct (Hearly n) as (_ & ? & _); [lia|]. }
  destruct (vote_results_plurality self') as (w & Hw & Hmax & Hfirst).
  { rewrite Hcol. unfold collected. rewrite fmap_app.
    intros [_ Hnil]%app_eq_nil. discriminate Hnil. }
  rewrite Hvote in Hw. injection Hw as <-. rewrite Hcol in Hmax, Hfirst.
  split; [done|]. split; [done|].
  repeat split; vm_compute; reflexivity.
Qed.

(** The premises hold for three answers and [cot_num = 3]. *)
Lemma vote_is_plurality_witness :
  _vote_results
    (_listen_results (fresh_runner 3)
       (task_result_message
          <$> [answer_from "agent-001" "4"; answer_from "agent-002" "4";
               answer_from "agent-003" "5"]))
  = inr (final_result
           (_listen_results (fresh_runner 3)
              (task_result_message
                 <$> [answer_from "agent-001" "4"; answer_from "agent-002" "4";
                      answer_from "agent-003" "5"]))).
Proof.
  refine (proj1 (proj2 (proj2 (vote_is_plurality (fresh_runner 3)
            [answer_from "agent-001" "4"; answer_from "agent-002" "4";
             answer_from "agent-003" "5"] _ _ _)))).
  - discriminate.
  - reflexivity.
  - reflexivity.
Defined.

End VoteFacts.

(** ** Batch checkpoints *)

Module BatchFacts.

Import UserRunner.

(** Twelve problems that all complete are saved in three calls, of 5, 5
    and 2 records. *)
Lemma twelve_problems_three_saves :
  exists st,
    process_task_batch batch_world batch_runner twelve_problems [] None
    = inr st
    /\ length <$> save_calls st = [5; 5; 2]%nat
    /\ length (file st) = 12%nat.
Proof. eexists. split; [vm_compute; reflexivity|]. split; reflexivity. Qed.

(** C8 (the code at the failing input).  With twelve problems of which the
    fifth raises ([initiate_task] rejects its empty text), the error record
    is counted but the test for a multiple of five is not made: the first
    save is the one after the tenth problem and writes 10 records, the
    second writes 2. *)
Theorem checkpoint_skipped_after_error :
  exists st,
    process_task_batch batch_world batch_runner twelve_problems_fifth_empty
                       [] None
    = inr st
    /\ length <$> save_calls st = [10; 2]%nat
    /\ processed_count st = 12.
Proof. eexists. split; [vm_compute; reflexivity|]. split; reflexivity. Qed.

End BatchFacts.

(** ** User construction *)

Module UserFacts.

Lemma initialize_neighbors_not_positive neighbours net :
  (User._initialize_neighbors neighbours net).2 <> inl User.not_positive.
Proof.
  revert net. induction neighbours as [|[node_id address port|] rest IH];
    intros net; simpl; [done| |done].
  specialize (IH (User.add_neighbor node_id address port net)).
  by destruct (User._initialize_neighbors rest _).
Qed.


End UserFacts.

(** ** Rounding and clamping of scores *)

Module NumberFacts.

(** *** Rounding *)

Lemma round_half_even_proper (q q' : Q) :
  (q == q')%Q -> round_half_even q = round_half_even q'.
Proof.
  intros Hq. unfold round_half_even.
  rewrite (Qfloor_comp _ _ Hq).
  assert ((q - inject_Z (Qfloor q') ?= 1 # 2)%Q
          = (q' - inject_Z (Qfloor q') ?= 1 # 2)%Q) as ->; [|done].
  apply Qcompare_comp; [|reflexivity]. by rewrite Hq.
Qed.

Lemma round_half_even_Z (k : Z) : round_half_even (inject_Z k) = k.
Proof.
  unfold round_half_even. rewrite Qfloor_Z.
  assert ((inject_Z k - inject_Z k ?= 1 # 2)%Q = Lt) as ->; [|done].
  apply (proj1 (Qlt_alt _ _)).
  unfold Qlt, Qminus, Qplus, Qopp, inject_Z. simpl. lia.
Qed.

Lemma round_half_even_nonneg (q : Q) :
  (0 <= q)%Q -> 0 <= round_half_even q.
Proof.
  intros Hq. unfold round_half_even.
  assert (0 <= Qfloor q) as Hf.
  { change 0 with (Qfloor (inject_Z 0)). by apply Qfloor_resp_le. }
  destruct (_ ?= _)%Q; [destruct (Z.even _)| |]; lia.
Qed.

Lemma round_half_even_le (q : Q) (n : Z) :
  (q <= inject_Z n)%Q -> round_half_even q <= n.
Proof.
  intros Hq. unfold round_half_even.
  assert (Qfloor q <= n) as Hf.
  { rewrite <- (Qfloor_Z n). by apply Qfloor_resp_le. }
  destruct (decide (Qfloor q = n)) as [Heq|Hne].
  - assert ((q - inject_Z (Qfloor q) ?= 1 # 2)%Q = Lt) as ->; [|lia].
    apply (proj1 (Qlt_alt _ _)). rewrite Heq.
    apply Qle_lt_trans with (y := 0%Q); [|done].
    apply (Qplus_le_l _ _ (inject_Z n)). ring_simplify. exact Hq.
  - destruct (_ ?= _)%Q; [destruct (Z.even _)| |]; lia.
Qed.

Lemma round3_Q (x : Qc) :
  (round3 x == inject_Z (round_half_even (x * inject_Z 1000)) / inject_Z 1000)%Q.
Proof. unfold round3. apply Qred_correct. Qed.

Lemma round3_idempotent (x : Qc) : round3 (round3 x) = round3 x.
Proof.
  assert (round_half_even (round3 x * inject_Z 1000)%Q
          = round_half_even (x * inject_Z 1000)%Q) as Hk.
  { etrans; [|apply round_half_even_Z].
    apply round_half_even_proper. rewrite round3_Q. field. }
  unfold round3 at 1. rewrite Hk. done.
Qed.

Lemma round3_nonneg (x : Qc) : (0 <= x)%Qc -> (0 <= round3 x)%Qc.
Proof.
  intros Hx. unfold Qcle. rewrite round3_Q. simpl.
  assert (0 <= round_half_even (x * inject_Z 1000)) as Hk.
  { apply round_half_even_nonneg. apply Qmult_le_0_compat; [done|done]. }
  set (k := round_half_even _) in *. clearbody k.
  unfold Qle, Qdiv, Qmult, Qinv, inject_Z. simpl. lia.
Qed.

Lemma round3_le_1 (x : Qc) : (x <= 1)%Qc -> (round3 x <= 1)%Qc.
Proof.
  intros Hx. unfold Qcle. rewrite round3_Q. simpl.
  assert (round_half_even (x * inject_Z 1000) <= 1000) as Hk.
  { apply round_half_even_le.
    change (inject_Z 1000) with (1 * inject_Z 1000)%Q at 2.
    apply Qmult_le_compat_r; [done|done]. }
  set (k := round_half_even _) in *. clearbody k.
  unfold Qle, Qdiv, Qmult, Qinv, inject_Z. simpl. lia.
Qed.

(** *** Clamping *)

Lemma max_0_nonneg (y : Qc) : (0 <= max_ 0 y)%Qc.
Proof.
  unfold max_. case_decide as Hlt; [by apply Qclt_le_weak|apply Qcle_refl].
Qed.

Lemma max_0_id (y : Qc) : (0 <= y)%Qc -> max_ 0 y = y.
Proof.
  intros Hy. unfold max_. case_decide as Hlt; [done|].
  apply Qcle_antisym; [done|]. by apply Qcnot_lt_le.
Qed.

Lemma min_1_le (y : Qc) : (min_ 1 y <= 1)%Qc.
Proof.
  unfold min_. case_decide as Hlt; [by apply Qclt_le_weak|apply Qcle_refl].
Qed.

Lemma min_1_id (y : Qc) : (y <= 1)%Qc -> min_ 1 y = y.
Proof.
  intros Hy. unfold min_. case_decide as Hlt; [done|].
  apply Qcle_antisym; [by apply Qcnot_lt_le|done].
Qed.

Lemma clamp_range (ms : Qc) :
  (0 <= max_ 0 (min_ 1 ms))%Qc /\ (max_ 0 (min_ 1 ms) <= 1)%Qc.
Proof.
  split; [apply max_0_nonneg|].
  unfold max_. case_decide; [apply min_1_le|done].
Qed.

Lemma clamp_round3_clamp (ms : Qc) :
  round3 (max_ 0 (min_ 1 (round3 (max_ 0 (min_ 1 ms)))))
  = round3 (max_ 0 (min_ 1 ms)).
Proof.
  destruct (clamp_range ms) as [H0 H1].
  rewrite min_1_id by (by apply round3_le_1).
  rewrite max_0_id by (by apply round3_nonneg).
  apply round3_idempotent.
Qed.

Lemma floor_round3_floor (ec : Qc) :
  round3 (max_ 0 (round3 (max_ 0 ec))) = round3 (max_ 0 ec).
Proof.
  rewrite (max_0_id (round3 _)) by apply round3_nonneg, max_0_nonneg.
  apply round3_idempotent.
Qed.

End NumberFacts.

(** ** Protocol messages *)

Module ProtocolFacts.

Import NumberFacts.

(** *** Beacon *)

Lemma beacon_constructed_task_id b :
  Beacon.constructed b -> truthy (Beacon.task_id b) = true.
Proof.
  assert (forall fresh v, fresh <> "" ->
            truthy (or_value v (VStr fresh)) = true) as Hor.
  { intros fresh v Hne. unfold or_value.
    destruct (truthy v) eqn:Hv; [done|]. simpl. by apply bool_decide_eq_true. }
  destruct 1; simpl; by apply Hor.
Qed.

Lemma beacon_from_dict_to_dict b fresh fresh' now now' :
  Beacon.from_dict fresh fresh' now now' (Beacon.to_dict b)
  = Beacon.mkBeacon (Beacon.beacon_id b) (Beacon.sender b)
      (or_value (Beacon.task_id b) (VStr fresh)) (Beacon.requirement b)
      (Beacon.ttl b) (Beacon.timestamp b).
Proof. reflexivity. Qed.

(** *** BeaconResponse *)

Lemma response_constructed_scores r :
  BeaconResponse.constructed r ->
  exists ms ec,
    BeaconResponse.match_score r = VNum (round3 (max_ 0 (min_ 1 ms)))
    /\ BeaconResponse.estimate_cost r = VNum (round3 (max_ 0 ec)).
Proof.
  assert (forall fresh now rid tid ms ec r,
            BeaconResponse.__init__ fresh now rid tid ms ec = inr r ->
            exists ms ec,
              BeaconResponse.match_score r
              = VNum (round3 (max_ 0 (min_ 1 ms)))
              /\ BeaconResponse.estimate_cost r
                 = VNum (round3 (max_ 0 ec))) as Hinit.
  { intros fresh now rid tid ms ec r0. unfold BeaconResponse.__init__.
    destruct ms as [| |ms]; try done. destruct ec as [| |ec]; try done.
    intros [= <-]. by exists ms, ec. }
  destruct 1 as [fresh now rid tid ms ec r Hr|fresh fresh' now now' data r Hr].
  - by eapply Hinit.
  - unfold BeaconResponse.from_dict in Hr.
    destruct (BeaconResponse.__init__ _ _ _ _ _ _) as [e|resp] eqn:Hresp;
      [done|].
    injection Hr as <-. simpl. by eapply Hinit.
Qed.

Lemma response_to_dict_get r d :
  get (BeaconResponse.to_dict r) "response_id" d
  = BeaconResponse.response_id r
  /\ get (BeaconResponse.to_dict r) "responder_id" d
     = BeaconResponse.responder_id r
  /\ get (BeaconResponse.to_dict r) "task_id" d = BeaconResponse.task_id r
  /\ get (BeaconResponse.to_dict r) "match_score" d
     = BeaconResponse.match_score r
  /\ get (BeaconResponse.to_dict r) "estimate_cost" d
     = BeaconResponse.estimate_cost r
  /\ get (BeaconResponse.to_dict r) "timestamp" d
     = BeaconResponse.timestamp r.
Proof. repeat split; reflexivity. Qed.

Lemma round3_clamp_one : round3 (max_ 0 (min_ 1 1)) = 1%Qc.
Proof. apply Qc_is_canon. reflexivity. Qed.


End ProtocolFacts.

(** ** The gate of the task loop *)

Module GateFacts.

Import AgentRunner.

Lemma active_from n trace :
  fold_left
    (fun n ev =>
       match ev with
       | ExecuteBegin _ => n + 1
       | ExecuteEnd _ => n - 1
       | _ => n
       end) trace n
  = n + active trace.
Proof.
  unfold active. revert n.
  induction trace as [|ev trace IH]; intros n; simpl; [lia|].
  rewrite IH, (IH (match ev with ExecuteBegin _ => _ | _ => _ end)).
  destruct ev; lia.
Qed.

Lemma active_app trace trace' :
  active (trace ++ trace') = active trace + active trace'.
Proof. unfold active at 1. rewrite fold_left_app. apply active_from. Qed.

(** The calls of one pass: at most one execution, begun and ended. *)
Lemma pass_trace self env :
  active (_listen_tasks_body self env).2 = 0
  /\ exclusive (_listen_tasks_body self env).2.
Proof.
  assert (forall trace : list event,
            trace = [] \/ (exists t, trace = [Assign t])
            \/ (exists t o, trace = [ExecuteBegin t; ExecuteEnd o])
            \/ (exists t o u f p,
                  trace = [ExecuteBegin t; ExecuteEnd o; Submit u f p])
            \/ (exists t o t',
                  trace = [ExecuteBegin t; ExecuteEnd o; Assign t']) ->
            active trace = 0 /\ exclusive trace) as Hshape.
  { intros trace Hcases. split.
    - destruct Hcases as
        [->|[(?&->)|[(?&?&->)|[(?&?&?&?&?&->)|(?&?&?&->)]]]]; done.
    - intros p [k Hk].
      destruct Hcases as
        [->|[(?&->)|[(?&?&->)|[(?&?&?&?&?&->)|(?&?&?&->)]]]];
        repeat (destruct p as [|? p]; simplify_eq/=; try (cbv; split; congruence)). }
  apply Hshape. unfold _listen_tasks_body, _listen_tasks_try.
  repeat (case_match || case_decide); simplify_eq/=; eauto 10.
Qed.

Lemma listen_tasks_exclusive envs :
  forall self,
    active (_listen_tasks envs self).2 = 0
    /\ exclusive (_listen_tasks envs self).2.
Proof.
  induction envs as [|env envs IH]; intros self; simpl.
  { split; [done|]. intros p [k Hk]. symmetry in Hk.
    apply app_eq_nil in Hk as [-> _]. done. }
  destruct (running self); simpl.
  2:{ split; [done|]. intros p [k Hk]. symmetry in Hk.
      apply app_eq_nil in Hk as [-> _]. done. }
  destruct (pass_trace self env) as [Hzero Hexcl].
  destruct (_listen_tasks_body self env) as [self1 trace].
  destruct (IH self1) as [Hzero' Hexcl'].
  destruct (_listen_tasks envs self1) as [self2 trace']. simpl in *.
  split; [rewrite active_app; lia|].
  intros p [k Hk]. apply app_eq_inv in Hk as [(m & -> & ->)|(m & -> & ->)].
  - apply Hexcl. by exists m.
  - rewrite active_app, Hzero. apply Hexcl'. by exists k.
Qed.

Lemma try_keeps_running self env :
  running (_listen_tasks_try self env).1.1 = running self.
Proof.
  unfold _listen_tasks_try.
  repeat (case_match || case_decide); simplify_eq/=; done.
Qed.

(** The relay hands the dictionary it received to [assign_task], which reads
    attributes a dictionary does not have. *)
Lemma relay_of_dictionary_raises agent fresh now task :
  assign_task agent fresh now (TaskDictV task)
  = inl (AttributeError "'dict' object has no attribute 'subtask_id'").
Proof. reflexivity. Qed.




End GateFacts.

(** ** Capability matching *)

Module CapabilityFacts.

Import Difflib.

Local Open Scope nat_scope.

Section Scan.

Variables a b : list ascii.
Variables alo blo bhi : nat.

Local Abbreviation rl := (run_length a b alo blo bhi).
Local Abbreviation ok := (matchable a b alo blo bhi).

Lemma run_length_unfold i j :
  rl i j
  = if ok i j
    then S (match i, j with S i', S j' => rl i' j' | _, _ => 0 end)
    else 0.
Proof. by destruct i. Qed.

Lemma run_length_pos i j : 0 < rl i j -> ok i j = true.
Proof. rewrite run_length_unfold. destruct (ok i j); [done|lia]. Qed.

Lemma matchable_true i j :
  ok i j = true <->
  alo <= i /\ blo <= j < bhi
  /\ exists x, a !! i = Some x /\ b !! j = Some x /\ popular b x = false.
Proof.
  unfold matchable. rewrite !andb_true_iff, !bool_decide_eq_true.
  split.
  - intros [[Hi Hj] Hc].
    destruct (a !! i) as [x|], (b !! j) as [y|]; try done.
    apply andb_true_iff in Hc as [->%bool_decide_eq_true Hp].
    apply negb_true_iff in Hp. eauto 10.
  - intros (Hi & Hj & x & -> & -> & Hp).
    rewrite bool_decide_eq_true_2, Hp by done. done.
Qed.

Lemma run_length_le_i i : forall j, rl i j <= i + 1 - alo.
Proof.
  induction i as [|i IH]; intros j; rewrite run_length_unfold;
    destruct (ok _ j) eqn:Hok; try lia;
    apply matchable_true in Hok as (Hi & _).
  - lia.
  - destruct j as [|j]; [lia|]. specialize (IH j).
    destruct (decide (0 < rl i j)) as [Hpos|Hz]; [|lia].
    apply run_length_pos, matchable_true in Hpos as (? & _). lia.
Qed.

Lemma run_length_le_j i : forall j, rl i j <= j + 1 - blo.
Proof.
  induction i as [|i IH]; intros j; rewrite run_length_unfold;
    destruct (ok _ j) eqn:Hok; try lia;
    apply matchable_true in Hok as (_ & Hj & _).
  - lia.
  - destruct j as [|j]; [lia|]. specialize (IH j).
    destruct (decide (0 < rl i j)) as [Hpos|Hz]; [|lia].
    apply run_length_pos, matchable_true in Hpos as (_ & ? & _). lia.
Qed.

(** Meeting the pair [(i, j)]. *)
Lemma first_longest_step i j best :
  alo <= i ->
  first_longest a b alo blo bhi (i, j) best ->
  first_longest a b alo blo bhi (i, S j)
    (if decide (best.2 < rl i j)
     then (i + 1 - rl i j, j + 1 - rl i j, rl i j) else best).
Proof.
  intros Hi. destruct best as [[bi bj] k]. simpl.
  intros [Hmax Hfirst].
  assert (forall i' j', before (i', j') (i, S j) ->
            before (i', j') (i, j) \/ (i' = i /\ j' = j)) as Hcases.
  { intros i' j' [?|[? ?]]; simpl in *; [left; by left|].
    destruct (decide (j' = j)); [by right|]. left. right. simpl. lia. }
  assert (forall p, before p (i, j) -> before p (i, S j)) as Hmono.
  { intros p [?|[? ?]]; simpl in *; [by left|]. right. simpl. lia. }
  case_decide as Hlt; simpl.
  - split.
    + intros i' j' Hi' [Hb| [-> ->]]%Hcases; [|done].
      specialize (Hmax i' j' Hi' Hb). lia.
    + right. exists i, j. repeat split; try done; try lia.
      * right. simpl. lia.
      * intros i' j' Hi' Hb. specialize (Hmax i' j' Hi' Hb). lia.
  - split.
    + intros i' j' Hi' [Hb| [-> ->]]%Hcases; [by apply Hmax|lia].
    + destruct Hfirst as [?|(i0 & j0 & ? & ? & ?)]; [by left|].
      right. exists i0, j0. split; [done|]. split; [by apply Hmono|done].
Qed.

(** Passing a pair that cannot match. *)
Lemma first_longest_skip i j best :
  alo <= i -> rl i j = 0 ->
  first_longest a b alo blo bhi (i, j) best ->
  first_longest a b alo blo bhi (i, S j) best.
Proof.
  intros Hi Hz H. apply (first_longest_step i j best Hi) in H.
  rewrite Hz in H. by rewrite decide_False in H by lia.
Qed.

(** Going to the next row when nothing is left to match in this one. *)
Lemma first_longest_next_row i j best :
  alo <= i ->
  (forall j', j <= j' -> rl i j' = 0) ->
  first_longest a b alo blo bhi (i, j) best ->
  first_longest a b alo blo bhi (S i, 0) best.
Proof.
  intros Hi Hrest. destruct best as [[bi bj] k]. simpl.
  intros [Hmax Hfirst].
  assert (forall p, before p (i, j) -> before p (S i, 0)) as Hmono.
  { intros p [?|[? ?]]; simpl in *; left; simpl; lia. }
  split.
  - intros i' j' Hi' [Hb|[_ Hb]]; simpl in *; [|lia].
    destruct (decide (i' = i)) as [->|Hne].
    + destruct (decide (j' < j)) as [Hj|Hj].
      * apply Hmax; [done|]. right. done.
      * rewrite Hrest by lia. lia.
    + apply Hmax; [done|]. left. simpl. lia.
  - destruct Hfirst as [?|(i0 & j0 & ? & ? & ?)]; [by left|].
    right. exists i0, j0. split; [done|]. split; [by apply Hmono|done].
Qed.

Local Abbreviation previous_row := (Difflib.previous_row a b alo blo bhi).

Lemma run_length_previous j2len i j :
  (forall j', default 0 (j2len !! j') = previous_row i j') ->
  ok i j = true ->
  rl i j = S (j2lenget j2len j).
Proof.
  intros Hprev Hok. rewrite run_length_unfold, Hok. f_equal.
  unfold j2lenget. destruct j as [|j]; [by destruct i|].
  rewrite Hprev. by destruct i.
Qed.

Lemma run_length_zero i j : ok i j = false -> rl i j = 0.
Proof. intros Hok. by rewrite run_length_unfold, Hok. Qed.

(** A row of the scan: the loop over the indices of [a[i]] in [b]. *)
Lemma scan_row_spec i x j2len :
  alo <= i ->
  a !! i = Some x ->
  popular b x = false ->
  (forall j', default 0 (j2len !! j') = previous_row i j') ->
  forall n s newj2len best,
    s + n = length b ->
    (forall j', j' < s -> default 0 (newj2len !! j') = rl i j') ->
    (forall j', s <= j' -> newj2len !! j' = None) ->
    first_longest a b alo blo bhi (i, s) best ->
    let r := scan_row blo bhi i j2len
               (filter (fun j => b !! j = Some x) (seq s n)) newj2len best in
    (forall j', default 0 (r.1 !! j') = rl i j')
    /\ first_longest a b alo blo bhi (S i, 0) r.2.
Proof.
  intros Hi Hx Hpop Hprev.
  assert (forall j, b !! j <> Some x -> rl i j = 0) as Hother.
  { intros j Hne. apply run_length_zero.
    destruct (ok i j) eqn:Hok; [|done].
    apply matchable_true in Hok as (_ & _ & y & Hy & Hb & _).
    congruence. }
  induction n as [|n IH]; intros s new best Hlen Hdone Hfree Hbest.
  - simpl. split.
    + intros j'. destruct (decide (j' < s)); [by apply Hdone|].
      rewrite Hfree by lia. symmetry. apply Hother.
      rewrite lookup_ge_None_2 by lia. done.
    + apply (first_longest_next_row i s); [done| |done].
      intros j' Hj'. apply Hother. rewrite lookup_ge_None_2 by lia. done.
  - cbn [seq]. rewrite filter_cons.
    destruct (decide (b !! s = Some x)) as [Hbs|Hbs].
    2:{ apply IH; [lia| | |].
        - intros j' Hj'. destruct (decide (j' = s)) as [->|];
            [|apply Hdone; lia].
          rewrite Hfree by lia. symmetry. by apply Hother.
        - intros j' Hj'. apply Hfree. lia.
        - apply first_longest_skip; [done|by apply Hother|done]. }
    cbn [scan_row].
    destruct (decide (s < blo)) as [Hlow|Hlow].
    { assert (rl i s = 0) as Hz.
      { apply run_length_zero. destruct (ok i s) eqn:Hok; [|done].
        apply matchable_true in Hok as (_ & ? & _). lia. }
      apply IH; [lia| | |].
      - intros j' Hj'. destruct (decide (j' = s)) as [->|];
          [|apply Hdone; lia].
        rewrite Hfree by lia. done.
      - intros j' Hj'. apply Hfree. lia.
      - by apply first_longest_skip. }
    destruct (decide (bhi <= s)) as [Hhigh|Hhigh].
    { assert (forall j', s <= j' -> rl i j' = 0) as Hz.
      { intros j' Hj'. apply run_length_zero.
        destruct (ok i j') eqn:Hok; [|done].
        apply matchable_true in Hok as (_ & ? & _). lia. }
      simpl. split.
      - intros j'. destruct (decide (j' < s)); [by apply Hdone|].
        rewrite Hfree, Hz by lia. done.
      - by apply (first_longest_next_row i s). }
    assert (ok i s = true) as Hok.
    { apply matchable_true. split; [done|]. split; [lia|]. eauto. }
    rewrite <- (run_length_previous j2len i s Hprev Hok).
    apply IH; [lia| | |].
    + intros j' Hj'. destruct (decide (j' = s)) as [->|].
      * by rewrite lookup_insert_eq.
      * rewrite lookup_insert_ne by done. apply Hdone. lia.
    + intros j' Hj'. rewrite lookup_insert_ne by lia. apply Hfree. lia.
    + by apply first_longest_step.
Qed.

(** One pass of the loop over [i]. *)
Lemma scan_step_spec i j2len best :
  alo <= i ->
  (forall j', default 0 (j2len !! j') = previous_row i j') ->
  first_longest a b alo blo bhi (i, 0) best ->
  let r := scan_row blo bhi i j2len
             (match a !! i with Some elt => b2j_get b elt | None => [] end)
             ∅ best in
  (forall j', default 0 (r.1 !! j') = previous_row (S i) j')
  /\ first_longest a b alo blo bhi (S i, 0) r.2.
Proof.
  intros Hi Hprev Hbest. simpl.
  assert ((forall j, rl i j = 0) ->
          (forall j', default 0 ((∅ : gmap nat nat) !! j') = rl i j')
          /\ first_longest a b alo blo bhi (S i, 0) best) as Hempty.
  { intros Hz. split; [intros j'; by rewrite lookup_empty, Hz|].
    apply (first_longest_next_row i 0); [done|by intros; apply Hz|done]. }
  destruct (a !! i) as [x|] eqn:Hx.
  - unfold b2j_get. destruct (popular b x) eqn:Hpop.
    + apply Hempty. intros j. apply run_length_zero.
      destruct (ok i j) eqn:Hok; [|done].
      apply matchable_true in Hok as (_ & _ & y & Hy & _ & Hp). congruence.
    + apply (scan_row_spec i x j2len Hi Hx Hpop Hprev (length b) 0 ∅ best);
        [done|intros; lia|intros; apply lookup_empty|done].
  - apply Hempty. intros j. apply run_length_zero.
    destruct (ok i j) eqn:Hok; [|done].
    apply matchable_true in Hok as (_ & _ & y & Hy & _). congruence.
Qed.

Lemma scan_loop_spec n :
  forall i j2len best,
    alo <= i ->
    (forall j', default 0 (j2len !! j') = previous_row i j') ->
    first_longest a b alo blo bhi (i, 0) best ->
    first_longest a b alo blo bhi (i + n, 0)
      (fold_left
         (fun '(j2len, best) i =>
            scan_row blo bhi i j2len
              (match a !! i with Some elt => b2j_get b elt | None => [] end)
              ∅ best)
         (seq i n) (j2len, best)).2.
Proof.
  induction n as [|n IH]; intros i j2len best Hi Hprev Hbest.
  - simpl. by rewrite Nat.add_0_r.
  - cbn [seq fold_left].
    destruct (scan_step_spec i j2len best Hi Hprev Hbest) as [Hrow Hbest'].
    destruct (scan_row _ _ _ _ _ _ _) as [j2len' best'].
    replace (i + S n) with (S i + n) by lia.
    apply IH; [lia|done|done].
Qed.

Lemma previous_row_first i j : i <= alo -> previous_row i j = 0.
Proof.
  intros Hle. destruct i as [|i]; [done|]. simpl.
  apply run_length_zero.
  destruct (ok i j) eqn:Hok; [|done].
  apply matchable_true in Hok as (? & _). lia.
Qed.

(** The scan returns the first longest run of the whole range. *)
Lemma scan_spec ahi :
  alo <= ahi ->
  first_longest a b alo blo bhi (ahi, 0) (scan a b alo ahi blo bhi).
Proof.
  intros Hle. unfold scan.
  replace ahi with (alo + (ahi - alo)) at 1 by lia.
  apply scan_loop_spec; [done| |].
  - intros j'. rewrite lookup_empty. simpl.
    by rewrite previous_row_first.
  - split; [|by left].
    intros i j Hi [?|[? ?]]; simpl in *; lia.
Qed.

End Scan.

Section Blocks.

Variables a b : list ascii.

Lemma scan_bounds alo ahi blo bhi besti bestj bestsize :
  alo <= ahi -> blo <= bhi ->
  scan a b alo ahi blo bhi = (besti, bestj, bestsize) ->
  alo <= besti /\ besti + bestsize <= ahi
  /\ blo <= bestj /\ bestj + bestsize <= bhi.
Proof.
  intros Ha Hb Hscan. pose proof (scan_spec a b alo blo bhi ahi Ha) as Hs.
  rewrite Hscan in Hs. destruct Hs as [_ [(-> & -> & ->)|Hs]]; [lia|].
  destruct Hs as (i & j & Hi & Hbefore & Hk & Hpos & -> & -> & _).
  pose proof (run_length_le_i a b alo blo bhi i j).
  pose proof (run_length_le_j a b alo blo bhi i j).
  rewrite Hk in Hpos.
  apply run_length_pos, matchable_true in Hpos as (_ & ? & _).
  destruct Hbefore as [?|[? ?]]; simpl in *; lia.
Qed.

Lemma extend_back_bounds alo blo besti :
  forall bestj bestsize i j k,
    extend_back a b alo blo besti bestj bestsize = (i, j, k) ->
    alo <= besti -> blo <= bestj ->
    alo <= i /\ blo <= j
    /\ i + k = besti + bestsize /\ j + k = bestj + bestsize.
Proof.
  induction besti as [|besti IH]; intros bestj bestsize i j k; simpl.
  - intros [= <- <- <-]. lia.
  - destruct bestj as [|bestj]; [intros [= <- <- <-]; lia|].
    case_decide as Hc; [|intros [= <- <- <-]; lia].
    intros Hext ? ?. apply IH in Hext; lia.
Qed.

Lemma extend_fwd_bounds ahi bhi besti bestj n :
  forall bestsize,
    besti + bestsize <= ahi -> bestj + bestsize <= bhi ->
    let k := extend_fwd a b ahi bhi besti bestj n bestsize in
    bestsize <= k /\ besti + k <= ahi /\ bestj + k <= bhi.
Proof.
  induction n as [|n IH]; intros bestsize Ha Hb; simpl; [lia|].
  case_decide as Hc; [|lia].
  specialize (IH (S bestsize)). simpl in IH. lia.
Qed.

Lemma find_longest_match_bounds alo ahi blo bhi i j k :
  alo <= ahi -> blo <= bhi ->
  find_longest_match a b alo ahi blo bhi = (i, j, k) ->
  alo <= i /\ i + k <= ahi /\ blo <= j /\ j + k <= bhi.
Proof.
  intros Ha Hb. unfold find_longest_match.
  destruct (scan a b alo ahi blo bhi) as [[i0 j0] k0] eqn:Hscan.
  apply scan_bounds in Hscan as (? & ? & ? & ?); [|done..].
  destruct (extend_back a b alo blo i0 j0 k0) as [[i1 j1] k1] eqn:Hback.
  apply extend_back_bounds in Hback as (? & ? & ? & ?); [|done..].
  intros [= <- <- <-].
  pose proof (extend_fwd_bounds ahi bhi i1 j1 (ahi - (i1 + k1)) k1) as Hf.
  simpl in Hf. lia.
Qed.

(** The blocks fit in both ranges. *)
Lemma matches_le fuel :
  forall alo ahi blo bhi,
    alo <= ahi -> blo <= bhi ->
    matches a b fuel alo ahi blo bhi <= ahi - alo
    /\ matches a b fuel alo ahi blo bhi <= bhi - blo.
Proof.
  induction fuel as [|fuel IH]; intros alo ahi blo bhi Ha Hb; simpl; [lia|].
  destruct (find_longest_match a b alo ahi blo bhi) as [[i j] k] eqn:Hflm.
  apply find_longest_match_bounds in Hflm as (? & ? & ? & ?); [|done..].
  destruct (decide (k = 0)); [lia|].
  assert ((if decide (alo < i /\ blo < j)
           then matches a b fuel alo i blo j else 0) <= i - alo
          /\ (if decide (alo < i /\ blo < j)
              then matches a b fuel alo i blo j else 0) <= j - blo)
    as [? ?].
  { destruct (decide (alo < i /\ blo < j)); [apply IH; lia|lia]. }
  assert ((if decide (i + k < ahi /\ j + k < bhi)
           then matches a b fuel (i + k) ahi (j + k) bhi else 0)
          <= ahi - (i + k)
          /\ (if decide (i + k < ahi /\ j + k < bhi)
              then matches a b fuel (i + k) ahi (j + k) bhi else 0)
             <= bhi - (j + k))
    as [? ?].
  { destruct (decide (i + k < ahi /\ j + k < bhi)); [apply IH; lia|lia]. }
  lia.
Qed.

(** More fuel than the length of the range changes nothing. *)
Lemma matches_fuel fuel :
  forall fuel' alo ahi blo bhi,
    alo <= ahi -> blo <= bhi ->
    ahi - alo < fuel -> ahi - alo < fuel' ->
    matches a b fuel alo ahi blo bhi = matches a b fuel' alo ahi blo bhi.
Proof.
  induction fuel as [|fuel IH]; intros fuel' alo ahi blo bhi Ha Hb Hf Hf';
    [lia|].
  destruct fuel' as [|fuel']; [lia|]. simpl.
  destruct (find_longest_match a b alo ahi blo bhi) as [[i j] k] eqn:Hflm.
  apply find_longest_match_bounds in Hflm as (? & ? & ? & ?); [|done..].
  destruct (decide (k = 0)); [done|]. f_equal; [f_equal|].
  - destruct (decide (alo < i /\ blo < j)); [|done]. apply IH; lia.
  - destruct (decide (i + k < ahi /\ j + k < bhi)); [|done]. apply IH; lia.
Qed.

End Blocks.

(** A sequence against itself. *)
Section Same.

Variable s : list ascii.
Variables lo hi : nat.

Local Abbreviation rl := (run_length s s lo lo hi).

(** A run off the diagonal is no longer than the run on the diagonal that
    ends at its smaller index. *)
Lemma run_length_diagonal i :
  forall j, rl i j <= rl (i `min` j) (i `min` j).
Proof.
  induction i as [|i IH]; intros j.
  - rewrite (run_length_unfold s s lo lo hi 0 j).
    destruct (matchable s s lo lo hi 0 j) eqn:Hok; [|lia].
    apply matchable_true in Hok as (? & ? & x & Hx & Hy & Hp).
    rewrite Nat.min_0_l, (run_length_unfold s s lo lo hi 0 0).
    assert (matchable s s lo lo hi 0 0 = true) as ->; [|done].
    apply matchable_true. split; [done|]. split; [lia|]. eauto.
  - rewrite (run_length_unfold s s lo lo hi (S i) j).
    destruct (matchable s s lo lo hi (S i) j) eqn:Hok; [|lia].
    apply matchable_true in Hok as (? & ? & x & Hx & Hy & Hp).
    destruct j as [|j].
    + rewrite Nat.min_0_r, (run_length_unfold s s lo lo hi 0 0).
      assert (matchable s s lo lo hi 0 0 = true) as ->; [|done].
      apply matchable_true. split; [lia|]. split; [lia|]. eauto.
    + replace (S i `min` S j) with (S (i `min` j)) by lia.
      rewrite (run_length_unfold s s lo lo hi (S (i `min` j))).
      assert (matchable s s lo lo hi (S (i `min` j)) (S (i `min` j)) = true)
        as ->.
      { apply matchable_true. split; [lia|]. split; [lia|].
        destruct (decide (i <= j)) as [Hle|Hle].
        - replace (i `min` j) with i by lia. eauto.
        - replace (i `min` j) with j by lia. eauto. }
      specialize (IH j). lia.
Qed.

(** The first longest run of the scan is on the diagonal. *)
Lemma scan_diagonal besti bestj bestsize :
  lo <= hi ->
  scan s s lo hi lo hi = (besti, bestj, bestsize) ->
  besti = bestj.
Proof.
  intros Hle Hscan. pose proof (scan_spec s s lo lo hi hi Hle) as Hs.
  rewrite Hscan in Hs. destruct Hs as [_ [(-> & -> & ->)|Hs]]; [done|].
  destruct Hs as (i & j & Hi & Hbefore & Hk & Hpos & -> & -> & Hfirst).
  assert (i = j) as ->; [|done].
  pose proof (run_length_diagonal i j) as Hdiag.
  rewrite Hk in Hpos.
  apply run_length_pos, matchable_true in Hpos as (_ & ? & _).
  destruct (decide (i = j)) as [|Hne]; [done|]. exfalso.
  destruct (decide (j < i)) as [Hlt|Hge].
  - replace (i `min` j) with j in Hdiag by lia.
    assert (before (j, j) (i, j)) as Hb by (by left).
    specialize (Hfirst j j ltac:(lia) Hb). lia.
  - replace (i `min` j) with i in Hdiag by lia.
    assert (before (i, i) (i, j)) as Hb by (right; simpl; lia).
    specialize (Hfirst i i ltac:(lia) Hb). lia.
Qed.

Lemma extend_back_same besti :
  forall bestsize,
    lo <= besti -> besti <= length s ->
    extend_back s s lo lo besti besti bestsize
    = (lo, lo, bestsize + (besti - lo)).
Proof.
  induction besti as [|besti IH]; intros bestsize Hlo Hlen; simpl.
  - replace lo with 0 by lia. f_equal. lia.
  - destruct (decide (lo < S besti)) as [Hlt|Hge].
    + rewrite decide_True.
      2:{ repeat split; try done. apply lookup_lt_is_Some. lia. }
      rewrite IH by lia. f_equal. lia.
    + rewrite decide_False by tauto.
      replace lo with (S besti) by lia. f_equal. lia.
Qed.

Lemma extend_fwd_same n :
  forall bestsize,
    hi <= length s -> n = hi - (lo + bestsize) -> lo + bestsize <= hi ->
    extend_fwd s s hi hi lo lo n bestsize = hi - lo.
Proof.
  induction n as [|n IH]; intros bestsize Hlen Hn Hle; simpl; [lia|].
  rewrite decide_True.
  2:{ repeat split; try lia. apply lookup_lt_is_Some. lia. }
  apply IH; lia.
Qed.

(** The longest match of a range with itself is the whole range. *)
Lemma find_longest_match_same :
  lo <= hi -> hi <= length s ->
  find_longest_match s s lo hi lo hi = (lo, lo, hi - lo).
Proof.
  intros Hle Hlen. unfold find_longest_match.
  destruct (scan s s lo hi lo hi) as [[i j] k] eqn:Hscan.
  pose proof (scan_diagonal _ _ _ Hle Hscan) as <-.
  apply scan_bounds in Hscan as (? & ? & _); [|done..].
  rewrite extend_back_same by lia.
  rewrite extend_fwd_same; [done|done|lia|lia].
Qed.

End Same.

(** A sequence matches itself entirely. *)
Lemma matches_same (s : list ascii) :
  matches s s (S (length s)) 0 (length s) 0 (length s) = length s.
Proof.
  simpl. rewrite find_longest_match_same by lia.
  rewrite Nat.sub_0_r. case_decide as Hz; [done|].
  rewrite !decide_False by lia. lia.
Qed.

Lemma ratio_same (s : list ascii) : Difflib.ratio s s = 1%Qc.
Proof.
  unfold Difflib.ratio. rewrite matches_same. unfold _calculate_ratio.
  case_decide as Hz; [done|].
  apply Qc_is_canon. simpl. rewrite Qred_correct.
  unfold Qeq. simpl. lia.
Qed.

Lemma ratio_range (a b : list ascii) :
  (0 <= Difflib.ratio a b)%Qc /\ (Difflib.ratio a b <= 1)%Qc.
Proof.
  unfold Difflib.ratio, _calculate_ratio.
  destruct (matches_le a b (S (length a)) 0 (length a) 0 (length b))
    as [Ha Hb]; [lia..|].
  set (m := matches _ _ _ _ _ _ _) in *. clearbody m.
  case_decide as Hz; [done|].
  unfold Qcle. simpl. rewrite !Qred_correct.
  unfold Qle. simpl. split; [lia|].
  assert (Z.pos (Pos.of_nat (length a + length b))
          = Z.of_nat (length a + length b)) as ->.
  { destruct (length a + length b) as [|n] eqn:Hn; [done|].
    rewrite <- Pos.of_nat_succ, Zpos_P_of_succ_nat. lia. }
  lia.
Qed.

(** *** CapabilityManager.match *)

Import Capability NumberFacts.

Lemma max_le_1 (x y : Qc) : (x <= 1)%Qc -> (y <= 1)%Qc -> (max_ x y <= 1)%Qc.
Proof. intros Hx Hy. unfold max_. by case_decide. Qed.

Lemma max_ge_l (x y : Qc) : (x <= max_ x y)%Qc.
Proof.
  unfold max_. case_decide as Hlt; [by apply Qclt_le_weak|apply Qcle_refl].
Qed.

Lemma max_ge_r (x y : Qc) : (y <= max_ x y)%Qc.
Proof.
  unfold max_. case_decide as Hlt; [apply Qcle_refl|by apply Qcnot_lt_le].
Qed.

Lemma capability_ratio_range tag r :
  (0 <= Capability.ratio tag r)%Qc /\ (Capability.ratio tag r <= 1)%Qc.
Proof. apply ratio_range. Qed.

(** The loop of [match] keeps [best_score] between its start and 1. *)
Lemma best_score_range r (tags : list string) :
  forall best : Qc,
    (best <= 1)%Qc ->
    let best' :=
      fold_left (fun best_score tag =>
                   max_ best_score (Capability.ratio tag r)) tags best in
    (best <= best')%Qc /\ (best' <= 1)%Qc.
Proof.
  induction tags as [|tag tags IH]; intros best Hbest; simpl.
  - split; [apply Qcle_refl|done].
  - destruct (IH (max_ best (Capability.ratio tag r))) as [Hlo Hhi].
    { apply max_le_1; [done|apply capability_ratio_range]. }
    split; [|done]. eapply Qcle_trans; [apply max_ge_l|exact Hlo].
Qed.

(** A tag of ratio 1 brings [best_score] to 1. *)
Lemma best_score_exact r (tags : list string) tag :
  tag ∈ tags ->
  Capability.ratio tag r = 1%Qc ->
  forall best : Qc,
    (best <= 1)%Qc ->
    fold_left (fun best_score tag =>
                 max_ best_score (Capability.ratio tag r)) tags best = 1%Qc.
Proof.
  intros Hin Hone. induction tags as [|t tags IH]; intros best Hbest.
  - by apply elem_of_nil in Hin.
  - simpl. apply elem_of_cons in Hin as [<-|Hin].
    + destruct (best_score_range r tags (max_ best (Capability.ratio tag r)))
        as [Hlo Hhi].
      { apply max_le_1; [done|apply capability_ratio_range]. }
      apply Qcle_antisym; [done|].
      eapply Qcle_trans; [|exact Hlo]. rewrite <- Hone at 1. apply max_ge_r.
    + apply IH; [done|].
      apply max_le_1; [done|apply capability_ratio_range].
Qed.

Lemma round3_1 : round3 1 = 1%Qc.
Proof. by apply Qc_is_canon. Qed.

Lemma round3_0 : round3 0 = 0%Qc.
Proof. by apply Qc_is_canon. Qed.

Lemma unique_elem x l :
  forall seen, x ∈ l -> x ∈ seen \/ x ∈ unique seen l.
Proof.
  induction l as [|y l IH]; intros seen Hin; [by apply elem_of_nil in Hin|].
  simpl. apply elem_of_cons in Hin as [->|Hin].
  - destruct (decide (y ∈ seen)); [by left|right; by left].
  - destruct (decide (y ∈ seen)) as [Hy|Hy].
    + by apply IH.
    + destruct (IH (y :: seen) Hin) as [Hs|Hu].
      * apply elem_of_cons in Hs as [->|Hs]; [right; by left|by left].
      * right. by right.
Qed.

(** Every tag given to the constructor is stored, in lower case. *)
Lemma init_stores tags t :
  t ∈ tags -> lower t ∈ capabilities (Capability.__init__ tags).
Proof.
  intros Hin. unfold Capability.__init__. simpl.
  destruct (unique_elem (lower t) (map lower tags) []) as [Hs|Hu]; [|..].
  - apply list_elem_of_In, in_map. by apply list_elem_of_In.
  - by apply elem_of_nil in Hs.
  - done.
Qed.



(** The example of the module: ["image translation"] scores 0.786 on
    ["translation"], which passes the threshold 0.6. *)
Example match_image_translation :
  let manager :=
    Capability.__init__ ["image-to-text"; "style-transfer"; "translation"] in
  match_ manager "image translation" = Q2Qc (786 # 1000)
  /\ match_and_filter manager "image translation" (Q2Qc (6 # 10)) = true.
Proof. split; [by apply Qc_is_canon|by vm_compute]. Qed.

(** C9. A manager without capabilities scores every requirement 0.0, and
    [match_and_filter] is then [False] for every threshold above 0. *)
Theorem no_capability_no_match (self : CapabilityManager) (r : string)
    (threshold : Qc) :
  capabilities self = [] ->
  (0 < threshold)%Qc ->
  match_ self r = 0%Qc /\ match_and_filter self r threshold = false.
Proof.
  intros Hempty Hpos.
  assert (match_ self r = 0%Qc) as Hmatch.
  { unfold match_. rewrite Hempty. simpl. apply round3_0. }
  split; [done|]. unfold match_and_filter. rewrite Hmatch.
  apply bool_decide_eq_false. by apply Qclt_not_le.
Qed.

Lemma no_capability_no_match_witness :
  match_ (Capability.__init__ []) "translation" = 0%Qc
  /\ match_and_filter (Capability.__init__ []) "translation"
                      (Q2Qc (1 # 2)) = false.
Proof.
  apply (no_capability_no_match (Capability.__init__ []) "translation"
                                (Q2Qc (1 # 2))).
  - reflexivity.
  - vm_compute. reflexivity.
Defined.

End CapabilityFacts.

(** ** Capability tags *)

Module TagFacts.

Import Capability CapabilityShape NumberFacts CapabilityFacts.

Lemma lower_ascii_idempotent (c : ascii) :
  lower_ascii (lower_ascii c) = lower_ascii c.
Proof.
  destruct c as [[] [] [] [] [] [] [] []]; vm_compute; reflexivity.
Qed.

Lemma lower_idempotent (s : string) : lower (lower s) = lower s.
Proof.
  unfold lower. rewrite String.list_ascii_of_string_of_list_ascii.
  f_equal. rewrite map_map. apply map_ext. apply lower_ascii_idempotent.
Qed.

Lemma unique_spec (l : list string) :
  forall seen,
    NoDup (unique seen l)
    /\ (forall x, x ∈ unique seen l <-> x ∈ l /\ x ∉ seen).
Proof.
  induction l as [|y l IH]; intros seen; simpl.
  - split; [constructor|]. intros x. split; [by intros ?%elem_of_nil|].
    by intros [?%elem_of_nil _].
  - destruct (decide (y ∈ seen)) as [Hy|Hy].
    + destruct (IH seen) as [Hnd Hin]. split; [done|].
      intros x. rewrite Hin, elem_of_cons. split; [tauto|].
      intros [[->|Hx] Hs]; tauto.
    + destruct (IH (y :: seen)) as [Hnd Hin]. split.
      * constructor; [|done]. rewrite Hin, elem_of_cons. tauto.
      * intros x. rewrite !elem_of_cons, Hin, elem_of_cons.
        destruct (decide (x = y)) as [->|Hne]; [tauto|]. tauto.
Qed.

Lemma list_remove_spec x (l : list string) :
  NoDup l ->
  NoDup (list_remove x l)
  /\ (forall y, y ∈ list_remove x l <-> y ∈ l /\ y <> x).
Proof.
  induction l as [|z l IH]; intros Hnd; simpl.
  - split; [done|]. intros y. rewrite elem_of_nil. tauto.
  - apply NoDup_cons in Hnd as [Hz Hnd].
    destruct (decide (z = x)) as [->|Hne].
    + split; [done|]. intros y. rewrite elem_of_cons.
      split; [|tauto]. intros Hy. split; [tauto|]. by intros ->.
    + destruct (IH Hnd) as [Hnd' Hin]. split.
      * constructor; [|done]. rewrite Hin. tauto.
      * intros y. rewrite !elem_of_cons, Hin.
        destruct (decide (y = z)) as [->|Hyz]; tauto.
Qed.





Lemma round_half_even_mono (q q' : Q) :
  (q <= q')%Q -> round_half_even q <= round_half_even q'.
Proof.
  intros Hq. unfold round_half_even.
  pose proof (Qfloor_resp_le _ _ Hq) as Hf.
  destruct (decide (Qfloor q = Qfloor q')) as [Heq|Hne].
  - rewrite <- Heq.
    assert (q - inject_Z (Qfloor q) <= q' - inject_Z (Qfloor q))%Q as Hd.
    { by apply Qplus_le_l. }
    destruct (q - inject_Z (Qfloor q) ?= 1 # 2)%Q eqn:Hc;
      destruct (q' - inject_Z (Qfloor q) ?= 1 # 2)%Q eqn:Hc';
      try (destruct (Z.even (Qfloor q)); lia).
    + apply Qeq_alt in Hc. apply Qlt_alt in Hc'. rewrite Hc in Hd.
      by apply Qle_not_lt in Hd.
    + apply Qgt_alt in Hc. apply Qeq_alt in Hc'. rewrite Hc' in Hd.
      by apply Qle_not_lt in Hd.
    + apply Qgt_alt in Hc. apply Qlt_alt in Hc'.
      exfalso. apply (Qle_not_lt _ _ Hd).
      eapply Qlt_trans; [exact Hc'|exact Hc].
  - assert (Qfloor q + 1 <= Qfloor q') by lia.
    destruct (_ ?= _)%Q; destruct (_ ?= _)%Q;
      repeat (destruct (Z.even _)); lia.
Qed.

Lemma round3_mono (x y : Qc) : (x <= y)%Qc -> (round3 x <= round3 y)%Qc.
Proof.
  intros Hxy. unfold Qcle. rewrite !round3_Q.
  assert (round_half_even (x * inject_Z 1000)
          <= round_half_even (y * inject_Z 1000)) as Hk.
  { apply round_half_even_mono. by apply Qmult_le_compat_r. }
  set (k := round_half_even (x * _)) in *.
  set (k' := round_half_even (y * _)) in *. clearbody k k'.
  unfold Qle, Qdiv, Qmult, Qinv, inject_Z. simpl. lia.
Qed.


End TagFacts.

(** ** Local memory *)

Module MemoryFacts.

Import Memory NumberFacts.

Local Open Scope nat_scope.

Lemma last_n_length {A} (n : nat) (l : list A) :
  length (last_n n l) = n `min` length l.
Proof. unfold last_n. rewrite length_drop. lia. Qed.

Lemma deque_append_last_n {A} (n : nat) (x : A) (l : list A) :
  deque_append (Some n) x (last_n n l) = last_n n (l ++ [x]).
Proof.
  unfold deque_append, last_n.
  rewrite !length_app, length_drop. simpl.
  destruct (decide (n < length l - (length l - n) + 1)) as [Hlt|Hge].
  - destruct (decide (n = 0)) as [->|Hn].
    + rewrite Nat.sub_0_r, drop_all. simpl.
      rewrite drop_ge by (rewrite length_app; simpl; lia). done.
    + rewrite drop_app_le by (rewrite length_drop; lia).
      rewrite drop_drop. rewrite drop_app_le by lia.
      f_equal. f_equal. lia.
  - replace (length l - n) with 0 by lia.
    replace (length l + 1 - n) with 0 by lia. done.
Qed.

Section Facts.

Context {V : Type} (of_int : Z -> V) (of_str : string -> V).

Local Abbreviation run := (@Memory.run V of_int of_str).
Local Abbreviation cached := (@Memory.cached V of_int of_str).
Local Abbreviation call := (@Memory.call V).

Lemma run_snoc (calls : list call) c (self : @LocalMemory V) :
  run (calls ++ [c]) self = apply_call of_int of_str (run calls self) c.
Proof. unfold Memory.run. by rewrite fold_left_app. Qed.

Lemma run_task_limit (calls : list call) (self : @LocalMemory V) :
  task_limit (run calls self) = task_limit self.
Proof.
  induction calls as [|c calls IH] using rev_ind; [done|].
  rewrite run_snoc, <- IH. by destruct c.
Qed.

Lemma omap_snoc {A B} (f : A -> option B) (l : list A) (x : A) :
  omap f (l ++ [x])
  = omap f l ++ match f x with Some y => [y] | None => [] end.
Proof. rewrite omap_app. f_equal. Qed.

Lemma run_task_cache (calls : list call) maxlen :
  task_cache (run calls (mkLocalMemory maxlen [] [] ∅))
  = match maxlen with
    | Some n => last_n n (omap cached calls)
    | None => omap cached calls
    end.
Proof.
  induction calls as [|c calls IH] using rev_ind.
  - destruct maxlen as [n|]; reflexivity.
  - rewrite run_snoc, omap_snoc.
    assert (forall entry,
              deque_append maxlen entry
                (task_cache (run calls (mkLocalMemory maxlen [] [] ∅)))
              = match maxlen with
                | Some n => last_n n (omap cached calls ++ [entry])
                | None => omap cached calls ++ [entry]
                end) as Happend.
    { intros entry. rewrite IH. destruct maxlen as [n|]; [|done].
      apply deque_append_last_n. }
    destruct c as [now result|task_id task_data|now node caps success|node];
      simpl; rewrite ?run_task_limit; simpl; rewrite ?Happend; try done.
    + rewrite IH, app_nil_r. done.
    + rewrite IH, app_nil_r. done.
Qed.

(** X5. A memory built with a bound [task_limit >= 0] holds, after any
    sequence of calls, the last [task_limit] entries that [store_result]
    and [cache_task] appended, oldest first; without a bound it holds them
    all; and a negative bound is refused with [ValueError]. *)
Theorem task_cache_keeps_most_recent (task_limit : option Z)
    (calls : list call) :
  match Memory.__init__ task_limit with
  | inr self =>
      task_cache (run calls self)
      = match task_limit with
        | Some n => last_n (Z.to_nat n) (omap cached calls)
        | None => omap cached calls
        end
      /\ (forall n, task_limit = Some n ->
                    (0 <= n)%Z
                    /\ length (task_cache (run calls self)) <= Z.to_nat n)
  | inl e =>
      e = ValueError "maxlen must be non-negative"
      /\ exists n, task_limit = Some n /\ (n < 0)%Z
  end.
Proof.
  unfold Memory.__init__, deque_init.
  destruct task_limit as [n|]; [|by rewrite run_task_cache].
  destruct (decide (n < 0)%Z) as [Hneg|Hpos]; [by eauto|].
  rewrite run_task_cache. split; [done|].
  intros ? [= <-]. split; [lia|]. rewrite last_n_length. lia.
Qed.


Lemma last_n_fmap {A B} (f : A -> B) (n : nat) (l : list A) :
  f <$> last_n n l = last_n n (f <$> l).
Proof. unfold last_n. by rewrite fmap_drop, length_fmap. Qed.

Lemma run_neighbor_scores (calls : list call) maxlen node_id :
  default [] (neighbor_scores (run calls (mkLocalMemory maxlen [] [] ∅))
              !! node_id)
  = mark <$> last_n 20 (omap (outcome node_id) calls).
Proof.
  induction calls as [|c calls IH] using rev_ind; [done|].
  rewrite run_snoc, omap_snoc.
  destruct c as [now result|task_id task_data|now node caps success|node];
    simpl; rewrite ?app_nil_r; try done.
  - destruct (decide (node = node_id)) as [->|Hne].
    + rewrite lookup_insert_eq. simpl. rewrite IH, !last_n_fmap, fmap_app.
      apply deque_append_last_n.
    + rewrite lookup_insert_ne by done. by rewrite app_nil_r.
  - destruct (decide (node = node_id)) as [->|Hne].
    + rewrite lookup_insert_eq. simpl. done.
    + by rewrite lookup_insert_ne by done.
Qed.

Lemma sum_marks (history : list bool) :
  sum_ (mark <$> history)
  = Q2Qc (inject_Z (Z.of_nat (length (filter (eq true) history)))).
Proof.
  induction history as [|b history IH]; [by apply Qc_is_canon|].
  rewrite fmap_cons. cbn [sum_ foldr]. fold (sum_ (mark <$> history)).
  rewrite IH. destruct b.
  - rewrite filter_cons_True by done. apply Qc_is_canon. simpl.
    rewrite !Qred_correct. rewrite Nat2Z.inj_succ.
    unfold Qeq, Qplus, inject_Z. simpl. lia.
  - rewrite filter_cons_False by done. apply Qc_is_canon. simpl.
    rewrite !Qred_correct. unfold Qeq, Qplus, inject_Z. simpl. lia.
Qed.

Lemma filter_length_le {A} (P : A -> Prop) `{forall x, Decision (P x)}
    (l : list A) :
  length (filter P l) <= length l.
Proof. apply length_filter. Qed.

(** X7. After any sequence of calls [get_neighbor_score(node)] is 0.5 when
    no outcome was recorded for the node, and otherwise the share of
    successes among its last 20 outcomes, rounded to three decimals; it is
    always between 0 and 1. *)
Theorem neighbor_score_of_recent_outcomes (task_limit : option nat)
    (calls : list call) (node_id : string) :
  let history := last_n 20 (omap (outcome node_id) calls) in
  let successes := length (filter (eq true) history) in
  let score :=
    (get_neighbor_score node_id
       (run calls (mkLocalMemory task_limit [] [] ∅))).1 in
  score = (if decide (history = []) then Q2Qc (1 # 2)
           else round3 (Q2Qc (Z.of_nat successes
                              # Pos.of_nat (length history))))
  /\ (0 <= score)%Qc /\ (score <= 1)%Qc
  /\ length history <= 20.
Proof.
  intros history successes score.
  assert (length history <= 20) as Hlen.
  { unfold history. rewrite last_n_length. lia. }
  assert (score = if decide (history = []) then Q2Qc (1 # 2)
                  else round3 (Q2Qc (Z.of_nat successes
                                     # Pos.of_nat (length history))))
    as Hscore.
  { unfold score, get_neighbor_score. cbn [fst].
    rewrite run_neighbor_scores. fold history.
    destruct (decide (history = [])) as [->|Hne]; [done|].
    assert (length history <> 0) as Hpos by (by destruct history).
    destruct (mark <$> history) as [|m ms] eqn:Hm.
    { by apply fmap_nil_inv in Hm. }
    rewrite <- Hm. f_equal. rewrite sum_marks, length_fmap.
    fold successes. apply Qc_is_canon.
    set (n := length history) in *. clearbody n. clearbody successes.
    unfold Qcdiv, Qcmult, Qcinv. simpl. rewrite !Qred_correct.
    destruct n as [|n]; [done|].
    rewrite <- Pos.of_nat_succ. simpl.
    unfold Qeq, Qmult, Qinv, inject_Z. simpl. lia. }
  split; [done|]. rewrite Hscore.
  destruct (decide (history = [])) as [Hnil|Hne].
  - split; [done|]. split; [done|lia].
  - assert (successes <= length history) as Hle
      by apply filter_length_le.
    assert (length history <> 0) as Hpos by (by destruct history).
    split; [|split; [|done]].
    + apply round3_nonneg. unfold Qcle. simpl. rewrite !Qred_correct.
      unfold Qle. simpl. lia.
    + apply round3_le_1. unfold Qcle. simpl. rewrite !Qred_correct.
      unfold Qle. simpl.
      rewrite <- (Nat2Pos.id (length history)) in Hle by done.
      lia.
Qed.

Lemma dict_get_set {W} (key key' : string) (v : W) d :
  dict_get key (dict_set key' v d)
  = if decide (key' = key) then Some v else dict_get key d.
Proof.
  induction d as [|[k w] d IH]; simpl.
  - by destruct (decide (key' = key)).
  - destruct (decide (k = key')) as [->|Hk]; simpl.
    + by destruct (decide (key' = key)).
    + rewrite IH. destruct (decide (k = key)) as [->|Hk'];
        [by rewrite decide_False by done|done].
Qed.

Lemma dict_get_None {W} (key : string) (d : list (string * W)) :
  dict_get key d = None <-> key ∉ d.*1.
Proof.
  induction d as [|[k w] d IH].
  - split; [intros _ ?%elem_of_nil; done|done].
  - rewrite fmap_cons, not_elem_of_cons. cbn [dict_get fst].
    destruct (decide (k = key)) as [->|Hk].
    + split; [done|tauto].
    + rewrite IH. split; [by intros; split|tauto].
Qed.

Lemma dict_set_keys {W} (key : string) (v : W) d :
  (dict_set key v d).*1
  = if decide (key ∈ d.*1) then d.*1 else d.*1 ++ [key].
Proof.
  induction d as [|[k w] d IH].
  - destruct (decide _) as [?%elem_of_nil|]; done.
  - cbn [dict_set]. destruct (decide (k = key)) as [->|Hk].
    + rewrite !fmap_cons. cbn [fst]. rewrite decide_True; [done|]. by left.
    + rewrite !fmap_cons, IH. cbn [fst].
      destruct (decide (key ∈ d.*1)) as [Hin|Hin].
      * rewrite decide_True; [done|]. by right.
      * rewrite decide_False; [done|].
        rewrite not_elem_of_cons. by split.
Qed.

(** X8. After any sequence of calls [get_neighbors()] lists every node
    that was updated, once, in the order of first update; the entry of a
    node holds the capabilities and the time of its last update; and its
    ["score"] field is 0.5, whatever the outcomes recorded. *)
Theorem neighbor_data_tracks_last_update (task_limit : option nat)
    (calls : list call) :
  let self := run calls (mkLocalMemory task_limit [] [] ∅) in
  get_neighbors self = UserRunner.firsts (omap (@updated_node V) calls)
  /\ (forall node_id,
        dict_get node_id (neighbor_data self)
        = (fun u : Z * list string => mkMeta u.2 u.1 (Q2Qc (1 # 2)))
            <$> last (omap (updated node_id) calls)).
Proof.
  cbv zeta. unfold get_neighbors.
  induction calls as [|c calls [IHkeys IHget]] using rev_ind; [done|].
  rewrite run_snoc.
  set (self := run calls _) in *.
  split; [|intros node_id; specialize (IHget node_id)];
    rewrite omap_snoc;
    destruct c as [now result|task_id task_data|now node caps success|node];
    cbn [apply_call updated_node updated]; rewrite ?app_nil_r;
    try done.
  - rewrite VoteFacts.firsts_snoc, <- IHkeys.
    unfold update_neighbor. cbn [neighbor_data].
    destruct (dict_get node (neighbor_data self)) as [meta|] eqn:Hget.
    + rewrite dict_set_keys.
      assert (node ∈ (neighbor_data self).*1) as Hin.
      { destruct (decide (node ∈ (neighbor_data self).*1)); [done|].
        by rewrite (proj2 (dict_get_None _ _)) in Hget. }
      by rewrite !decide_True by done.
    + rewrite dict_set_keys.
      apply dict_get_None in Hget. by rewrite !decide_False by done.
  - unfold update_neighbor. cbn [neighbor_data].
    destruct (decide (node = node_id)) as [->|Hne].
    + rewrite last_snoc. simpl.
      destruct (dict_get node_id (neighbor_data self)) as [meta|] eqn:Hg.
      * rewrite dict_get_set, decide_True by done.
        destruct (last (omap (updated node_id) calls)) as [u|];
          [|done]. injection IHget as ->. done.
      * by rewrite dict_get_set, decide_True by done.
    + rewrite app_nil_r, <- IHget.
      destruct (dict_get node (neighbor_data self));
        by rewrite dict_get_set, decide_False by done.
Qed.

End Facts.

End MemoryFacts.

(** ** Task and result records on the wire *)

Module ContractFacts.

Lemma or_str_Some (s d : string) : s <> "" -> or_str (Some s) d = s.
Proof. intros Hs. unfold or_str. by rewrite decide_False. Qed.

Lemma or_str_Some_empty (s : string) : or_str (Some s) "" = s.
Proof. unfold or_str. by case_decide. Qed.

Lemma or_str_default_nonempty (x : option string) (d : string) :
  d <> "" -> or_str x d <> "".
Proof. intros Hd. unfold or_str. destruct x; [case_decide|]; done. Qed.

Lemma or_list_Some {A} (l : list A) : or_list (Some l) [] = l.
Proof. unfold or_list. by destruct l. Qed.

Lemma or_int_Some (n : Z) : or_int (Some n) 0 = n.
Proof. unfold or_int. case_decide; congruence. Qed.

Lemma or_dict_Some {W} (m : gmap string W) : or_dict (Some m) ∅ = m.
Proof. unfold or_dict. case_decide; congruence. Qed.

(** X9. A task built by the constructor, in either calling style, comes
    back from [Task.from_dict(task.to_dict())] with its ten data fields
    unchanged; the API mode of the copy is always ["high_level"], also
    when the task was a legacy one. *)
Theorem task_round_trip
    (fresh fresh' : string)
    (description : option string) (requirements : option (list string))
    (context : option (gmap string string)) (task_id : option string)
    (subtask_id : option Z) (steps : option (gmap string step))
    (previous_results : option (list string))
    (original_problem final_result user_id : option string) :
  fresh <> "" ->
  let task :=
    Task_init fresh description requirements context task_id subtask_id
              steps previous_results original_problem final_result
              user_id in
  from_dict fresh' (to_dict task)
  = mkTask (TaskContract.task_id task) (TaskContract.description task)
           (TaskContract.requirements task) (TaskContract.context task)
           (TaskContract.subtask_id task) (TaskContract.steps task)
           (TaskContract.previous_results task)
           (TaskContract.original_problem task)
           (TaskContract.final_result task) (TaskContract.user_id task)
           high_level.
Proof.
  intros Hfresh task. unfold from_dict, to_dict. cbn [d_new].
  unfold Task_init at 1. rewrite bool_decide_eq_true_2 by (left; eauto).
  cbn -[task or_str or_list or_int or_dict].
  assert (TaskContract.task_id task <> "") as Htid.
  { unfold task, Task_init. case_bool_decide; simpl; [|done].
    by apply or_str_default_nonempty. }
  assert (TaskContract.user_id task <> "") as Huid.
  { unfold task, Task_init.
    case_bool_decide; simpl; by apply or_str_default_nonempty. }
  assert (TaskContract.original_problem task = ""
          -> TaskContract.description task = "") as Hop.
  { unfold task, Task_init. case_bool_decide; simpl; [|done].
    unfold or_str. destruct original_problem as [op|];
      [case_decide; [|done]|]; done. }
  rewrite !or_str_Some_empty, or_list_Some, or_int_Some, !or_dict_Some,
    or_list_Some, !or_str_Some by done.
  f_equal; [|by apply or_str_Some]. unfold or_str at 1.
  destruct (decide (TaskContract.original_problem task = "")) as [He|];
    [|done]. rewrite He. by apply Hop.
Qed.

Lemma task_round_trip_witness :
  from_dict "uuid-2"
    (to_dict (User._create_initial_task "user-001" "uuid-1"
                                         "What is 6 times 7?"))
  = mkTask "uuid-1" "What is 6 times 7?" [] {[ "mode" := "legacy" ]} 0 ∅ []
           "What is 6 times 7?" "" "user-001" high_level.
Proof.
  refine (task_round_trip "uuid-1" "uuid-2" None None None None (Some 0)
            (Some ∅) (Some []) (Some "What is 6 times 7?") (Some "")
            (Some "user-001") _).
  discriminate.
Defined.

Section TaskResult.

Context {V : Type}.

Import TaskResultContract.

(** X10. [TaskResult.from_dict(r.to_dict())] gives back the four fields of
    [r]; [from_dict] succeeds when the four keys are present, whatever
    else the dictionary holds, and otherwise raises [KeyError] for the
    first of [target_id], [executer_id], [result], [previous_results]
    that is missing. *)
Theorem task_result_round_trip :
  (forall r : @TaskResult V, from_dict (to_dict r) = inr r)
  /\ (forall (data : gmap string V) r,
        from_dict data = inr r <-> to_dict r ⊆ data)
  /\ (forall (data : gmap string V) e,
        from_dict data = inl e ->
        exists before key after,
          ["target_id"; "executer_id"; "result"; "previous_results"]
          = before ++ key :: after
          /\ e = KeyError key
          /\ data !! key = None
          /\ Forall (fun k => is_Some (data !! k)) before).
Proof.
  split; [by intros []|]. split.
  - intros data r. unfold from_dict, getitem. split.
    + destruct (data !! "target_id") as [t|] eqn:Ht; [|done].
      destruct (data !! "executer_id") as [x|] eqn:Hx; [|done].
      destruct (data !! "result") as [y|] eqn:Hy; [|done].
      destruct (data !! "previous_results") as [p|] eqn:Hp; [|done].
      intros [= <-]. unfold to_dict. simpl.
      repeat (apply insert_subseteq_l; [done|]). apply map_empty_subseteq.
    + intros Hsub. destruct r as [t x y p]. unfold to_dict in Hsub.
      simpl in Hsub.
      rewrite (lookup_weaken _ _ "target_id" t eq_refl Hsub),
        (lookup_weaken _ _ "executer_id" x eq_refl Hsub),
        (lookup_weaken _ _ "result" y eq_refl Hsub),
        (lookup_weaken _ _ "previous_results" p eq_refl Hsub). done.
  - intros data e. unfold from_dict, getitem.
    destruct (data !! "target_id") as [t|] eqn:Ht.
    2:{ intros [= <-]. exists [], "target_id", ["executer_id"; "result"; "previous_results"].
        by repeat split. }
    destruct (data !! "executer_id") as [x|] eqn:Hx.
    2:{ intros [= <-]. exists ["target_id"], "executer_id",
          ["result"; "previous_results"].
        repeat split; [done|]. repeat constructor. by rewrite Ht. }
    destruct (data !! "result") as [y|] eqn:Hy.
    2:{ intros [= <-]. exists ["target_id"; "executer_id"], "result",
          ["previous_results"].
        repeat split; [done|]. repeat constructor; by rewrite ?Ht, ?Hx. }
    destruct (data !! "previous_results") as [p|] eqn:Hp; [done|].
    intros [= <-].
    exists ["target_id"; "executer_id"; "result"], "previous_results", [].
    repeat split; [done|]. repeat constructor; by rewrite ?Ht, ?Hx, ?Hy.
Qed.

End TaskResult.

End ContractFacts.

(** ** Messages between nodes *)

Module WireFacts.

Import Network.

Local Open Scope nat_scope.

Lemma byte_of_to_N (m : N) :
  (m < 256)%N -> Byte.to_N (default Byte.x00 (Byte.of_N m)) = m.
Proof.
  intros Hm. destruct (Byte.of_N m) as [b|] eqn:Hb.
  - by apply Byte.to_of_N.
  - apply Byte.of_N_None_iff in Hb. lia.
Qed.

Lemma from_bytes_to_bytes4 (n : N) prefix :
  to_bytes4 n = Some prefix -> from_bytes prefix = n /\ length prefix = 4.
Proof.
  unfold to_bytes4. case_decide as Hn; [|done]. intros [= <-].
  split; [|done]. unfold from_bytes. cbn [fmap list_fmap fold_left].
  rewrite !byte_of_to_N by (apply N.mod_lt; lia).
  change (256 ^ 3)%N with (256 * 256 * 256)%N.
  change (256 ^ 2)%N with (256 * 256)%N.
  change (256 ^ 1)%N with 256%N. change (256 ^ 0)%N with 1%N.
  change (2 ^ 32)%N with 4294967296%N in Hn.
  rewrite N.div_1_r, <- !N.Div0.div_div.
  set (a := (n / 256)%N). set (b := (a / 256)%N). set (c := (b / 256)%N).
  pose proof (N.div_mod' n 256) as Hn0. fold a in Hn0.
  pose proof (N.div_mod' a 256) as Ha. fold b in Ha.
  pose proof (N.div_mod' b 256) as Hb. fold c in Hb.
  pose proof (N.mod_lt n 256 ltac:(done)) as Hr0.
  pose proof (N.mod_lt a 256 ltac:(done)) as Hr1.
  pose proof (N.mod_lt b 256 ltac:(done)) as Hr2.
  set (r0 := (n mod 256)%N) in *. set (r1 := (a mod 256)%N) in *.
  set (r2 := (b mod 256)%N) in *. clearbody r0 r1 r2.
  assert (c < 256)%N as Hc by (clearbody a b c; lia).
  rewrite (N.mod_small c 256) by done. clearbody a b c. lia.
Qed.

Lemma read_body_complete (fuel : nat) :
  forall msg_bytes remaining rest chunks,
    length remaining <= fuel ->
    length remaining <= length chunks ->
    Forall (fun c => 1 <= c) chunks ->
    exists chunks',
      read_body fuel (length (msg_bytes ++ remaining)) msg_bytes
                (mkSocket (remaining ++ rest) chunks)
      = (msg_bytes ++ remaining, mkSocket rest chunks').
Proof.
  induction fuel as [|fuel IH]; intros msg_bytes remaining rest chunks
    Hfuel Hchunks Hpos.
  - destruct remaining; [|simpl in Hfuel; lia].
    exists chunks. by rewrite app_nil_r.
  - cbn [read_body]. rewrite length_app.
    destruct remaining as [|b remaining].
    { rewrite decide_False by (simpl; lia). exists chunks.
      by rewrite app_nil_r. }
    rewrite decide_True by (simpl; lia).
    destruct chunks as [|c chunks]; [simpl in Hchunks; lia|].
    apply Forall_cons in Hpos as [Hc Hpos].
    unfold recv. cbn [Network.chunks stream].
    set (k := (4096 `min` (length msg_bytes + length (b :: remaining)
                           - length msg_bytes)) `min` c).
    assert (1 <= k <= length (b :: remaining)) as Hk.
    { unfold k. cbn [length]. lia. }
    rewrite take_app_le, drop_app_le by lia.
    destruct (take k (b :: remaining)) as [|b' chunk] eqn:Htake.
    { apply (f_equal length) in Htake. rewrite length_take in Htake.
      simpl in Htake. lia. }
    rewrite <- Htake.
    destruct (IH (msg_bytes ++ take k (b :: remaining))
                 (drop k (b :: remaining)) rest chunks) as [chunks' Hread].
    + rewrite length_drop. simpl in *. lia.
    + rewrite length_drop. simpl in *. lia.
    + done.
    + exists chunks'. rewrite <- app_assoc, take_drop in Hread.
      rewrite length_app in Hread. exact Hread.
Qed.

(** X11. A message shorter than [2^32] bytes that [send] writes behind its
    4-byte big-endian length is read back unchanged by [_receive_loop],
    whatever the sizes of the pieces [recv] delivers, provided the first
    [recv] delivers the four bytes of the length at once; the bytes that
    follow the message are left on the connection. *)
Theorem frame_round_trip (msg_bytes rest : list Byte.byte) (c : nat)
    (chunks : list nat) :
  (N.of_nat (length msg_bytes) < 2 ^ 32)%N ->
  4 <= c ->
  Forall (fun c => 1 <= c) chunks ->
  length msg_bytes <= length chunks ->
  exists framed chunks',
    frame msg_bytes = Some framed
    /\ length framed = 4 + length msg_bytes
    /\ receive_frame (mkSocket (framed ++ rest) (c :: chunks))
       = (Some msg_bytes, mkSocket rest chunks').
Proof.
  intros Hlen Hc Hpos Hchunks. unfold frame.
  destruct (to_bytes4 (N.of_nat (length msg_bytes))) as [prefix|] eqn:Hp.
  2:{ unfold to_bytes4 in Hp. by rewrite decide_True in Hp. }
  apply from_bytes_to_bytes4 in Hp as [Hvalue Hfour].
  destruct (read_body_complete (length msg_bytes) [] msg_bytes rest chunks)
    as [chunks' Hread]; [done..|].
  exists (prefix ++ msg_bytes), chunks'. split; [done|].
  split; [by rewrite length_app, Hfour|].
  unfold receive_frame, recv. cbn [Network.chunks stream].
  replace (4 `min` c) with 4 by lia.
  rewrite <- app_assoc, take_app_length', drop_app_length' by done.
  destruct prefix as [|b prefix]; [done|].
  rewrite Hvalue, Nat2N.id. cbn [app length] in Hread. rewrite Hread.
  by rewrite decide_True.
Qed.

Lemma frame_round_trip_witness :
  exists framed chunks',
    frame [Byte.x7b; Byte.x7d] = Some framed
    /\ length framed = 4 + length [Byte.x7b; Byte.x7d]
    /\ receive_frame (mkSocket (framed ++ [Byte.x00]) [4; 1; 1])
       = (Some [Byte.x7b; Byte.x7d], mkSocket [Byte.x00] chunks').
Proof.
  apply (frame_round_trip [Byte.x7b; Byte.x7d] [Byte.x00] 4 [1; 1]).
  - vm_compute. reflexivity.
  - lia.
  - repeat constructor.
  - simpl. lia.
Defined.

End WireFacts.

(** ** Discovery: beacons and responses *)

Module DiscoveryFacts.

Import Network ISEP Responder NumberFacts CapabilityFacts.

Section Client.

Context {P : Type} (getitem : P -> string -> result value).

Local Abbreviation client := (@ISEPClient P).
Local Abbreviation step_ := (Network.receive (@handlers P getitem)).

Lemma receive_all_snoc arrivals message (self : client) :
  receive_all getitem (arrivals ++ [message]) self
  = step_ (receive_all getitem arrivals self) message.
Proof. unfold receive_all. by rewrite fold_left_app. Qed.

(** What one message changes. *)
Lemma receive_cases (self : client) message :
  let self' := step_ self message in
  node_id self' = node_id self
  /\ beacon_queue self'
     = beacon_queue self
       ++ option_list (queued "beacon" message)
  /\ subtask_queue self'
     = subtask_queue self ++ option_list (queued "task" message)
  /\ task_result_queue self'
     = task_result_queue self
       ++ option_list (queued "task_result" message)
  /\ (forall task_id responses,
        pending_tasks self !! task_id = Some responses ->
        pending_tasks self' !! task_id
        = Some (responses
                ++ option_list (response_for getitem task_id message)))
  /\ (forall task_id,
        pending_tasks self !! task_id = None ->
        pending_tasks self' !! task_id = None).
Proof.
  destruct message as [msg_type sender data].
  unfold Network.receive, _handle_message, queued, response_for.
  cbn [r_data r_msg_type r_sender_id].
  assert (forall s : client,
            node_id s = node_id s
            /\ beacon_queue s = beacon_queue s ++ []
            /\ subtask_queue s = subtask_queue s ++ []
            /\ task_result_queue s = task_result_queue s ++ []
            /\ (forall task_id responses,
                  pending_tasks s !! task_id = Some responses ->
                  pending_tasks s !! task_id = Some (responses ++ []))
            /\ (forall task_id,
                  pending_tasks s !! task_id = None ->
                  pending_tasks s !! task_id = None)) as Hsame.
  { intros s. rewrite !app_nil_r. repeat split; try done.
    intros ??. by rewrite app_nil_r. }
  destruct data as [data|]; [|apply Hsame].
  destruct (truthy msg_type) eqn:Hm; [|apply Hsame].
  destruct (truthy sender) eqn:Hs; [|apply Hsame].
  cbn [andb]. destruct msg_type as [|msg_type|q]; try apply Hsame.
  unfold handlers.
  destruct (decide (msg_type = "beacon")) as [->|Hb].
  { rewrite lookup_insert_eq. cbn. rewrite !app_nil_r.
    repeat split; try done. intros ??. by rewrite app_nil_r. }
  rewrite lookup_insert_ne by done.
  destruct (decide (msg_type = "beacon_response")) as [->|Hr].
  { rewrite lookup_insert_eq. cbn. unfold _handle_beacon_response.
    destruct (getitem data "task_id") as [e|tid] eqn:Hget.
    { rewrite !app_nil_r. repeat split; try done.
      intros ??. by rewrite app_nil_r. }
    destruct (pending_tasks self !! tid) as [l|] eqn:Hl; cbn;
      rewrite !app_nil_r; repeat split; try done.
    - intros task_id responses Hlook.
      destruct (decide (tid = task_id)) as [->|Hne].
      + rewrite lookup_insert_eq. cbn.
        rewrite (bool_decide_eq_true_2 (task_id = task_id)) by done.
        rewrite Hl in Hlook. by injection Hlook as ->.
      + rewrite lookup_insert_ne by done. cbn.
        rewrite (bool_decide_eq_false_2 (tid = task_id)) by done.
        cbn. by rewrite app_nil_r.
    - intros task_id Hlook. rewrite lookup_insert_ne; [done|].
      intros ->. congruence.
    - intros task_id responses Hlook. cbn.
      rewrite (bool_decide_eq_false_2 (tid = task_id)) by congruence.
      cbn. by rewrite app_nil_r. }
  rewrite lookup_insert_ne by done.
  destruct (decide (msg_type = "task")) as [->|Ht].
  { rewrite lookup_insert_eq. cbn. rewrite !app_nil_r.
    repeat split; try done. intros ??. by rewrite app_nil_r. }
  rewrite lookup_insert_ne by done.
  destruct (decide (msg_type = "task_result")) as [->|Hx].
  { rewrite lookup_insert_eq. cbn. rewrite !app_nil_r.
    repeat split; try done. intros ??. by rewrite app_nil_r. }
  rewrite lookup_insert_ne, lookup_empty by done.
  rewrite !bool_decide_eq_false_2 by congruence. cbn.
  apply Hsame.
Qed.

Lemma receive_all_spec arrivals (self : client) :
  let self' := receive_all getitem arrivals self in
  beacon_queue self'
  = beacon_queue self ++ omap (queued "beacon") arrivals
  /\ subtask_queue self'
     = subtask_queue self ++ omap (queued "task") arrivals
  /\ task_result_queue self'
     = task_result_queue self ++ omap (queued "task_result") arrivals
  /\ (forall task_id responses,
        pending_tasks self !! task_id = Some responses ->
        pending_tasks self' !! task_id
        = Some (responses
                ++ omap (response_for getitem task_id) arrivals)).
Proof.
  cbv zeta.
  induction arrivals as [|message arrivals IH] using rev_ind.
  { cbn. rewrite !app_nil_r. repeat split; try done.
    intros ??. by rewrite app_nil_r. }
  destruct IH as (IHb & IHt & IHr & IHp).
  rewrite receive_all_snoc, !omap_app.
  destruct (receive_cases (receive_all getitem arrivals self) message)
    as (_ & Hb & Ht & Hr & Hp & _).
  rewrite Hb, Ht, Hr, IHb, IHt, IHr, <- !app_assoc.
  repeat split; try done.
  intros task_id responses Hlook.
  rewrite (Hp _ _ (IHp _ _ Hlook)), <- app_assoc, omap_app.
  f_equal.
Qed.

(** X12. Every message that arrives with a non-empty type and sender and
    a non-null payload is queued once, in arrival order, in the queue of
    its type (["beacon"], ["task"], ["task_result"]); any other message
    leaves the queues as they are; and [receive_task] hands out the oldest
    queued task, or nothing when the queue is empty. *)
Theorem messages_are_queued_in_order arrivals (self : client) :
  let self' := receive_all getitem arrivals self in
  beacon_queue self'
  = beacon_queue self ++ omap (queued "beacon") arrivals
  /\ subtask_queue self'
     = subtask_queue self ++ omap (queued "task") arrivals
  /\ task_result_queue self'
     = task_result_queue self ++ omap (queued "task_result") arrivals
  /\ (receive_task self').1
     = head (subtask_queue self ++ omap (queued "task") arrivals)
  /\ subtask_queue (receive_task self').2
     = tail (subtask_queue self ++ omap (queued "task") arrivals).
Proof.
  cbv zeta.
  destruct (receive_all_spec arrivals self) as (Hb & Ht & Hr & _).
  split; [done|]. split; [done|]. split; [done|].
  unfold receive_task. rewrite Ht.
  by destruct (subtask_queue self ++ omap (queued "task") arrivals).
Qed.

(** X13. [broadcast_and_collect] returns one pair
    [(responder_id, match_score)] for each well-formed
    ["beacon_response"] message that arrives during the wait with the
    task id of the beacon, in arrival order; what was collected for that
    id before the call, responses for other ids and messages of other
    types do not count. *)
Theorem broadcast_and_collect_collects arrivals beacon (self : client) :
  (broadcast_and_collect getitem arrivals beacon self).1
  = candidates_of getitem
      (omap (response_for getitem (Beacon.task_id beacon)) arrivals).
Proof.
  unfold broadcast_and_collect. cbn [fst].
  set (start := mkISEPClient _ _ _ _ _).
  destruct (receive_all_spec arrivals start) as (_ & _ & _ & Hp).
  rewrite (Hp (Beacon.task_id beacon) []); [done|].
  unfold start. cbn. by rewrite lookup_insert_eq.
Qed.

End Client.

Lemma match_clamped (self : Capability.CapabilityManager) (r : string) :
  round3 (max_ 0 (min_ 1 (Capability.match_ self r)))
  = Capability.match_ self r.
Proof.
  unfold Capability.match_.
  destruct (best_score_range (lower r) (Capability.capabilities self) 0%Qc)
    as [Hlo Hhi]; [done|].
  rewrite min_1_id by (by apply round3_le_1).
  rewrite max_0_id by (by apply round3_nonneg).
  apply round3_idempotent.
Qed.

(** What [handle_beacon] answers to a beacon built by the constructor. *)
Lemma handle_beacon_answer (self : Agent) fresh now sender_id beacon
    requirement :
  beacon !! "requirement" = Some (VStr requirement) ->
  is_Some (beacon !! "task_id") ->
  is_Some (isep_client self) ->
  exists response,
    handle_beacon self fresh now sender_id beacon
    = inr (sender_id, "beacon_response", response)
    /\ BeaconResponse.responder_id response = VStr (agent_id self)
    /\ Some (BeaconResponse.task_id response) = beacon !! "task_id"
    /\ BeaconResponse.match_score response
       = VNum (Capability.match_ (capability_manager self) requirement).
Proof.
  intros Hreq [tid Htid] [isep Hisep]. unfold handle_beacon, dict_getitem.
  rewrite Hreq, Htid. cbn. rewrite Hisep, match_clamped.
  by eexists.
Qed.

Lemma response_getitem (r : BeaconResponse.BeaconResponse) :
  dict_getitem (BeaconResponse.to_dict r) "task_id"
  = inr (BeaconResponse.task_id r)
  /\ dict_getitem (BeaconResponse.to_dict r) "responder_id"
     = inr (BeaconResponse.responder_id r)
  /\ dict_getitem (BeaconResponse.to_dict r) "match_score"
     = inr (BeaconResponse.match_score r).
Proof. repeat split; reflexivity. Qed.

Lemma beacon_getitem (b : Beacon.Beacon) :
  Beacon.to_dict b !! "requirement" = Some (Beacon.requirement b)
  /\ Beacon.to_dict b !! "task_id" = Some (Beacon.task_id b).
Proof. split; reflexivity. Qed.



End DiscoveryFacts.

(** ** Batch records *)

Module BatchRecordFacts.

Import UserRunner BatchRecords.

Section Batch.

Variables (w : World) (self : UserRunner).

Hypothesis writes_succeed : forall results, write_ok w results = true.

(** What a pass keeps when the writes succeed. *)
Lemma batch_step_records (st : Batch) (task_item : TaskItem) :
  let st' := batch_step w self st task_item in
  processed_count st' = processed_count st + 1
  /\ file st' ++ tasks_to_save st'
     = file st ++ tasks_to_save st ++ [record_of w self task_item]
  /\ concat (save_calls st') ++ tasks_to_save st'
     = concat (save_calls st) ++ tasks_to_save st
       ++ [record_of w self task_item].
Proof.
  unfold batch_step, record_of, _save_batch_results.
  destruct (process_task w self (problem task_item))
    as [e|[final_answer full_answers]]; cbn.
  - by rewrite !app_assoc.
  - case_decide; cbn.
    + rewrite writes_succeed. cbn.
      rewrite !app_nil_r, concat_app. cbn. by rewrite !app_nil_r, !app_assoc.
    + by rewrite !app_assoc.
Qed.

Lemma batch_loop_records (tasks : list TaskItem) :
  forall (max_process : Z) (st : Batch),
    let n := (Z.to_nat (max_process - processed_count st)
              `min` length tasks)%nat in
    let st' := batch_loop w self max_process st tasks in
    processed_count st' = processed_count st + Z.of_nat n
    /\ file st' ++ tasks_to_save st'
       = file st ++ tasks_to_save st
         ++ (record_of w self <$> take n tasks)
    /\ concat (save_calls st') ++ tasks_to_save st'
       = concat (save_calls st) ++ tasks_to_save st
         ++ (record_of w self <$> take n tasks).
Proof.
  induction tasks as [|task_item tasks IH]; intros max_process st; cbn zeta.
  - rewrite Nat.min_0_r. cbn. rewrite !app_nil_r. split; [lia|done].
  - cbn [batch_loop].
    destruct (decide (max_process <= processed_count st)) as [Hstop|Hgo].
    + replace (Z.to_nat (max_process - processed_count st)) with 0%nat
        by lia.
      cbn. rewrite !app_nil_r. split; [lia|done].
    + destruct (batch_step_records st task_item) as (Hcount & Hfile & Hcalls).
      destruct (IH max_process (batch_step w self st task_item))
        as (IHcount & IHfile & IHcalls).
      rewrite Hcount in IHcount, IHfile, IHcalls.
      replace (Z.to_nat (max_process - processed_count st)
               `min` length (task_item :: tasks))%nat
        with (S (Z.to_nat (max_process - (processed_count st + 1))
                 `min` length tasks))%nat by (cbn [length]; lia).
      rewrite IHcount, IHfile, IHcalls.
      rewrite firstn_cons, fmap_cons.
      split; [lia|]. rewrite !app_assoc, Hfile, Hcalls.
      by rewrite <- !app_assoc.
Qed.


(** The sizes of the save calls after [count] passes without error. *)
Lemma batch_step_chunks (st : Batch) (task_item : TaskItem) answer :
  process_task w self (problem task_item) = inr answer ->
  0 <= processed_count st ->
  Z.of_nat (length (tasks_to_save st)) = processed_count st mod 5 ->
  length <$> save_calls st
  = replicate (Z.to_nat (processed_count st / 5)) 5%nat ->
  let st' := batch_step w self st task_item in
  Z.of_nat (length (tasks_to_save st')) = processed_count st' mod 5
  /\ length <$> save_calls st'
     = replicate (Z.to_nat (processed_count st' / 5)) 5%nat.
Proof.
  intros Hanswer Hpos Hbuffer Hcalls.
  unfold batch_step, _save_batch_results. rewrite Hanswer.
  destruct answer as [final_answer full_answers]. cbn.
  case_decide as Hfive; cbn.
  - rewrite writes_succeed. cbn. rewrite Hfive. split; [done|].
    rewrite fmap_app, Hcalls. cbn. rewrite length_app. cbn.
    replace (Z.to_nat ((processed_count st + 1) / 5))
      with (Z.to_nat (processed_count st / 5) + 1)%nat
      by (Z.div_mod_to_equations; lia).
    rewrite replicate_add. cbn. f_equal. f_equal.
    Z.div_mod_to_equations; lia.
  - rewrite length_app. cbn. split.
    + Z.div_mod_to_equations; lia.
    + rewrite Hcalls. f_equal. Z.div_mod_to_equations; lia.
Qed.

Lemma batch_loop_chunks (tasks : list TaskItem) :
  forall (max_process : Z) (st : Batch),
    (forall task_item,
        task_item ∈ tasks ->
        exists answer, process_task w self (problem task_item) = inr answer)
    ->
    0 <= processed_count st ->
    Z.of_nat (length (tasks_to_save st)) = processed_count st mod 5 ->
    length <$> save_calls st
    = replicate (Z.to_nat (processed_count st / 5)) 5%nat ->
    let st' := batch_loop w self max_process st tasks in
    Z.of_nat (length (tasks_to_save st')) = processed_count st' mod 5
    /\ length <$> save_calls st'
       = replicate (Z.to_nat (processed_count st' / 5)) 5%nat.
Proof.
  induction tasks as [|task_item tasks IH];
    intros max_process st Hok Hpos Hbuffer Hcalls; cbn zeta; [done|].
  cbn [batch_loop].
  destruct (decide (max_process <= processed_count st)); [done|].
  destruct (Hok task_item) as [answer Hanswer]; [by left|].
  destruct (batch_step_chunks st task_item answer Hanswer Hpos Hbuffer
              Hcalls) as [Hbuffer' Hcalls'].
  apply IH; [|destruct (batch_step_records st task_item); lia|done|done].
  intros t Ht. apply Hok. by right.
Qed.


End Batch.



End BatchRecordFacts.

(** ** Consensus *)

Module ConsensusFacts.

Import UserRunner Consensus.

Section Consensus.

Context {A : Type} (str : A -> string).

Lemma first_with_spec most_common (results : list A) :
  most_common ∈ str <$> results ->
  exists before result after,
    first_with str most_common results = Some result
    /\ results = before ++ result :: after
    /\ str result = most_common
    /\ Forall (fun r => str r <> most_common) before.
Proof.
  induction results as [|r results IH]; [by intros ?%elem_of_nil|].
  rewrite fmap_cons. cbn [first_with].
  destruct (decide (str r = most_common)) as [Heq|Hne].
  - intros _. by exists [], r, results.
  - intros [?|Hin]%elem_of_cons; [done|].
    destruct (IH Hin) as (before & result & after & Hf & -> & Hs & Hb).
    exists (r :: before), result, after. repeat split; try done.
    by constructor.
Qed.

Lemma first_occurrence_unique {B} (x : B) (l1 l1' l2 l2' : list B) :
  l1 ++ x :: l2 = l1' ++ x :: l2' -> x ∉ l1 -> x ∉ l1' -> l1 = l1'.
Proof.
  revert l1'. induction l1 as [|a l1 IH]; intros [|a' l1'] Heq Hx Hx'.
  - done.
  - injection Heq as -> _. destruct Hx'. by left.
  - injection Heq as -> _. destruct Hx. by left.
  - injection Heq as -> Heq. f_equal.
    apply (IH l1' Heq).
    + intros ?. apply Hx. by right.
    + intros ?. apply Hx'. by right.
Qed.

(** X17. On a non-empty list [build_consensus(results, "majority")]
    returns the first result whose string has the greatest number of
    occurrences among the strings of the results, the string met first
    winning a tie: the answer that [UserRunner._vote_results] elects for
    the same strings.  On an empty list it raises [RuntimeError], whatever
    the method. *)
Theorem majority_consensus_elects_plurality (results : list A) :
  (forall consensus_method,
      build_consensus str [] consensus_method
      = inl (RuntimeError "Cannot build consensus from empty results"))
  /\ (results <> [] ->
      exists before result after,
        build_consensus str results "majority" = inr (Some result)
        /\ results = before ++ result :: after
        /\ Forall (fun r =>
                     (occurrences (str r) (str <$> results)
                      < occurrences (str result) (str <$> results))%nat)
                  before
        /\ (forall r,
              (occurrences (str r) (str <$> results)
               <= occurrences (str result) (str <$> results))%nat)
        /\ _vote_results (runner_with (str <$> results))
           = inr (str result)).
Proof.
  split; [done|]. intros Hne.
  destruct (VoteFacts.vote_results_plurality (runner_with (str <$> results)))
    as (winner & Hvote & Hmax & pre & post & Hsplit & Hpre).
  { cbn. by destruct results. }
  cbn [current_answers runner_with] in *.
  assert (winner ∈ str <$> results) as Hin.
  { rewrite Hsplit. apply elem_of_app. right. by left. }
  destruct (first_with_spec winner results Hin)
    as (before & result & after & Hfirst & Hres & Hstr & Hbefore).
  exists before, result, after.
  assert (build_consensus str results "majority" = inr (Some result))
    as Hbuild.
  { unfold build_consensus. destruct results as [|r0 results']; [done|].
    cbn [decide]. rewrite decide_True by done.
    unfold _majority_consensus. unfold _vote_results in Hvote.
    cbn [current_answers runner_with] in Hvote.
    destruct (str <$> r0 :: results') as [|s0 ss] eqn:Hstrs; [done|].
    rewrite <- Hstrs in *.
    destruct (most_common_1 (Counter (str <$> r0 :: results')))
      as [|[most_common count] rest]; [done|].
    injection Hvote as ->. by rewrite Hfirst. }
  rewrite Hstr. repeat split; try done.
  assert (pre = str <$> before) as ->.
  { symmetry. rewrite Hres, fmap_app, fmap_cons, Hstr in Hsplit.
    apply (first_occurrence_unique winner _ _ _ _ Hsplit).
    - intros (r & Hr & Hin')%list_elem_of_fmap.
      rewrite Forall_forall in Hbefore. by apply (Hbefore r).
    - intros Hin'. specialize (Hpre winner Hin'). lia. }
  apply Forall_forall. intros r Hr. apply Hpre.
  by apply list_elem_of_fmap_2.
Qed.

End Consensus.

End ConsensusFacts.

(** ** The orchestrator *)

Module SymphonyFacts.

Import Symphony.

Local Open Scope nat_scope.

(** [max_by_len] returns the first of the longest strings. *)
Lemma max_by_len_first (rest : list string) :
  forall best,
  exists before after,
    best :: rest = before ++ max_by_len best rest :: after
    /\ Forall (fun r => String.length r
                        < String.length (max_by_len best rest)) before
    /\ Forall (fun r => String.length r
                        <= String.length (max_by_len best rest)) after.
Proof.
  induction rest as [|r rest IH]; intros best; cbn [max_by_len].
  - by exists [], [].
  - destruct (decide (String.length best < String.length r)) as [Hlt|Hge].
    + destruct (IH r) as (before & after & Heq & Hb & Ha).
      exists (best :: before), after. rewrite Heq. split; [done|].
      split; [|done]. constructor; [|done].
      destruct before as [|b before].
      * injection Heq as <- _. lia.
      * injection Heq as <- _. apply Forall_cons in Hb as [Hb _]. lia.
    + destruct (IH best) as (before & after & Heq & Hb & Ha).
      destruct before as [|b before].
      * injection Heq as Hbest Hrest. exists [], (r :: rest).
        rewrite <- Hbest. split; [done|]. split; [done|].
        constructor; [lia|]. rewrite <- Hbest in Ha. by rewrite Hrest.
      * injection Heq as <- Hrest. apply Forall_cons in Hb as [Hbest Hb].
        exists (best :: r :: before), after.
        split; [cbn; by do 2 f_equal|]. split; [|done].
        constructor; [done|]. constructor; [lia|done].
Qed.



Lemma execute_on_model_agent fresh agent subtask :
  is_Some (base_model agent) ->
  _execute_subtask_on_agent fresh agent subtask
  = inl "Agent execution failed: '1'".
Proof.
  intros [model Hmodel]. unfold _execute_subtask_on_agent.
  rewrite Hmodel. reflexivity.
Qed.

Lemma cot_results_of_model_agents fresh available subtask cot_count :
  Forall (fun agent => is_Some (base_model agent)) available ->
  cot_results fresh available subtask cot_count
  = replicate (Z.to_nat (cot_count `min` Z.of_nat (length available)))
              agent_error.
Proof.
  intros Hall. unfold cot_results.
  set (n := Z.to_nat _).
  assert (n <= length available) as Hn by (unfold n; lia).
  clearbody n. revert n Hn.
  induction Hall as [|agent available Hmodel Hall IH]; intros [|n] Hn;
    try done; cbn [length] in Hn; [lia|].
  rewrite firstn_cons, fmap_cons, execute_on_model_agent by done.
  cbn [replicate]. f_equal. apply IH. lia.
Qed.

(** X19. An agent that has a base model never contributes an answer:
    [Agent.execute_task] looks up the step ["1"] in the dictionary the
    orchestrator hands over, whose only key is the integer [1], and raises
    [KeyError].  So when all the agents assigned to a sub-task have a base
    model, and [cot_count >= 1], the result recorded for the sub-task is
    the error string of the first agent. *)
Theorem agents_with_model_never_answer
    (fresh : string) (agent_assignments : gmap string (list Agent))
    (cot_count : Z) (subtask : Subtask) (available_agents : list Agent) :
  agent_assignments !! id subtask = Some available_agents ->
  available_agents <> [] ->
  (1 <= cot_count)%Z ->
  Forall (fun agent => is_Some (base_model agent)) available_agents ->
  Forall (fun agent =>
            _execute_subtask_on_agent fresh agent subtask
            = inl "Agent execution failed: '1'") available_agents
  /\ subtask_result fresh agent_assignments cot_count subtask
     = inr agent_error.
Proof.
  intros Hlook Hne Hcount Hall. split.
  { eapply Forall_impl; [exact Hall|]. intros agent Hagent.
    by apply execute_on_model_agent. }
  unfold subtask_result. rewrite Hlook.
  destruct available_agents as [|agent available]; [done|].
  cbn [default from_option Datatypes.id].
  rewrite cot_results_of_model_agents by done.
  set (n := Z.to_nat _).
  assert (1 <= n) as Hn by (unfold n; cbn [length]; lia). clearbody n.
  destruct n as [|[|n]]; [lia|done|].
  cbn [replicate]. unfold _vote_on_results.
  assert (filter (fun r => is_error r = false)
                 (agent_error :: agent_error :: replicate n agent_error)
          = []) as ->; [|done].
  rewrite !filter_cons_False by done. clear Hn.
  induction n as [|n IH]; [done|].
  cbn [replicate]. rewrite filter_cons_False by done. exact IH.
Qed.

Lemma agents_with_model_never_answer_witness :
  let subtask :=
    mkSubtask "task-1_sub_1" "translation" "Handle translation for: demo"
              ∅ "demo" in
  let agent := Lifecycle.agent_with Lifecycle.model_ok in
  Forall (fun agent =>
            _execute_subtask_on_agent "uuid-1" agent subtask
            = inl "Agent execution failed: '1'") [agent; agent]
  /\ subtask_result "uuid-1" {[ "task-1_sub_1" := [agent; agent] ]} 3
                    subtask
     = inr agent_error.
Proof.
  apply (agents_with_model_never_answer "uuid-1"
           {[ "task-1_sub_1" := [Lifecycle.agent_with Lifecycle.model_ok;
                                 Lifecycle.agent_with Lifecycle.model_ok] ]}
           3
           (mkSubtask "task-1_sub_1" "translation"
                      "Handle translation for: demo" ∅ "demo")).
  - reflexivity.
  - discriminate.
  - lia.
  - repeat constructor; eexists; reflexivity.
Defined.

Lemma find_suitable_agents_snoc agents subtasks subtask :
  _find_suitable_agents agents (subtasks ++ [subtask])
  = <[ id subtask
       := (suitable_agents agents (requirement subtask)).*1 ]>
      (_find_suitable_agents agents subtasks).
Proof. unfold _find_suitable_agents. by rewrite fold_left_app. Qed.

Lemma find_suitable_agents_empty agents subtasks :
  _find_suitable_agents agents subtasks = ∅ <-> subtasks = [].
Proof.
  split; [|by intros ->].
  destruct subtasks as [|subtask subtasks _] using rev_ind; [done|].
  rewrite find_suitable_agents_snoc. intros Hempty.
  by apply insert_non_empty in Hempty.
Qed.

(** X20. [execute_task] answers ["[ERROR] No suitable agents found for
    task execution"] exactly when the task has no requirement: the test is
    made on the dictionary of assignments, which has one entry per
    sub-task also when no agent is suitable. *)
Theorem no_suitable_agents_iff_no_requirement
    (agents : list Agent) (fresh : string) (task : Task) (cot_count : Z) :
  Symphony.execute_task agents fresh task cot_count = inr no_suitable_agents
  <-> requirements task = [].
Proof.
  unfold Symphony.execute_task.
  assert (_decompose_task task = [] <-> requirements task = []) as Hdec.
  { unfold _decompose_task, enumerate.
    destruct (requirements task); [done|]. by split. }
  destruct (decide (_find_suitable_agents agents (_decompose_task task) = ∅))
    as [Hempty|Hfull].
  - apply find_suitable_agents_empty in Hempty. by rewrite <- Hdec.
  - rewrite find_suitable_agents_empty in Hfull. split.
    + destruct (_execute_with_cot_voting _ _ _ _ _) as [e|results];
        [done|].
      unfold _aggregate_results, no_suitable_agents. intros [= Hres].
    + intros Hreq. by apply Hdec in Hreq.
Qed.

End SymphonyFacts.

(** ** Steps and their keys *)

Module StepFacts.

Import TaskFacts.


End StepFacts.

(** ** What a node does with a failed decomposition *)

Module DecompositionFacts.

Import AgentRunner Decomposition TaskFacts.

(** X22. A node that is idle and receives a fresh task whose
    decomposition yields no step takes the task for finished, since
    [subtask_id == len(steps) + 1] holds with [1 == 0 + 1]: it submits the
    empty [final_result] to the user and assigns the task to no one. *)
Theorem failed_decomposition_is_submitted_empty
    (self : AgentRunner) (env : Env) (sender user_id fresh0 : string)
    (user_input : string) (model : BaseModel) (isep : ISEPClient) :
  let task := to_dict (User._create_initial_task user_id fresh0 user_input) in
  first_task_received self = false ->
  received env = inr (Some (sender, "task", task)) ->
  user_id <> "" ->
  base_model (agent self) = Some model ->
  isep_client (agent self) = Some isep ->
  yields_no_step model user_input ->
  exists new_task,
    (_listen_tasks_try self env).1.2
    = [ExecuteBegin task; ExecuteEnd (inr new_task);
       Submit user_id "" (previous_results new_task)]
    /\ steps new_task = ∅
    /\ subtask_id new_task = 1
    /\ final_result new_task = "".
Proof.
  intros task Hidle Hrecv Huid Hmodel Hisep Hno.
  destruct (initial_task_fields user_id fresh0 user_input)
    as (Hsid & Hsteps & Hprev & Hop & Hfr).
  assert (d_subtask_id task = 0) as Hd0 by exact Hsid.
  assert (d_original_problem task = user_input) as Hdop by exact Hop.
  destruct (decompose_returns (agent self) (fresh env) task Hd0)
    as [new_task Hexec]; [by eauto|].
  destruct (decompose_spec (agent self) (fresh env) task new_task Hd0 Hexec)
    as (model' & background & question & ok & Hm & Hex & Hone & Hfinal
        & Hdag).
  rewrite Hmodel in Hm. injection Hm as <-. rewrite Hdop in Hex, Hdag.
  assert (steps new_task = ∅) as Hempty.
  { unfold yields_no_step in Hno. rewrite Hex in Hno.
    destruct Hno as [->|[Hnone|Hnil]].
    - destruct (dag_subtasks model background question user_input "math");
        by destruct Hdag as [-> _].
    - rewrite Hnone in Hdag. by destruct Hdag as [-> _].
    - rewrite Hnil in Hdag. destruct ok; by destruct Hdag as [-> _]. }
  assert (final_result new_task = "") as Hres by (by rewrite Hfinal).
  assert (TaskContract.user_id new_task = user_id) as Huser.
  { unfold execute_task in Hexec. rewrite decide_True in Hexec by done.
    unfold _decompose_task in Hexec. rewrite Hmodel, Hdop, Hex in Hexec.
    injection Hexec as <-.
    unfold from_dict, Task_init.
    repeat (case_match || case_bool_decide); simpl in *;
      unfold or_str; repeat case_decide; simplify_eq; try done. }
  exists new_task. split; [|done].
  unfold _listen_tasks_try. rewrite Hrecv, decide_True by done.
  rewrite Hidle. cbn [negb]. cbn [agent set_gate]. rewrite Hexec.
  rewrite decide_True by (rewrite Hone, Hempty; done).
  unfold submit. cbn [agent set_gate]. rewrite Huser, Hres, Hisep.
  by destruct (submit_result isep user_id "" (previous_results new_task)).
Qed.

Lemma failed_decomposition_is_submitted_empty_witness :
  let self :=
    mkAgentRunner
      (mkAgent "agent-001" 0 "" (Some Lifecycle.model_failing) []
               (Some UserRunner.quiet_client))
      true true false in
  let task :=
    to_dict (User._create_initial_task "user-001" "uuid-0"
                                       "What is 6 times 7?") in
  let env :=
    mkEnv (inr (Some ("user-001", "task", task))) "uuid-1" "uuid-2" 0
          false in
  exists new_task,
    (_listen_tasks_try self env).1.2
    = [ExecuteBegin task; ExecuteEnd (inr new_task);
       Submit "user-001" "" (previous_results new_task)]
    /\ steps new_task = ∅
    /\ subtask_id new_task = 1
    /\ final_result new_task = "".
Proof.
  apply (failed_decomposition_is_submitted_empty
           (mkAgentRunner
              (mkAgent "agent-001" 0 "" (Some Lifecycle.model_failing) []
                       (Some UserRunner.quiet_client))
              true true false)
           (mkEnv (inr (Some ("user-001", "task",
                              to_dict (User._create_initial_task
                                         "user-001" "uuid-0"
                                         "What is 6 times 7?"))))
                  "uuid-1" "uuid-2" 0 false)
           "user-001" "user-001" "uuid-0" "What is 6 times 7?"
           Lifecycle.model_failing UserRunner.quiet_client).
  - reflexivity.
  - reflexivity.
  - discriminate.
  - reflexivity.
  - reflexivity.
  - left. reflexivity.
Defined.

End DecompositionFacts.

(** ** Scores of responses *)

Module ScoreFacts.

Import NumberFacts ProtocolFacts.

(** X23. Every [BeaconResponse] built by the constructor or by
    [from_dict] carries a [match_score] between 0 and 1 and a
    non-negative [estimate_cost], both with at most three decimals,
    whatever numbers were passed. *)
Theorem response_scores_within_bounds (r : BeaconResponse.BeaconResponse) :
  BeaconResponse.constructed r ->
  exists match_score estimate_cost : Qc,
    BeaconResponse.match_score r = VNum match_score
    /\ BeaconResponse.estimate_cost r = VNum estimate_cost
    /\ (0 <= match_score)%Qc /\ (match_score <= 1)%Qc
    /\ (0 <= estimate_cost)%Qc
    /\ round3 match_score = match_score
    /\ round3 estimate_cost = estimate_cost.
Proof.
  intros (ms & ec & -> & ->)%response_constructed_scores.
  destruct (clamp_range ms) as [Hlo Hhi].
  eexists _, _. split; [done|]. split; [done|].
  split; [by apply round3_nonneg|]. split; [by apply round3_le_1|].
  split; [apply round3_nonneg, max_0_nonneg|].
  split; apply round3_idempotent.
Qed.

Lemma response_scores_within_bounds_witness :
  let r :=
    BeaconResponse.mkBeaconResponse
      (VStr "uuid-1") (VStr "agent-001") (VStr "0")
      (VNum (round3 (max_ 0 (min_ 1 (Q2Qc (17 # 10))))))
      (VNum (round3 (max_ 0 (Q2Qc (-2 # 1))))) (VNum (Qc_of_Z 0)) in
  exists match_score estimate_cost : Qc,
    BeaconResponse.match_score r = VNum match_score
    /\ BeaconResponse.estimate_cost r = VNum estimate_cost
    /\ (0 <= match_score)%Qc /\ (match_score <= 1)%Qc
    /\ (0 <= estimate_cost)%Qc
    /\ round3 match_score = match_score
    /\ round3 estimate_cost = estimate_cost.
Proof.
  apply response_scores_within_bounds.
  apply (BeaconResponse.by_init "uuid-1" 0 (VStr "agent-001") (VStr "0")
           (VNum (Q2Qc (17 # 10))) (VNum (Q2Qc (-2 # 1)))).
  reflexivity.
Defined.

End ScoreFacts.

(** ** Neighbors and broadcast *)

Module TopologyFacts.

Import Network Topology MemoryFacts.

Lemma dict_get_of_key {W} (key : string) (d : list (string * W)) :
  key ∈ d.*1 -> is_Some (Memory.dict_get key d).
Proof.
  induction d as [|[k w] d IH]; [by intros ?%elem_of_nil|].
  rewrite fmap_cons. cbn [Memory.dict_get fst].
  intros [->|Hin]%elem_of_cons.
  - by rewrite decide_True.
  - destruct (decide (k = key)); [done|by apply IH].
Qed.

Section Broadcast.

Context {D P : Type} (to_dict : D -> P).

Lemma with_neighbors_snoc calls call (self : NetworkAdapter) :
  with_neighbors (calls ++ [call]) self
  = add_neighbor call.1.1 call.1.2 call.2 (with_neighbors calls self).
Proof.
  unfold with_neighbors. rewrite fold_left_app. by destruct call as [[??]?].
Qed.

Lemma with_neighbors_spec calls (node_id host : string) (port : Z) :
  let self := with_neighbors calls (mkNetworkAdapter node_id host port []) in
  Network.node_id self = node_id
  /\ (neighbors self).*1 = UserRunner.firsts (calls.*1.*1)
  /\ (forall n, Memory.dict_get n (neighbors self)
                = last (omap (address_of n) calls)).
Proof.
  cbv zeta. induction calls as [|[[n h] p] calls (IHid & IHkeys & IHget)]
    using rev_ind; [done|].
  rewrite with_neighbors_snoc. cbn [fst snd].
  unfold add_neighbor. cbn [Network.node_id neighbors].
  split; [done|]. split.
  - rewrite dict_set_keys, IHkeys, !fmap_app.
    change ([(n, h, p)].*1.*1) with [n].
    by rewrite VoteFacts.firsts_snoc.
  - intros n'. rewrite dict_get_set, omap_app. unfold address_of at 2.
    cbn [omap list_omap fst snd].
    destruct (decide (n = n')) as [->|Hne].
    + by rewrite last_snoc.
    + by rewrite app_nil_r.
Qed.


End Broadcast.

End TopologyFacts.
